(** * A model of the CSP solver of [csp.py]

    The solver is a Python class [CSP] whose search works on dictionaries
    that map a variable name to a _list object_.  Lists are mutated in place
    ([list.remove]) while they are being iterated and while other names still
    refer to them, so the model keeps the list objects in an explicit store:

    - a location is an index in the store, a store is a list of Python lists;
    - a dictionary is an association list in insertion order (Python's order
      of iteration); the dictionaries of domains and assignments hold
      locations;
    - every method is a computation in a state-and-exception monad over the
      [world]: the [CSP] instance, the store and the two global counters;
    - a [for] loop over a list object is a loop over an index into the
      _current_ contents of that object, which is what Python's list
      iterator does.

    Loops are written by recursion on a step budget.  Running out of budget
    is a separate outcome, [OutOfFuel].  The methods compute their budgets
    themselves, and [OutOfFuel] is proved unreachable: for [revise] and
    [inference] on every input ([revise_spec], [inference_spec]), for
    [backtracking_search] on every CSP whose dictionary of domains has
    distinct keys and holds locations of the store
    ([backtracking_search_adequate]).

    The file has the model first, then the predicates the claims are stated
    with and the concrete problems, among them the two problem builders
    [create_map_coloring_csp] and [create_sudoku_csp], then the proofs: the
    claims, and after them further properties of the construction methods, of
    [revise] and [inference], of the search and of the builders. *)

From stdpp Require Import base decidable option numbers list strings pretty.

(** ** Dictionaries in insertion order *)

Definition dict (K V : Type) : Type := list (K * V).

Fixpoint dget {K V} `{EqDecision K} (k : K) (d : dict K V) : option V :=
  match d with
  | [] => None
  | (k', v) :: d' => if decide (k = k') then Some v else dget k d'
  end.

(** [d[k] = v]: an existing key keeps its position, a new key goes last. *)
Fixpoint dset {K V} `{EqDecision K} (k : K) (v : V) (d : dict K V) : dict K V :=
  match d with
  | [] => [(k, v)]
  | (k', v') :: d' =>
      if decide (k = k') then (k, v) :: d' else (k', v') :: dset k v d'
  end.

Definition dkeys {K V} (d : dict K V) : list K := d.*1.

Definition dmem {K V} `{EqDecision K} (k : K) (d : dict K V) : bool :=
  match dget k d with Some _ => true | None => false end.

(** [list.remove(x)]: drops the first element equal to [x]; [None] stands for
    the [ValueError] Python raises when there is none. *)
Fixpoint list_remove_first {A} `{EqDecision A} (x : A) (l : list A)
    : option (list A) :=
  match l with
  | [] => None
  | y :: l' =>
      if decide (x = y) then Some l'
      else match list_remove_first x l' with
           | Some r => Some (y :: r)
           | None => None
           end
  end.

(** [itertools.product(a, b)], in the order Python yields the pairs. *)
Definition get_all_possible_pairs {A B} (a : list A) (b : list B)
    : list (A * B) :=
  flat_map (λ x, map (λ y, (x, y)) b) a.

(** ** Outcomes *)

Inductive exn : Set := KeyError | ValueError.

Inductive res (A : Type) : Type :=
  | Ok (a : A)
  | Raise (e : exn)
  | OutOfFuel.
Arguments Ok {A} a.
Arguments Raise {A} e.
Arguments OutOfFuel {A}.

(** What [backtrack] returns: the assignment dictionary, or [False]. *)
Inductive answer (D : Type) : Type :=
  | Solution (assignment : D)
  | Failure.
Arguments Solution {D} assignment.
Arguments Failure {D}.

Abbreviation loc := nat.

Section solver.
Context {Var Val : Type} `{!EqDecision Var, !EqDecision Val}.

(** ** The world *)

Record CSP : Type := mkCSP {
  variables : list Var;
  domains : dict Var loc;
  constraints : dict Var (dict Var (list (Val * Val)))
}.

Record world : Type := mkWorld {
  self : CSP;
  heap : list (list Val);
  count_backtrack : nat;
  count_failures : nat
}.

Definition M (A : Type) : Type := world → world * res A.

Definition ret {A} (a : A) : M A := λ w, (w, Ok a).
Definition raise {A} (e : exn) : M A := λ w, (w, Raise e).
Definition out_of_fuel {A} : M A := λ w, (w, OutOfFuel).

Definition bind {A B} (m : M A) (k : A → M B) : M B :=
  λ w, match m w with
       | (w', Ok a) => k a w'
       | (w', Raise e) => (w', Raise e)
       | (w', OutOfFuel) => (w', OutOfFuel)
       end.

Notation "'let*' x ':=' m 'in' k" := (bind m (λ x, k))
  (at level 10, x pattern, m at level 100, k at level 200).

Definition set_heap (h : list (list Val)) (w : world) : world :=
  mkWorld (self w) h (count_backtrack w) (count_failures w).
Definition set_self (c : CSP) (w : world) : world :=
  mkWorld c (heap w) (count_backtrack w) (count_failures w).
Definition set_counters (b f : nat) (w : world) : world :=
  mkWorld (self w) (heap w) b f.

(** The list object at a location (a location outside the store holds
    nothing). *)
Definition deref (h : list (list Val)) (l : loc) : list Val :=
  default [] (h !! l).

Definition read (l : loc) : M (list Val) := λ w, (w, Ok (deref (heap w) l)).
Definition write (l : loc) (L : list Val) : M unit :=
  λ w, (set_heap (<[l := L]> (heap w)) w, Ok tt).
Definition alloc (L : list Val) : M loc :=
  λ w, (set_heap (heap w ++ [L]) w, Ok (length (heap w))).
Definition get_self : M CSP := λ w, (w, Ok (self w)).
Definition put_self (c : CSP) : M unit := λ w, (set_self c w, Ok tt).

(** The global counters: [count_backtrack = 0; count_failures = 0],
    [count_backtrack = count_backtrack + 1] and
    [count_failures = count_failures + 1]. *)
Definition reset_counters : M unit := λ w, (set_counters 0 0 w, Ok tt).
Definition count_call : M unit :=
  λ w, (set_counters (count_backtrack w + 1) (count_failures w) w, Ok tt).
Definition count_failure : M unit :=
  λ w, (set_counters (count_backtrack w) (count_failures w + 1) w, Ok tt).

(** [d[k]], which raises [KeyError] for a missing key. *)
Definition getitem {K V} `{EqDecision K} (k : K) (d : dict K V) : M V :=
  match dget k d with
  | Some v => ret v
  | None => raise KeyError
  end.

(** [lst.remove(x)] on the list object at [l]. *)
Definition remove (l : loc) (x : Val) : M unit :=
  let* L := read l in
  match list_remove_first x L with
  | Some L' => write l L'
  | None => raise ValueError
  end.

(** [pair in pairs] *)
Definition pair_in (p : Val * Val) (pairs : list (Val * Val)) : bool :=
  bool_decide (p ∈ pairs).

(** ** Building a CSP *)

Definition empty_CSP : CSP := mkCSP [] [] [].
Definition empty_world : world := mkWorld empty_CSP [] 0 0.

Definition add_variable (name : Var) (domain : list Val) : M unit :=
  let* l := alloc domain in
  let* c := get_self in
  put_self (mkCSP (variables c ++ [name])
                  (dset name l (domains c))
                  (dset name [] (constraints c))).

Definition get_all_arcs : M (list (Var * Var)) :=
  let* c := get_self in
  ret (flat_map (λ '(i, ci), map (λ j, (i, j)) (dkeys ci)) (constraints c)).

Definition get_all_neighboring_arcs (var : Var) : M (list (Var * Var)) :=
  let* c := get_self in
  let* cvar := getitem var (constraints c) in
  ret (map (λ i, (i, var)) (dkeys cvar)).

Definition set_constraint (i j : Var) (pairs : list (Val * Val)) : M unit :=
  let* c := get_self in
  let* ci := getitem i (constraints c) in
  put_self (mkCSP (variables c) (domains c)
                  (dset i (dset j pairs ci) (constraints c))).

Definition add_constraint_one_way (i j : Var) (filter_function : Val → Val → bool)
    : M unit :=
  let* c := get_self in
  let* ci := getitem i (constraints c) in
  let* _ :=
    if dmem j ci then ret tt
    else
      let* li := getitem i (domains c) in
      let* Di := read li in
      let* lj := getitem j (domains c) in
      let* Dj := read lj in
      set_constraint i j (get_all_possible_pairs Di Dj) in
  let* c := get_self in
  let* ci := getitem i (constraints c) in
  let* cij := getitem j ci in
  set_constraint i j (filter (λ value_pair, filter_function value_pair.1 value_pair.2) cij).

Fixpoint add_all_different_loop (pairs : list (Var * Var)) : M unit :=
  match pairs with
  | [] => ret tt
  | (i, j) :: pairs' =>
      let* _ :=
        if decide (i ≠ j)
        then add_constraint_one_way i j (λ x y, bool_decide (x ≠ y))
        else ret tt in
      add_all_different_loop pairs'
  end.

Definition add_all_different_constraint (vars : list Var) : M unit :=
  add_all_different_loop (get_all_possible_pairs vars vars).

(** ** AC-3 *)

(** The inner loop of [revise]: is there a [y] in the list of [j] with
    [(x, y)] in [self.constraints[i][j]]?  The constraint is looked up at
    each [y], so a missing constraint raises only when the list of [j] is not
    empty. *)
Fixpoint revise_inner (i j : Var) (x : Val) (ys : list Val) : M bool :=
  match ys with
  | [] => ret false
  | y :: ys' =>
      let* c := get_self in
      let* ci := getitem i (constraints c) in
      let* cij := getitem j ci in
      if pair_in (x, y) cij then ret true else revise_inner i j x ys'
  end.

(** The outer loop of [revise]: [for x in assignment[i]] is an index [idx]
    into the list object [li], read again at every step because the body
    removes from that very object.  [n] bounds the number of steps. *)
Fixpoint revise_loop (n : nat) (assignment : dict Var loc) (i j : Var)
    (li : loc) (idx : nat) (revised : bool) : M bool :=
  match n with
  | O => out_of_fuel
  | S n' =>
      let* L := read li in
      match L !! idx with
      | None => ret revised
      | Some x =>
          let* lj := getitem j assignment in
          let* ys := read lj in
          let* satisfied := revise_inner i j x ys in
          if satisfied then revise_loop n' assignment i j li (S idx) revised
          else
            let* _ := remove li x in
            revise_loop n' assignment i j li (S idx) true
      end
  end.

(** [revise]; the loop takes at most one step for each element of the
    list. *)
Definition revise (assignment : dict Var loc) (i j : Var) : M bool :=
  let* li := getitem i assignment in
  let* L := read li in
  revise_loop (S (length L)) assignment i j li 0 false.

(** The [while queue:] loop of [inference]; [n] bounds the number of
    iterations.  The queue is a list the caller hands over and never reads
    again, so it is passed by value. *)
Fixpoint inference_loop (n : nat) (assignment : dict Var loc)
    (queue : list (Var * Var)) : M bool :=
  match n with
  | O => out_of_fuel
  | S n' =>
      match queue with
      | [] => ret true
      | (i, j) :: queue' =>
          let* revised := revise assignment i j in
          if revised then
            let* li := getitem i assignment in
            let* L := read li in
            if decide (length L = 0) then ret false
            else
              let* neighboring_arcs := get_all_neighboring_arcs i in
              inference_loop n' assignment
                (queue' ++ filter (λ k, k.1 ≠ j) neighboring_arcs)
          else inference_loop n' assignment queue'
      end
  end.

(** Number of elements of all list objects of the store. *)
Definition heap_size (h : list (list Val)) : nat := sum_list_with length h.

(** Largest number of neighbours [get_all_neighboring_arcs] can return. *)
Definition max_degree (c : CSP) : nat :=
  max_list_with (λ e, length e.2) (constraints c).

(** A bound on the iterations of the loop of [inference]: an iteration
    takes an arc off the queue, and puts back at most [max_degree] arcs when
    it has removed a value from the store. *)
Definition inference_fuel (w : world) (queue : list (Var * Var)) : nat :=
  S (length queue + S (max_degree (self w)) * heap_size (heap w)).

Definition inference (assignment : dict Var loc) (queue : list (Var * Var))
    : M bool :=
  λ w, inference_loop (inference_fuel w queue) assignment queue w.

(** ** Backtracking search *)

(** [copy.deepcopy] of a dictionary of lists.  The values are immutable and
    are shared; each list object is copied once, and two keys that hold the
    same object hold the same copy ([memo]). *)
Fixpoint deepcopy_loop (memo : dict loc loc) (d : dict Var loc)
    : M (dict Var loc) :=
  match d with
  | [] => ret []
  | (k, l) :: d' =>
      match dget l memo with
      | Some l' =>
          let* rest := deepcopy_loop memo d' in
          ret ((k, l') :: rest)
      | None =>
          let* L := read l in
          let* l' := alloc L in
          let* rest := deepcopy_loop ((l, l') :: memo) d' in
          ret ((k, l') :: rest)
      end
  end.

Definition deepcopy (d : dict Var loc) : M (dict Var loc) :=
  deepcopy_loop [] d.

(** The first loop of [backtrack]: do all lists have length one? *)
Fixpoint all_decided (items : dict Var loc) : M bool :=
  match items with
  | [] => ret true
  | (_, l) :: items' =>
      let* values := read l in
      if decide (length values ≠ 1) then ret false else all_decided items'
  end.

(** [select_unassigned_variable]: the first variable whose list is longer
    than one; Python's [None] when the loop falls through. *)
Fixpoint select_unassigned_variable (items : dict Var loc) : M (option Var) :=
  match items with
  | [] => ret None
  | (variable, l) :: items' =>
      let* values := read l in
      if decide (1 < length values) then ret (Some variable)
      else select_unassigned_variable items'
  end.

(** The consistency check of [value] for [variable] against the lists of the
    other variables, over the keys of the assignment. *)
Fixpoint consistent_loop (assignment : dict Var loc) (variable : Var)
    (value : Val) (others : list Var) : M bool :=
  match others with
  | [] => ret true
  | otherVariable :: others' =>
      if decide (otherVariable ≠ variable) then
        let* c := get_self in
        let* cv := getitem variable (constraints c) in
        match dget otherVariable cv with
        | Some pairs =>
            let* lo := getitem otherVariable assignment in
            let* ys := read lo in
            if existsb (λ pair, pair_in pair pairs)
                       (get_all_possible_pairs [value] ys)
            then consistent_loop assignment variable value others'
            else ret false
        | None => consistent_loop assignment variable value others'
        end
      else consistent_loop assignment variable value others'
  end.

(** Is the value [backtrack] got from a recursive call true in Python?  A
    dictionary is, unless it is empty. *)
Definition truthy (result : answer (dict Var loc)) : bool :=
  match result with
  | Solution [] => false
  | Solution _ => true
  | Failure => false
  end.

(** The body of [if consistent:] in the loop of [backtrack], for the
    candidate [value]: rebind the entry of [variable] to a new list
    [[value]], copy the assignment, run AC-3 on the copy and recurse on it.
    [rec] is the recursive call.  The result is [Some] of the value to
    return, or [None] to go on to [assignment[variable].remove(value)];
    with it comes the frame's dictionary, now rebound. *)
Definition try_value (rec : dict Var loc → M (answer (dict Var loc)))
    (variable : Var) (value : Val) (assignment : dict Var loc)
    : M (option (answer (dict Var loc)) * dict Var loc) :=
  let* l := alloc [value] in
  let assignment1 := dset variable l assignment in
  let* assignmentCopy := deepcopy assignment1 in
  let* arcs := get_all_arcs in
  let* inferences := inference assignmentCopy arcs in
  if inferences then
    let* result := rec assignmentCopy in
    ret (if truthy result then Some result else None, assignment1)
  else ret (None, assignment1).

(** The [for value in values] loop of [backtrack].  [values] is the list
    object the loop iterates, [idx] the iterator's position; [assignment] is
    the frame's dictionary.  The loop returns the frame's dictionary along
    with its result. *)
Fixpoint backtrack_loop (rec : dict Var loc → M (answer (dict Var loc)))
    (n : nat) (variable : Var) (values : loc) (idx : nat)
    (assignment : dict Var loc)
    : M (answer (dict Var loc) * dict Var loc) :=
  match n with
  | O => out_of_fuel
  | S n' =>
      let* L := read values in
      match L !! idx with
      | None =>
          let* _ := count_failure in
          ret (Failure, assignment)
      | Some value =>
          let* consistent :=
            consistent_loop assignment variable value (dkeys assignment) in
          let* found :=
            if consistent then try_value rec variable value assignment
            else ret (None, assignment) in
          match found with
          | (Some result, assignment') => ret (result, assignment')
          | (None, assignment') =>
              let* l := getitem variable assignment' in
              let* _ := remove l value in
              backtrack_loop rec n' variable values (S idx) assignment'
          end
      end
  end.

(** [backtrack]; [n] bounds the depth of the recursion.  When no variable is
    undecided [select_unassigned_variable] returns [None], which is not a key
    of the assignment, and [assignment[variable]] raises [KeyError]. *)
Fixpoint backtrack (n : nat) (assignment : dict Var loc)
    : M (answer (dict Var loc)) :=
  match n with
  | O => out_of_fuel
  | S n' =>
      let* _ := count_call in
      let* finished := all_decided assignment in
      if finished then ret (Solution assignment)
      else
        let* selected := select_unassigned_variable assignment in
        match selected with
        | None => raise KeyError
        | Some variable =>
            let* values := getitem variable assignment in
            let* L := read values in
            let* r := backtrack_loop (backtrack n') (S (length L))
                                     variable values 0 assignment in
            ret r.1
        end
  end.

(** Sum of the lengths of the lists of an assignment. *)
Definition assignment_size (h : list (list Val)) (assignment : dict Var loc)
    : nat :=
  sum_list_with (λ e, length (deref h e.2)) assignment.

(** The lists an assignment holds, read from the store. *)
Definition snapshot (h : list (list Val)) (assignment : dict Var loc)
    : dict Var (list Val) :=
  (λ e, (e.1, deref h e.2)) <$> assignment.

(** [backtracking_search].  What [inference] returns is dropped.  Every
    recursive call of [backtrack] gets a smaller assignment, so the size of
    the root assignment bounds the depth of the recursion. *)
Definition backtracking_search : M (answer (dict Var loc)) :=
  let* _ := reset_counters in
  let* c := get_self in
  let* assignment := deepcopy (domains c) in
  let* arcs := get_all_arcs in
  let* _ := inference assignment arcs in
  λ w, backtrack (S (assignment_size (heap w) assignment)) assignment w.

(** ** Predicates of the specification *)

(** The pair-set stored for the arc [(i, j)], if the arc is declared. *)
Definition constraint_of (c : CSP) (i j : Var) : option (list (Val * Val)) :=
  match dget i (constraints c) with
  | Some ci => dget j ci
  | None => None
  end.

(** The arc [(i, j)] is declared, both variables are assigned, and every
    value in the list of [i] has a value in the list of [j] with which it
    forms a legal pair. *)
Definition arc_consistent (w : world) (assignment : dict Var loc)
    (arc : Var * Var) : Prop :=
  match dget arc.1 assignment, dget arc.2 assignment,
        constraint_of (self w) arc.1 arc.2 with
  | Some li, Some lj, Some cij =>
      Forall (λ x, Exists (λ y, (x, y) ∈ cij) (deref (heap w) lj))
             (deref (heap w) li)
  | _, _, _ => False
  end.

Global Instance arc_consistent_dec w assignment arc :
  Decision (arc_consistent w assignment arc).
Proof.
  unfold arc_consistent.
  destruct (dget arc.1 assignment), (dget arc.2 assignment),
    (constraint_of (self w) arc.1 arc.2); apply _.
Defined.

(** Each variable with the first value of its list. *)
Definition first_values (s : dict Var (list Val)) : dict Var (list Val) :=
  (λ e, (e.1, take 1 e.2)) <$> s.

(** No constraint is declared: every variable has an empty dictionary of
    constraints. *)
Definition unconstrained (c : CSP) : Prop :=
  Forall (λ e, e.2 = []) (constraints c).

(** The first statements of [backtracking_search], up to the call of
    [inference], with what [inference] returned and the root assignment. *)
Definition root_inference : M (bool * dict Var loc) :=
  let* c := get_self in
  let* assignment := deepcopy (domains c) in
  let* arcs := get_all_arcs in
  let* inferences := inference assignment arcs in
  ret (inferences, assignment).

(** The values of a complete assignment satisfy the constraint of an arc. *)
Definition satisfies (c : CSP) (s : dict Var (list Val)) (arc : Var * Var)
    : Prop :=
  match dget arc.1 s, dget arc.2 s, constraint_of c arc.1 arc.2 with
  | Some [x], Some [y], Some cij => (x, y) ∈ cij
  | _, _, _ => False
  end.

Global Instance satisfies_dec c s arc : Decision (satisfies c s arc).
Proof.
  unfold satisfies.
  destruct (dget arc.1 s) as [[|x [|??]]|], (dget arc.2 s) as [[|y [|??]]|],
    (constraint_of c arc.1 arc.2); apply _.
Defined.

(** C5 as the specification states it, at one world, assignment and queue:
    a second run of [inference] leaves the world of the first run as it is
    and returns what the first run returned. *)
Definition inference_idempotent_at (w : world) (assignment : dict Var loc)
    (queue : list (Var * Var)) : Prop :=
  let first := inference assignment queue w in
  inference assignment queue first.1 = (first.1, first.2).

(** C6 as the specification states it, at one world: adding a variable whose
    name exists raises an error. *)
Definition add_variable_rejects_duplicate (w : world) (name : Var)
    (domain : list Val) : Prop :=
  is_Some (dget name (domains (self w))) →
  ∃ e, (add_variable name domain w).2 = Raise e.

(** The world after a builder script: the steps run one after the other
    from the empty CSP. *)
Definition build (script : list (M unit)) : world :=
  foldl (λ w step, (step w).1) empty_world script.

(** Does a builder script run without an exception? *)
Fixpoint runs_ok (script : list (M unit)) (w : world) : bool :=
  match script with
  | [] => true
  | step :: script' =>
      match step w with
      | (w', Ok _) => runs_ok script' w'
      | _ => false
      end
  end.

(** A builder that only declares variables. *)
Definition declare (vars : list (Var * list Val)) : list (M unit) :=
  (λ e, add_variable e.1 e.2) <$> vars.

(** What [add_variable] establishes when no constraint is ever declared:
    a CSP without constraints, in which every variable has its (empty)
    dictionary of constraints, the dictionary of domains has distinct keys
    and no domain is empty. *)
Definition unconstrained_csp (w : world) : Prop :=
  unconstrained (self w) ∧
  Forall (λ v, dget v (constraints (self w)) = Some [])
         (dkeys (domains (self w))) ∧
  NoDup (dkeys (domains (self w))) ∧
  Forall (λ e, e.2 ≠ []) (snapshot (heap w) (domains (self w))).

Global Instance unconstrained_csp_dec w : Decision (unconstrained_csp w).
Proof. unfold unconstrained_csp, unconstrained. apply _. Defined.

(** ** Relations between worlds, for the proofs *)

(** [wp m w Q]: running [m] in [w] ends in a world and an outcome that
    satisfy [Q]. *)
Definition wp {A} (m : M A) (w : world) (Q : world → res A → Prop) : Prop :=
  Q (m w).1 (m w).2.

(** [shrink_at l w w']: the worlds differ at most in the list object at
    [l], which lost elements. *)
Definition shrink_at (l : loc) (w w' : world) : Prop :=
  ∃ L', L' `sublist_of` deref (heap w) l ∧
        w' = set_heap (<[l := L']> (heap w)) w.

(** [shrinks locs w w']: the worlds differ only in list objects at [locs],
    each of which lost elements at most. *)
Record shrinks (locs : list loc) (w w' : world) : Prop := mk_shrinks {
  shrinks_self : self w' = self w;
  shrinks_count_backtrack : count_backtrack w' = count_backtrack w;
  shrinks_count_failures : count_failures w' = count_failures w;
  shrinks_length : length (heap w') = length (heap w);
  shrinks_sublist : ∀ l, deref (heap w') l `sublist_of` deref (heap w) l;
  shrinks_frame : ∀ l, l ∉ locs → deref (heap w') l = deref (heap w) l
}.

(** [frame N w w']: the CSP instance is the same, and so is every list
    object at a location below [N]; the store did not lose objects. *)
Definition frame (N : nat) (w w' : world) : Prop :=
  self w' = self w ∧ length (heap w) ≤ length (heap w') ∧
  ∀ l, l < N → deref (heap w') l = deref (heap w) l.

(** Every location of the dictionary is in the store. *)
Definition in_range (h : list (list Val)) (d : dict Var loc) : Prop :=
  Forall (λ l, l < length h) d.*2.

(** The size of an assignment without the list of [variable]. *)
Definition rest_size (h : list (list Val)) (variable : Var)
    (assignment : dict Var loc) : nat :=
  sum_list_with
    (λ e, if decide (e.1 = variable) then 0 else length (deref h e.2))
    assignment.

(** [grows w w']: the store did not lose objects, and no list object of
    [w] is longer in [w']. *)
Definition grows (w w' : world) : Prop :=
  length (heap w) ≤ length (heap w') ∧
  ∀ l, l < length (heap w) →
       length (deref (heap w') l) ≤ length (deref (heap w) l).

(** ** The loops of the problem builders *)

(** A [for] loop over a list whose body is one method call. *)
Fixpoint for_each {A} (items : list A) (body : A → M unit)
    : M unit :=
  match items with
  | [] => ret tt
  | item :: items' => let* _ := body item in for_each items' body
  end.

(** ** Predicates of the further properties *)

(** The pairs [add_constraint_one_way] filters for the arc [(i, j)]: the
    pairs stored for the arc, or all pairs of the two domains when the arc is
    new; [None] when a lookup raises. *)
Definition constraint_base (w : world) (i j : Var)
    : option (list (Val * Val)) :=
  match constraint_of (self w) i j with
  | Some cij => Some cij
  | None =>
      match dget i (domains (self w)), dget j (domains (self w)) with
      | Some li, Some lj =>
          Some (get_all_possible_pairs (deref (heap w) li)
                                       (deref (heap w) lj))
      | _, _ => None
      end
  end.

(** [self.domains[v]] as a list of values; empty for a name that is not a
    variable. *)
Definition domain_of (w : world) (v : Var) : list Val :=
  default [] (dget v (snapshot (heap w) (domains (self w)))).

(** The name is a variable of the CSP: it has a domain and a dictionary of
    constraints. *)
Definition declared (w : world) (v : Var) : Prop :=
  is_Some (dget v (constraints (self w))) ∧
  is_Some (dget v (domains (self w))).

Global Instance declared_dec w v : Decision (declared w v).
Proof. unfold declared. apply _. Defined.

(** The calls that build a CSP. *)
Inductive call : Type :=
  | Call_add_variable (name : Var) (domain : list Val)
  | Call_add_constraint_one_way (i j : Var) (filter_function : Val → Val → bool)
  | Call_add_all_different_constraint (vars : list Var).

Definition run_call (c : call) : M unit :=
  match c with
  | Call_add_variable name domain => add_variable name domain
  | Call_add_constraint_one_way i j filter_function =>
      add_constraint_one_way i j filter_function
  | Call_add_all_different_constraint vars => add_all_different_constraint vars
  end.

(** What the construction methods maintain: the dictionary of domains has
    distinct keys, bound to distinct list objects of the store; the
    dictionary of constraints has the same keys in the same order; and the
    constraints declared from a variable go to distinct variables of the
    CSP. *)
Definition well_formed (w : world) : Prop :=
  NoDup (dkeys (domains (self w))) ∧
  dkeys (constraints (self w)) = dkeys (domains (self w)) ∧
  NoDup (domains (self w)).*2 ∧
  in_range (heap w) (domains (self w)) ∧
  Forall (λ e, NoDup (dkeys e.2) ∧
               Forall (λ j, j ∈ dkeys (domains (self w))) (dkeys e.2))
         (constraints (self w)).

Global Instance well_formed_dec w : Decision (well_formed w).
Proof. unfold well_formed, in_range. apply _. Defined.

(** The list [get_all_arcs] returns. *)
Definition all_arcs (c : CSP) : list (Var * Var) :=
  flat_map (λ '(i, ci), map (λ j, (i, j)) (dkeys ci)) (constraints c).

(** Every arc has its reverse, and joins variables of the assignment. *)
Definition symmetric_arcs (c : CSP) (assignment : dict Var loc)
    : Prop :=
  Forall (λ arc, is_Some (constraint_of c arc.1 arc.2) ∧
                 is_Some (constraint_of c arc.2 arc.1) ∧
                 is_Some (dget arc.1 assignment) ∧
                 is_Some (dget arc.2 assignment))
         (all_arcs c).

Global Instance symmetric_arcs_dec c assignment :
  Decision (symmetric_arcs c assignment).
Proof. unfold symmetric_arcs. apply _. Defined.

(** A choice of one value for each variable that satisfies the constraint
    of every arc. *)
Definition solves (sol : Var → Val) (c : CSP) : Prop :=
  Forall (λ arc, match constraint_of c arc.1 arc.2 with
                 | Some cij => (sol arc.1, sol arc.2) ∈ cij
                 | None => True
                 end)
         (all_arcs c).

Global Instance solves_dec sol c : Decision (solves sol c).
Proof.
  unfold solves. apply Forall_dec. intros arc.
  destruct (constraint_of c arc.1 arc.2); apply _.
Defined.

(** The value chosen for each variable of the assignment is in its list. *)
Definition within (sol : Var → Val) (w : world)
    (assignment : dict Var loc) : Prop :=
  Forall (λ e, sol e.1 ∈ deref (heap w) e.2) assignment.

Global Instance within_dec sol w assignment :
  Decision (within sol w assignment).
Proof. unfold within. apply _. Defined.

(** [prunes w w']: the store did not lose objects, and every list object of
    [w] holds in [w'] a sublist of what it held. *)
Definition prunes (w w' : world) : Prop :=
  length (heap w) ≤ length (heap w') ∧
  ∀ l, l < length (heap w) →
       deref (heap w') l `sublist_of` deref (heap w) l.

(** [picks w a w' a']: the assignment [a'] has the keys of [a], and binds
    each of them to a list of one value, taken from the list [a] binds it
    to. *)
Definition picks (w : world) (a : dict Var loc)
    (w' : world) (a' : dict Var loc) : Prop :=
  dkeys a' = dkeys a ∧
  ∀ v l', dget v a' = Some l' →
          ∃ l x, dget v a = Some l ∧ deref (heap w') l' = [x] ∧
                 x ∈ deref (heap w) l.

(** [counts w w' r]: from [w] to [w'] the counters did not decrease, and
    the failures counted are at most the calls counted, fewer when [r] is a
    solution; a failure is counted when [r] is [False]. *)
Definition counts (w w' : world)
    (r : res (answer (dict Var loc))) : Prop :=
  count_failures w ≤ count_failures w' ∧
  count_failures w' + count_backtrack w
  ≤ count_backtrack w' + count_failures w ∧
  (∀ a', r = Ok (Solution a') →
         count_failures w' + count_backtrack w
         < count_backtrack w' + count_failures w) ∧
  (r = Ok Failure → count_failures w < count_failures w').

(** The candidate [value] of [variable] has a partner in the list of the
    variable [o], when a constraint is declared from [variable] to [o];
    [cv] is [self.constraints[variable]]. *)
Definition has_partner (w : world) (assignment : dict Var loc)
    (cv : dict Var (list (Val * Val))) (variable : Var) (value : Val)
    (o : Var) : Prop :=
  o = variable ∨
  match dget o cv, dget o assignment with
  | Some pairs, Some lo =>
      Exists (λ y, (value, y) ∈ pairs) (deref (heap w) lo)
  | _, _ => True
  end.

Global Instance has_partner_dec w assignment cv variable value o :
  Decision (has_partner w assignment cv variable value o).
Proof.
  unfold has_partner. destruct (dget o cv), (dget o assignment); apply _.
Defined.

(** Two different variables that are together in one of the lists. *)
Definition peers (units : list (list Var)) (i j : Var) : Prop :=
  i ≠ j ∧ Exists (λ u, i ∈ u ∧ j ∈ u) units.

Global Instance peers_dec units i j : Decision (peers units i j).
Proof. unfold peers. apply _. Defined.

End solver.

(** * The solver on concrete problems: variables are named by strings and
    take integer values.  Each problem is built from the empty CSP by the
    construction methods, as a problem builder does. *)

Abbreviation World := (@world string Z).
Abbreviation Script := (@M string Z unit).

Definition equal (x y : Z) : bool := bool_decide (x = y).

(** The world after [assignment = copy.deepcopy(self.domains)]. *)
Definition copied (w : World) : World := (deepcopy (domains (self w)) w).1.

(** [a] in [1, 2, 3], [b] in [3], [a == b] declared both ways. *)
Definition script_a123_b3 : list Script :=
  [ add_variable "a" [1; 2; 3]%Z;
    add_variable "b" [3]%Z;
    add_constraint_one_way "a" "b" equal;
    add_constraint_one_way "b" "a" equal ].
Definition csp_a123_b3 : World := build script_a123_b3.

(** [p] in [1, 2], [q] in [3, 4], [p == q] declared both ways. *)
Definition script_p12_q34 : list Script :=
  [ add_variable "p" [1; 2]%Z;
    add_variable "q" [3; 4]%Z;
    add_constraint_one_way "p" "q" equal;
    add_constraint_one_way "q" "p" equal ].
Definition csp_p12_q34 : World := build script_p12_q34.

(** [a] in [1], [b] in [1], all different. *)
Definition script_a1_b1 : list Script :=
  [ add_variable "a" [1]%Z;
    add_variable "b" [1]%Z;
    add_all_different_constraint ["a"; "b"] ].
Definition csp_a1_b1 : World := build script_a1_b1.

(** [a] in [1], [b] in [2], all different. *)
Definition script_a1_b2 : list Script :=
  [ add_variable "a" [1]%Z;
    add_variable "b" [2]%Z;
    add_all_different_constraint ["a"; "b"] ].
Definition csp_a1_b2 : World := build script_a1_b2.

(** [a] and [b] in [1, 2], [a != b] declared from [a] to [b] only. *)
Definition script_one_way : list Script :=
  [ add_variable "a" [1; 2]%Z;
    add_variable "b" [1; 2]%Z;
    add_constraint_one_way "a" "b" (λ x y, bool_decide (x ≠ y)) ].
Definition csp_one_way : World := build script_one_way.

(** [a] in [1, 2], [b] in [5, 6], no constraint. *)
Definition script_free : list Script :=
  [ add_variable "a" [1; 2]%Z; add_variable "b" [5; 6]%Z ].
Definition csp_free : World := build script_free.

(** [a], [b] and [c] in [1, 2], all different. *)
Definition script_pigeon : list Script :=
  [ add_variable "a" [1; 2]%Z;
    add_variable "b" [1; 2]%Z;
    add_variable "c" [1; 2]%Z;
    add_all_different_constraint ["a"; "b"; "c"] ].
Definition csp_pigeon : World := build script_pigeon.

(** [a] in [1, 0, 2], [b] in [4, 5, 6], [c] in [7]; between [a] and [c]
    the legal pair is [(1, 7)], between [a] and [b] the legal pairs are
    [(1, 6)], [(2, 4)] and [(2, 5)]; both declared both ways. *)
Definition a_is_one (x z : Z) : bool := bool_decide (x = 1%Z).
Definition legal_ab (x y : Z) : bool :=
  bool_decide ((x, y) ∈ [(1, 6); (2, 4); (2, 5)]%Z).
Definition script_a102_b456_c7 : list Script :=
  [ add_variable "a" [1; 0; 2]%Z;
    add_variable "b" [4; 5; 6]%Z;
    add_variable "c" [7]%Z;
    add_constraint_one_way "a" "c" a_is_one;
    add_constraint_one_way "c" "a" (λ z x, a_is_one x z);
    add_constraint_one_way "a" "b" legal_ab;
    add_constraint_one_way "b" "a" (λ y x, legal_ab x y) ].
Definition csp_a102_b456_c7 : World := build script_a102_b456_c7.

(** The map of Australia of [create_map_coloring_csp], with the colours
    red, green and blue numbered 1, 2 and 3. *)
Definition differ (x y : Z) : bool := bool_decide (x ≠ y).
Definition map_edges : list (string * string) :=
  [ ("SA", "WA"); ("SA", "NT"); ("SA", "Q"); ("SA", "NSW"); ("SA", "V");
    ("NT", "WA"); ("NT", "Q"); ("NSW", "Q"); ("NSW", "V") ].
Definition script_map : list Script :=
  ((λ state, add_variable state [1; 2; 3]%Z)
     <$> ["WA"; "NT"; "Q"; "NSW"; "V"; "SA"; "T"]) ++
  flat_map (λ e, [ add_constraint_one_way e.1 e.2 differ;
                   add_constraint_one_way e.2 e.1 differ ]) map_edges.
Definition csp_map : World := build script_map.

(** [a] in [1]. *)
Definition script_a1 : list Script := [ add_variable "a" [1]%Z ].
Definition csp_a1 : World := build script_a1.

(** ** The map of [create_map_coloring_csp], with its colours *)

(** [create_map_coloring_csp], run on a new [CSP()]. *)
Definition create_map_coloring_csp : @M string string unit :=
  let states := ["WA"; "NT"; "Q"; "NSW"; "V"; "SA"; "T"] in
  let edges := [ ("SA", ["WA"; "NT"; "Q"; "NSW"; "V"]);
                 ("NT", ["WA"; "Q"]);
                 ("NSW", ["Q"; "V"]) ] in
  let colors := ["red"; "green"; "blue"] in
  bind (for_each states (λ state, add_variable state colors)) (λ _,
  for_each edges (λ '(state, other_states),
    for_each other_states (λ other_state,
      bind (add_constraint_one_way state other_state
              (λ i j, bool_decide (i ≠ j))) (λ _,
      add_constraint_one_way other_state state
        (λ i j, bool_decide (i ≠ j)))))).

(** ** The Sudoku board of [create_sudoku_csp] *)

Abbreviation Sudoku := (@world string string).

(** ['%d-%d' % (row, col)] *)
Definition cell_name (row col : nat) : string :=
  pretty row +:+ "-" +:+ pretty col.

(** [board[row][col]], a string of one character; [None] stands for the
    [IndexError] of a board with too few lines or too short a line. *)
Definition board_at (board : list string) (row col : nat) : option string :=
  line ← board !! row;
  character ← String.get col line;
  Some (String character EmptyString).

(** [list(map(str, range(1, 10)))] *)
Definition digits : list string := pretty <$> seq 1 9.

(** The domain of a cell that holds [character]. *)
Definition cell_domain (character : string) : list string :=
  if decide (character = "0") then digits else [character].

(** The first two loops of [create_sudoku_csp], over the cells in order. *)
Fixpoint add_cells (board : list string) (cells : list (nat * nat))
    (w : Sudoku) : option (Sudoku * res unit) :=
  match cells with
  | [] => Some (w, Ok tt)
  | (row, col) :: cells' =>
      character ← board_at board row col;
      match add_variable (cell_name row col) (cell_domain character) w with
      | (w', Ok _) => add_cells board cells' w'
      | raised => Some raised
      end
  end.

(** The places of the board, [for row in range(9): for col in range(9)]. *)
Definition sudoku_cells : list (nat * nat) :=
  get_all_possible_pairs (seq 0 9) (seq 0 9).

(** The lists the three loops over rows, columns and boxes hand to
    [add_all_different_constraint], in the order of the calls. *)
Definition sudoku_rows : list (list string) :=
  (λ row, (λ col, cell_name row col) <$> seq 0 9) <$> seq 0 9.

Definition sudoku_cols : list (list string) :=
  (λ col, (λ row, cell_name row col) <$> seq 0 9) <$> seq 0 9.

Definition sudoku_boxes : list (list string) :=
  flat_map (λ box_row,
    (λ box_col,
       flat_map (λ row, (λ col, cell_name row col) <$> seq (box_col * 3) 3)
                (seq (box_row * 3) 3))
    <$> seq 0 3) (seq 0 3).

(** [create_sudoku_csp], from the stripped lines of the file.  [None]
    stands for [IndexError]; otherwise the result is the CSP built, with
    the outcome of the construction. *)
Definition create_sudoku_csp (board : list string)
    : option (Sudoku * res unit) :=
  match add_cells board sudoku_cells empty_world with
  | Some (w, Ok _) =>
      Some (bind (for_each sudoku_rows add_all_different_constraint) (λ _,
            bind (for_each sudoku_cols add_all_different_constraint) (λ _,
            for_each sudoku_boxes add_all_different_constraint)) w)
  | other => other
  end.

(** Two different cells in the same row, column or box. *)
Definition sudoku_peers (r1 c1 r2 c2 : nat) : Prop :=
  (r1, c1) ≠ (r2, c2) ∧
  (r1 = r2 ∨ c1 = c2 ∨ (r1 / 3 = r2 / 3 ∧ c1 / 3 = c2 / 3)).

Global Instance sudoku_peers_dec r1 c1 r2 c2 :
  Decision (sudoku_peers r1 c1 r2 c2).
Proof. unfold sudoku_peers. apply _. Defined.

(** All rows, columns and boxes, and the names of all cells. *)
Definition sudoku_units : list (list string) :=
  sudoku_rows ++ sudoku_cols ++ sudoku_boxes.

Definition cell_names : list string :=
  (λ cell, cell_name cell.1 cell.2) <$> sudoku_cells.

(** A Sudoku board, as the stripped lines of its file. *)
Definition board_example : list string :=
  [ "530070000"; "600195000"; "098000060";
    "800060003"; "400803001"; "700020006";
    "060000280"; "000419005"; "000080079" ].

(** * Properties of the solver *)

Section properties.
Context {Var Val : Type} `{!EqDecision Var, !EqDecision Val}.
Implicit Types (w : @world Var Val) (c : @CSP Var Val).
Implicit Types (h : list (list Val)) (L : list Val).
Implicit Types (assignment d items : dict Var loc).
Implicit Types (i j variable var name : Var) (x y value : Val).

(** ** Properties of dictionaries and of [list.remove] *)

Lemma dget_dset_eq {K V} `{EqDecision K} (k : K) (v : V) (d : dict K V) :
  dget k (dset k v d) = Some v.
Proof.
  induction d as [|[k' v'] d IH]; simpl.
  - by rewrite decide_True.
  - destruct (decide (k = k')) as [->|Hne]; simpl.
    + by rewrite decide_True.
    + by rewrite decide_False.
Qed.

Lemma dget_dset_ne {K V} `{EqDecision K} (k k' : K) (v : V) (d : dict K V) :
  k ≠ k' → dget k' (dset k v d) = dget k' d.
Proof.
  intros Hne. induction d as [|[k0 v0] d IH]; simpl.
  - by rewrite decide_False.
  - destruct (decide (k = k0)) as [->|Hne0]; simpl.
    + by rewrite !decide_False.
    + destruct (decide (k' = k0)); done.
Qed.

Lemma dkeys_dset_present {K V} `{EqDecision K} (k : K) (v v0 : V) (d : dict K V) :
  dget k d = Some v0 → dkeys (dset k v d) = dkeys d.
Proof.
  unfold dkeys. induction d as [|[k' v'] d IH]; cbn [dget dset]; [done|].
  destruct (decide (k = k')) as [->|Hne]; [done|].
  intros Hd. rewrite !fmap_cons. f_equal. by apply IH.
Qed.

Lemma dkeys_dset_absent {K V} `{EqDecision K} (k : K) (v : V) (d : dict K V) :
  dget k d = None → dkeys (dset k v d) = dkeys d ++ [k].
Proof.
  unfold dkeys. induction d as [|[k' v'] d IH]; cbn [dget dset]; [done|].
  destruct (decide (k = k')) as [->|Hne]; [done|].
  intros Hd. rewrite !fmap_cons. simpl. f_equal. by apply IH.
Qed.

Lemma dget_Some_elem_of {K V} `{EqDecision K} (k : K) (v : V) (d : dict K V) :
  dget k d = Some v → (k, v) ∈ d.
Proof.
  induction d as [|[k' v'] d IH]; simpl; [done|].
  destruct (decide (k = k')) as [->|Hne].
  - intros [= ->]. left.
  - intros Hd. right. by apply IH.
Qed.

Lemma dget_is_Some {K V} `{EqDecision K} (k : K) (d : dict K V) :
  is_Some (dget k d) ↔ k ∈ dkeys d.
Proof.
  unfold dkeys. induction d as [|[k' v'] d IH]; cbn [dget].
  - split; [by intros [? ?]|by intros ?%elem_of_nil].
  - rewrite fmap_cons, elem_of_cons. simpl.
    destruct (decide (k = k')) as [->|Hne].
    + split; [intros _; by left|eauto].
    + rewrite IH. split; [intros ?; by right|by intros [?|?]].
Qed.

Lemma dget_None {K V} `{EqDecision K} (k : K) (d : dict K V) :
  dget k d = None ↔ k ∉ dkeys d.
Proof. rewrite <-dget_is_Some, eq_None_not_Some. done. Qed.

Lemma list_remove_first_Some {A} `{EqDecision A} (x : A) (l l' : list A) :
  list_remove_first x l = Some l' →
  length l = S (length l') ∧ l' `sublist_of` l.
Proof.
  revert l'. induction l as [|y l IH]; intros l'; simpl; [done|].
  destruct (decide (x = y)) as [->|Hne].
  - intros [= ->]. split; [done|]. by apply sublist_cons.
  - destruct (list_remove_first x l) as [r|] eqn:Hr; [|done].
    intros [= <-]. destruct (IH r eq_refl) as [Hlen Hsub].
    split; [simpl; lia|]. by apply sublist_skip.
Qed.

(** ** Reasoning about computations *)

Lemma wp_bind {A B} (m : M A) (k : A → M B) w Q :
  wp m w (λ w' r, match r with
                  | Ok a => wp (k a) w' Q
                  | Raise e => Q w' (Raise e)
                  | OutOfFuel => Q w' OutOfFuel
                  end) →
  wp (bind m k) w Q.
Proof. unfold wp, bind. by destruct (m w) as [w' [a|e|]]. Qed.

Lemma wp_mono {A} (m : M A) w (Q Q' : world → res A → Prop) :
  wp m w Q → (∀ w' r, Q w' r → Q' w' r) → wp m w Q'.
Proof. unfold wp. auto. Qed.

Lemma wp_getitem {K V} `{EqDecision K} (k : K) (d : dict K V) w Q :
  match dget k d with
  | Some v => Q w (Ok v)
  | None => Q w (Raise KeyError)
  end →
  wp (getitem k d) w Q.
Proof. unfold wp, getitem. by destruct (dget k d). Qed.

Lemma wp_remove l x w (Q : world → res unit → Prop) :
  match list_remove_first x (deref (heap w) l) with
  | Some L' => Q (set_heap (<[l := L']> (heap w)) w) (Ok tt)
  | None => Q w (Raise ValueError)
  end →
  wp (remove l x) w Q.
Proof.
  unfold wp, remove, bind, read. simpl.
  by destruct (list_remove_first x (deref (heap w) l)).
Qed.

Lemma wp_bind_read {B} l (k : list Val → M B) w Q :
  wp (k (deref (heap w) l)) w Q → wp (bind (read l) k) w Q.
Proof. done. Qed.

Lemma wp_bind_get_self {B} (k : CSP → M B) w Q :
  wp (k (self w)) w Q → wp (bind get_self k) w Q.
Proof. done. Qed.

Lemma wp_bind_getitem {K V B} `{EqDecision K} (x : K) (d : dict K V)
    (k : V → M B) w Q :
  match dget x d with
  | Some v => wp (k v) w Q
  | None => Q w (Raise KeyError)
  end →
  wp (bind (getitem x d) k) w Q.
Proof. intros HQ. apply wp_bind, wp_getitem. by destruct (dget x d). Qed.

Lemma wp_ret {A} (a : A) w (Q : world → res A → Prop) :
  Q w (Ok a) → wp (ret a) w Q.
Proof. done. Qed.

Lemma wp_raise {A} e w (Q : world → res A → Prop) :
  Q w (Raise e) → wp (raise e) w Q.
Proof. done. Qed.

Lemma bind_Ok {A B} (m : M A) (k : A → M B) w w' a :
  m w = (w', Ok a) → bind m k w = k a w'.
Proof. unfold bind. by intros ->. Qed.

Lemma bind_read {B} l (k : list Val → M B) w :
  bind (read l) k w = k (deref (heap w) l) w.
Proof. done. Qed.

Lemma bind_get_self {B} (k : CSP → M B) w :
  bind get_self k w = k (self w) w.
Proof. done. Qed.

Lemma bind_getitem_Some {K V B} `{EqDecision K} (x : K) (d : dict K V) v
    (k : V → M B) w :
  dget x d = Some v → bind (getitem x d) k w = k v w.
Proof. intros Hx. apply bind_Ok. unfold getitem. by rewrite Hx. Qed.

Lemma wp_bind_Ok {A B} (m : M A) (k : A → M B) w w' a Q :
  m w = (w', Ok a) → wp (k a) w' Q → wp (bind m k) w Q.
Proof. unfold wp. intros Hm. by rewrite (bind_Ok _ _ _ _ _ Hm). Qed.

Lemma wp_bind_alloc {B} L (k : loc → M B) w Q :
  wp (k (length (heap w))) (set_heap (heap w ++ [L]) w) Q →
  wp (bind (alloc L) k) w Q.
Proof. done. Qed.

Ltac wp_read := apply wp_bind_read; cbv beta.
Ltac wp_get_self := apply wp_bind_get_self; cbv beta.
Ltac wp_getitem := apply wp_bind_getitem.

(** ** The store *)

Lemma heap_set_heap h w : heap (set_heap h w) = h.
Proof. done. Qed.

Lemma set_heap_id w : set_heap (heap w) w = w.
Proof. by destruct w. Qed.

Lemma insert_deref (h : list (list Val)) l : <[l := deref h l]> h = h.
Proof.
  unfold deref. destruct (h !! l) as [L|] eqn:Hl; simpl.
  - by apply list_insert_id.
  - apply list_insert_ge. by apply lookup_ge_None.
Qed.

Lemma deref_insert_eq (h : list (list Val)) l L :
  l < length h → deref (<[l := L]> h) l = L.
Proof. intros Hl. unfold deref. by rewrite list_lookup_insert_eq. Qed.

Lemma deref_insert_ne (h : list (list Val)) l l' L :
  l ≠ l' → deref (<[l := L]> h) l' = deref h l'.
Proof. intros Hl. unfold deref. by rewrite list_lookup_insert_ne. Qed.

Lemma deref_nonempty_lt (h : list (list Val)) l :
  deref h l ≠ [] → l < length h.
Proof.
  intros Hne. destruct (decide (l < length h)) as [|Hge]; [done|].
  exfalso. apply Hne. unfold deref. by rewrite lookup_ge_None_2 by lia.
Qed.

Lemma deref_lookup (h : list (list Val)) l :
  l < length h → h !! l = Some (deref h l).
Proof.
  intros Hl. unfold deref.
  destruct (lookup_lt_is_Some_2 h l Hl) as [L ->]. done.
Qed.

Lemma deref_app_l (h h' : list (list Val)) l :
  l < length h → deref (h ++ h') l = deref h l.
Proof. intros Hl. unfold deref. by rewrite lookup_app_l. Qed.

Lemma deref_app_length (h : list (list Val)) L :
  deref (h ++ [L]) (length h) = L.
Proof. unfold deref. by rewrite list_lookup_middle. Qed.

Lemma heap_size_app (h h' : list (list Val)) :
  heap_size (h ++ h') = heap_size h + heap_size h'.
Proof. apply sum_list_with_app. Qed.

Lemma heap_size_cons L (h : list (list Val)) :
  heap_size (L :: h) = length L + heap_size h.
Proof. done. Qed.

Lemma heap_size_insert (h : list (list Val)) l L :
  l < length h →
  heap_size (<[l := L]> h) + length (deref h l) = heap_size h + length L.
Proof.
  intros Hl. destruct (lookup_lt_is_Some_2 h l Hl) as [L0 HL0].
  unfold deref. rewrite HL0. simpl.
  rewrite insert_take_drop by done.
  rewrite <-(take_drop_middle h l L0 HL0) at 3.
  rewrite !heap_size_app, !heap_size_cons. lia.
Qed.

Lemma shrink_at_refl l w : shrink_at l w w.
Proof.
  exists (deref (heap w) l). split; [done|].
  by rewrite insert_deref, set_heap_id.
Qed.

Lemma shrink_at_trans l w1 w2 w3 :
  shrink_at l w1 w2 → shrink_at l w2 w3 → shrink_at l w1 w3.
Proof.
  intros (L1 & Hs1 & ->) (L2 & Hs2 & ->). exists L2. simpl in *. split.
  - destruct (decide (l < length (heap w1))) as [Hl|Hl].
    + rewrite deref_insert_eq in Hs2 by done. by etrans.
    + rewrite list_insert_ge in Hs2 by lia. done.
  - unfold set_heap. simpl. by rewrite list_insert_insert_eq.
Qed.

Lemma shrink_at_heap_size l w w' :
  shrink_at l w w' →
  heap_size (heap w') + length (deref (heap w) l) =
  heap_size (heap w) + length (deref (heap w') l).
Proof.
  intros (L' & Hs & ->). simpl.
  destruct (decide (l < length (heap w))) as [Hl|Hl].
  - rewrite deref_insert_eq by done. by apply heap_size_insert.
  - rewrite list_insert_ge by lia. lia.
Qed.

Lemma shrink_at_length l w w' :
  shrink_at l w w' →
  length (deref (heap w') l) ≤ length (deref (heap w) l).
Proof.
  intros (L' & Hs & ->). simpl.
  destruct (decide (l < length (heap w))) as [Hl|Hl].
  - rewrite deref_insert_eq by done. by apply sublist_length.
  - by rewrite list_insert_ge by lia.
Qed.

(** ** [revise] *)

(** The inner loop of [revise] only reads, and needs no budget. *)
Lemma revise_inner_pure i j x ys w :
  ∃ r, revise_inner i j x ys w = (w, r) ∧ r ≠ OutOfFuel.
Proof.
  induction ys as [|y ys IH]; simpl; [by eexists|].
  unfold bind, get_self, getitem. simpl.
  destruct (dget i (constraints (self w))) as [ci|]; simpl; [|by eexists].
  destruct (dget j ci) as [cij|]; simpl; [|by eexists].
  destruct (pair_in (x, y) cij); [by eexists|done].
Qed.

Lemma wp_revise_inner i j x ys w (Q : world → res bool → Prop) :
  (∀ r, r ≠ OutOfFuel → Q w r) → wp (revise_inner i j x ys) w Q.
Proof.
  intros HQ. unfold wp.
  destruct (revise_inner_pure i j x ys w) as (r & -> & Hr). by apply HQ.
Qed.

(** What the loop of [revise] does to the world: only the list object it
    iterates changes, by losing elements; the loop ends within its budget;
    it answers [False] only if it removed nothing, and [True] only if the
    flag was set already or the list is now shorter. *)
Lemma revise_loop_spec n assignment i j li idx revised w :
  1 ≤ n → length (deref (heap w) li) + 1 ≤ n + idx →
  wp (revise_loop n assignment i j li idx revised) w (λ w' r,
    shrink_at li w w' ∧ r ≠ OutOfFuel ∧
    (r = Ok false → revised = false ∧ w' = w) ∧
    (r = Ok true →
       revised = true ∨
       length (deref (heap w') li) < length (deref (heap w) li))).
Proof.
  revert idx revised w.
  induction n as [|n IH]; intros idx revised w Hn Hfuel; [lia|].
  cbn [revise_loop]. wp_read.
  destruct (deref (heap w) li !! idx) as [x|] eqn:Hx.
  - assert (Hidx : idx < length (deref (heap w) li))
      by (apply lookup_lt_is_Some; eauto).
    assert (Hli : li < length (heap w)).
    { apply deref_nonempty_lt. intros Hnil. rewrite Hnil in Hidx.
      simpl in Hidx. lia. }
    wp_getitem.
    destruct (dget j assignment) as [lj|];
      [|by split; [apply shrink_at_refl|]].
    wp_read.
    apply wp_bind, wp_revise_inner. intros [[|]|e|] Hr; try done.
    + eapply wp_mono; [apply IH; lia|]. done.
    + apply wp_bind, wp_remove.
      destruct (list_remove_first x (deref (heap w) li)) as [L'|] eqn:HL';
        [|by split; [apply shrink_at_refl|]].
      apply list_remove_first_Some in HL' as [Hlen Hsub].
      set (w1 := set_heap (<[li:=L']> (heap w)) w).
      assert (Hd1 : deref (heap w1) li = L') by by apply deref_insert_eq.
      assert (Hs1 : shrink_at li w w1) by by exists L'.
      eapply wp_mono; [apply IH; [lia|rewrite Hd1; lia]|].
      intros w' r (Hs & Hr' & Hfalse & Htrue). split_and!.
      * by eapply shrink_at_trans.
      * done.
      * intros ->. by destruct (Hfalse eq_refl).
      * intros _. right. apply shrink_at_length in Hs.
        rewrite Hd1 in Hs. lia.
    + by split; [apply shrink_at_refl|].
  - apply wp_ret. split; [apply shrink_at_refl|].
    split; [done|]. split; [by intros [= ->]|]. intros [= ->]. by left.
Qed.

Lemma shrinks_refl locs w : shrinks locs w w.
Proof. by split. Qed.

Lemma shrinks_trans locs w1 w2 w3 :
  shrinks locs w1 w2 → shrinks locs w2 w3 → shrinks locs w1 w3.
Proof.
  intros [? ? ? ? Hsub1 Hfr1] [? ? ? ? Hsub2 Hfr2]. split; try congruence.
  - intros l. etrans; [apply Hsub2|apply Hsub1].
  - intros l Hl. by rewrite Hfr2, Hfr1.
Qed.

Lemma shrink_at_shrinks l locs w w' :
  l ∈ locs → shrink_at l w w' → shrinks locs w w'.
Proof.
  intros Hl (L' & Hsub & ->). split; simpl; try done.
  - by rewrite length_insert.
  - intros l'. destruct (decide (l = l')) as [<-|Hne].
    + destruct (decide (l < length (heap w))).
      * by rewrite deref_insert_eq.
      * by rewrite list_insert_ge by lia.
    + by rewrite deref_insert_ne.
  - intros l' Hl'. apply deref_insert_ne. by intros ->.
Qed.

(** [revise] ends within its budget; it only removes values from lists of
    the assignment, none when it answers [False] and at least one when it
    answers [True]. *)
Lemma revise_spec assignment i j w :
  wp (revise assignment i j) w (λ w' r,
    shrinks assignment.*2 w w' ∧ r ≠ OutOfFuel ∧
    (r = Ok false → w' = w) ∧
    (r = Ok true → heap_size (heap w') < heap_size (heap w))).
Proof.
  unfold revise. wp_getitem.
  destruct (dget i assignment) as [li|] eqn:Hli;
    [|by split; [apply shrinks_refl|]].
  apply dget_Some_elem_of in Hli.
  assert (li ∈ assignment.*2) by (apply list_elem_of_fmap; by exists (i, li)).
  wp_read.
  eapply wp_mono; [apply revise_loop_spec; lia|].
  intros w' r (Hs & Hr & Hfalse & Htrue). split_and!.
  - by eapply shrink_at_shrinks.
  - done.
  - intros ->. by destruct (Hfalse eq_refl).
  - intros ->. destruct (Htrue eq_refl) as [|Hlt]; [done|].
    apply shrink_at_heap_size in Hs. lia.
Qed.

(** ** [inference] *)

Lemma max_degree_ge c i ci :
  dget i (constraints c) = Some ci → length ci ≤ max_degree c.
Proof.
  unfold max_degree.
  induction (constraints c) as [|[k v] d IH]; cbn [dget]; [done|].
  destruct (decide (i = k)) as [->|Hne].
  - intros [= ->]. cbn. lia.
  - intros Hd%IH. cbn. lia.
Qed.

Lemma wp_get_all_neighboring_arcs var w
    (Q : world → res (list (Var * Var)) → Prop) :
  match dget var (constraints (self w)) with
  | Some cvar => Q w (Ok (map (λ i, (i, var)) (dkeys cvar)))
  | None => Q w (Raise KeyError)
  end →
  wp (get_all_neighboring_arcs var) w Q.
Proof.
  unfold wp, get_all_neighboring_arcs, bind, get_self, getitem. simpl.
  by destruct (dget var (constraints (self w))).
Qed.

(** The worklist loop ends within a budget of
    [|queue| + (max_degree + 1) * heap_size] steps, and only removes
    elements from the lists of the assignment. *)
Lemma inference_loop_spec n assignment queue w :
  length queue + S (max_degree (self w)) * heap_size (heap w) < n →
  wp (inference_loop n assignment queue) w (λ w' r,
    shrinks assignment.*2 w w' ∧ r ≠ OutOfFuel).
Proof.
  revert queue w. induction n as [|n IH]; intros queue w Hn; [lia|].
  destruct queue as [|[i j] queue']; cbn [inference_loop].
  { by split; [apply shrinks_refl|]. }
  cbn [length] in Hn. apply wp_bind.
  eapply wp_mono; [apply revise_spec|].
  intros w1 r (Hs1 & Hr & Hfalse & Htrue).
  destruct r as [[|]|e|]; [| |done|done].
  - specialize (Htrue eq_refl). wp_getitem.
    destruct (dget i assignment) as [li|]; [|done].
    wp_read.
    destruct (decide (length (deref (heap w1) li) = 0)); [done|].
    apply wp_bind, wp_get_all_neighboring_arcs.
    destruct (dget i (constraints (self w1))) as [ci|] eqn:Hci; [|done].
    apply max_degree_ge in Hci.
    eapply wp_mono; [apply IH|].
    + rewrite length_app.
      pose proof (length_filter (λ k : Var * Var, k.1 ≠ j)
                    (map (λ i0, (i0, i)) (dkeys ci))) as Hf.
      rewrite length_map in Hf. unfold dkeys in Hf.
      rewrite length_fmap in Hf.
      rewrite (shrinks_self _ _ _ Hs1) in *.
      assert (S (max_degree (self w)) * S (heap_size (heap w1))
              ≤ S (max_degree (self w)) * heap_size (heap w))
        by (apply Nat.mul_le_mono_l; lia).
      rewrite Nat.mul_succ_r in *. unfold dkeys. lia.
    + intros w' r [Hs Hr']. split; [|done]. by eapply shrinks_trans.
  - rewrite (Hfalse eq_refl). apply IH. lia.
Qed.

Lemma inference_spec assignment queue w :
  wp (inference assignment queue) w (λ w' r,
    shrinks assignment.*2 w w' ∧ r ≠ OutOfFuel).
Proof.
  unfold inference. apply (inference_loop_spec (inference_fuel w queue)).
  unfold inference_fuel. lia.
Qed.

Lemma bind_run_ext {A B} (m : M A) (k1 k2 : A → M B) w w' r :
  bind m k1 w = (w', r) →
  (∀ a w1, k1 a w1 = (w', r) → k2 a w1 = (w', r)) →
  bind m k2 w = (w', r).
Proof. unfold bind. destruct (m w) as [w1 [a|e|]]; eauto. Qed.

(** A larger budget does not change what the worklist loop does. *)
Lemma inference_loop_budget n m assignment queue w w' r :
  inference_loop n assignment queue w = (w', r) → r ≠ OutOfFuel → n ≤ m →
  inference_loop m assignment queue w = (w', r).
Proof.
  revert m queue w. induction n as [|n IH]; intros m queue w Hrun Hr Hm.
  { injection Hrun as _ <-. done. }
  destruct m as [|m]; [lia|]. cbn [inference_loop] in *.
  destruct queue as [|[i j] queue']; [done|].
  eapply bind_run_ext; [exact Hrun|]. cbv beta.
  intros [|] w1 Hrun1; [|apply IH; [done|done|lia]].
  eapply bind_run_ext; [exact Hrun1|]. cbv beta. intros li w2 Hrun2.
  eapply bind_run_ext; [exact Hrun2|]. cbv beta. intros L w3 Hrun3.
  destruct (decide (length L = 0)); [done|].
  eapply bind_run_ext; [exact Hrun3|]. cbv beta. intros arcs w4 Hrun4.
  apply IH; [done|done|lia].
Qed.

(** ** Arc consistency *)

(** On an arc-consistent arc [revise] finds a partner for every value, removes
    nothing and answers [False]. *)
Lemma revise_inner_supported i j x ys cij w :
  constraint_of (self w) i j = Some cij →
  Exists (λ y, (x, y) ∈ cij) ys →
  revise_inner i j x ys w = (w, Ok true).
Proof.
  unfold constraint_of. intros Hc Hex.
  induction Hex as [y ys Hy|y ys Hex IH]; cbn [revise_inner];
    unfold bind, get_self, getitem; simpl;
    destruct (dget i (constraints (self w))) as [ci|]; try done; simpl;
    rewrite Hc; simpl; unfold pair_in.
  - by rewrite bool_decide_eq_true_2.
  - destruct (bool_decide ((x, y) ∈ cij)); [done|]. apply IH.
Qed.

Lemma revise_loop_consistent n assignment i j li lj cij idx w :
  dget j assignment = Some lj →
  constraint_of (self w) i j = Some cij →
  Forall (λ x, Exists (λ y, (x, y) ∈ cij) (deref (heap w) lj))
         (deref (heap w) li) →
  1 ≤ n → length (deref (heap w) li) + 1 ≤ n + idx →
  revise_loop n assignment i j li idx false w = (w, Ok false).
Proof.
  intros Hlj Hc Hall. revert idx.
  induction n as [|n IH]; intros idx Hn Hfuel; [lia|].
  cbn [revise_loop]. rewrite bind_read.
  destruct (deref (heap w) li !! idx) as [x|] eqn:Hx; [|done].
  assert (idx < length (deref (heap w) li))
    by (apply lookup_lt_is_Some; eauto).
  rewrite (bind_getitem_Some _ _ _ _ _ Hlj), bind_read.
  rewrite (bind_Ok _ _ _ _ _ (revise_inner_supported i j x _ cij w Hc
             (proj1 (Forall_lookup _ _) Hall idx x Hx))).
  apply IH; lia.
Qed.

Lemma revise_consistent assignment arc w :
  arc_consistent w assignment arc →
  revise assignment arc.1 arc.2 w = (w, Ok false).
Proof.
  unfold arc_consistent, revise.
  destruct (dget arc.1 assignment) as [li|] eqn:Hli; [|done].
  destruct (dget arc.2 assignment) as [lj|] eqn:Hlj; [|done].
  destruct (constraint_of (self w) arc.1 arc.2) as [cij|] eqn:Hc; [|done].
  intros Hall. rewrite (bind_getitem_Some _ _ _ _ _ Hli), bind_read.
  by eapply revise_loop_consistent; [..|lia|lia].
Qed.

Lemma inference_loop_consistent n assignment queue w :
  Forall (arc_consistent w assignment) queue →
  length queue < n →
  inference_loop n assignment queue w = (w, Ok true).
Proof.
  revert queue. induction n as [|n IH]; intros queue Hall Hn; [lia|].
  destruct Hall as [|[i j] queue' Harc Hall]; [done|].
  cbn [inference_loop].
  rewrite (bind_Ok _ _ _ _ _ (revise_consistent assignment (i, j) w Harc)).
  apply IH; [done|]. simpl in Hn. lia.
Qed.

(** ** The value [revise] steps over *)

(** Once the loop of [revise] is past the head of the list, the head stays:
    the values it removes are further on. *)
Lemma revise_loop_keeps_head n assignment i j li idx revised y tl w :
  1 ≤ idx → deref (heap w) li = y :: tl → y ∉ tl →
  ∃ tl', deref (heap (revise_loop n assignment i j li idx revised w).1) li
         = y :: tl' ∧ tl' `sublist_of` tl.
Proof.
  revert idx revised tl w. induction n as [|n IH];
    intros idx revised tl w Hidx HL Hy; [by exists tl; split; [exact HL|]|].
  cbn [revise_loop]. rewrite bind_read, HL.
  destruct ((y :: tl) !! idx) as [z|] eqn:Hz; [|by exists tl; split; [exact HL|]].
  destruct idx as [|idx]; [lia|]. cbn in Hz.
  assert (Hzy : z ≠ y).
  { intros ->. apply Hy. by eapply list_elem_of_lookup_2. }
  unfold bind at 1, getitem at 1.
  destruct (dget j assignment) as [lj|]; [|by exists tl; split; [exact HL|]].
  cbv beta iota. unfold ret at 1. rewrite bind_read. unfold bind at 1.
  destruct (revise_inner_pure i j z (deref (heap w) lj) w) as (r & -> & _).
  destruct r as [[|]|e|]; [by apply IH; [lia|..]| |by exists tl; split; [exact HL|]..].
  unfold bind at 1, remove at 1. rewrite bind_read, HL. cbn [list_remove_first].
  rewrite decide_False by done.
  destruct (list_remove_first z tl) as [tl1|] eqn:Htl;
    [|by exists tl; split; [exact HL|]].
  apply list_remove_first_Some in Htl as [_ Hsub].
  unfold write at 1. cbv beta iota.
  set (w1 := set_heap (<[li:=y :: tl1]> (heap w)) w).
  assert (HL1 : deref (heap w1) li = y :: tl1).
  { apply deref_insert_eq, deref_nonempty_lt. by rewrite HL. }
  destruct (IH (S (S idx)) true tl1 w1) as (tl' & Hres & Hsub');
    [lia|done|..].
  { intros Hin. apply Hy. by eapply elem_of_sublist. }
  exists tl'. split; [done|]. by etrans.
Qed.

(** The slip of [revise]: when the first value of the list of [i] has no
    partner it is removed, and the value that comes next stays in the list
    whether it has a partner or not, because the loop never looks at it. *)
Lemma revise_skips_successor assignment i j li lj x y rest w :
  dget i assignment = Some li → dget j assignment = Some lj →
  deref (heap w) li = x :: y :: rest → y ∉ rest →
  revise_inner i j x (deref (heap w) lj) w = (w, Ok false) →
  y ∈ deref (heap (revise assignment i j w).1) li.
Proof.
  intros Hli Hlj HL Hy Hx. unfold revise.
  rewrite (bind_getitem_Some _ _ _ _ _ Hli), bind_read, HL.
  change (S (length (x :: y :: rest))) with (S (S (S (length rest)))).
  generalize (S (S (length rest))) as n. intros n.
  cbn [revise_loop]. rewrite bind_read, HL.
  change ((x :: y :: rest) !! 0) with (Some x). cbv iota.
  rewrite (bind_getitem_Some _ _ _ _ _ Hlj), bind_read.
  rewrite (bind_Ok _ _ _ _ _ Hx).
  unfold bind at 1, remove at 1. rewrite bind_read, HL.
  cbn [list_remove_first]. rewrite decide_True by done.
  unfold write at 1. cbv beta iota.
  set (w1 := set_heap (<[li:=y :: rest]> (heap w)) w).
  assert (HL1 : deref (heap w1) li = y :: rest).
  { apply deref_insert_eq, deref_nonempty_lt. by rewrite HL. }
  destruct (revise_loop_keeps_head n assignment i j li 1
              true y rest w1) as (tl' & -> & _); [lia|done|done|].
  left.
Qed.

(** ** What the search leaves alone *)

Lemma frame_refl N w : frame N w w.
Proof. by split_and!. Qed.

Lemma frame_trans N w1 w2 w3 :
  frame N w1 w2 → frame N w2 w3 → frame N w1 w3.
Proof.
  intros (Hs1 & Hl1 & Hd1) (Hs2 & Hl2 & Hd2). split_and!.
  - congruence.
  - lia.
  - intros l Hl. by rewrite Hd2, Hd1.
Qed.

Lemma frame_counters N b f w : frame N w (set_counters b f w).
Proof. by split_and!. Qed.

Lemma frame_extend N ext w :
  N ≤ length (heap w) → frame N w (set_heap (heap w ++ ext) w).
Proof.
  intros HN. split_and!; simpl; [done|rewrite length_app; lia|].
  intros l Hl. apply deref_app_l. lia.
Qed.

Lemma frame_insert N l L w :
  N ≤ l → frame N w (set_heap (<[l := L]> (heap w)) w).
Proof.
  intros HN. split_and!; simpl; [done|by rewrite length_insert|].
  intros l' Hl'. apply deref_insert_ne. lia.
Qed.

Lemma shrinks_frame_below N locs w w' :
  Forall (λ l, N ≤ l) locs → shrinks locs w w' → frame N w w'.
Proof.
  intros Hlocs [Hself _ _ Hlen _ Hfr]. split_and!; [done|lia|].
  intros l Hl. apply Hfr. intros Hin.
  rewrite Forall_forall in Hlocs. apply Hlocs in Hin. lia.
Qed.

Lemma wp_seq {A B} (m : M A) (k : A → M B) w
    (R : world → res A → Prop) (Q : world → res B → Prop) :
  wp m w R →
  (∀ w' a, R w' (Ok a) → wp (k a) w' Q) →
  (∀ w' e, R w' (Raise e) → Q w' (Raise e)) →
  (∀ w', R w' OutOfFuel → Q w' OutOfFuel) →
  wp (bind m k) w Q.
Proof.
  intros Hm Hk He Ho. apply wp_bind. eapply wp_mono; [apply Hm|].
  intros w' [a|e|]; auto.
Qed.

(** The copy of a dictionary lives in list objects of its own, appended to
    the store. *)
Lemma deepcopy_loop_fresh memo d w N :
  N ≤ length (heap w) → Forall (λ p, N ≤ p.2) memo →
  ∃ d' ext, deepcopy_loop memo d w = (set_heap (heap w ++ ext) w, Ok d') ∧
            dkeys d' = dkeys d ∧ Forall (λ l', N ≤ l') d'.*2.
Proof.
  revert memo w. induction d as [|[k l] d IH]; intros memo w HN Hmemo.
  { exists [], []. by rewrite app_nil_r, set_heap_id. }
  cbn [deepcopy_loop]. destruct (dget l memo) as [l'|] eqn:Hl.
  - destruct (IH memo w HN Hmemo) as (d' & ext & Heq & Hkeys & Hfresh).
    exists ((k, l') :: d'), ext. split_and!.
    + by rewrite (bind_Ok _ _ _ _ _ Heq).
    + unfold dkeys in *. rewrite !fmap_cons. by f_equal.
    + rewrite fmap_cons. constructor; [|done].
      apply dget_Some_elem_of in Hl. rewrite Forall_forall in Hmemo.
      by apply (Hmemo _ Hl).
  - rewrite bind_read. unfold bind at 1, alloc at 1. cbv beta iota.
    set (w1 := set_heap (heap w ++ [deref (heap w) l]) w).
    destruct (IH ((l, length (heap w)) :: memo) w1)
      as (d' & ext & Heq & Hkeys & Hfresh).
    + unfold w1. simpl. rewrite length_app. lia.
    + by constructor.
    + exists ((k, length (heap w)) :: d'), ([deref (heap w) l] ++ ext).
      split_and!.
      * rewrite (bind_Ok _ _ _ _ _ Heq). unfold ret, w1, set_heap. simpl.
        by rewrite <-app_assoc.
      * unfold dkeys in *. rewrite !fmap_cons. by f_equal.
      * rewrite fmap_cons. by constructor.
Qed.

Lemma deepcopy_fresh d w :
  ∃ d' ext, deepcopy d w = (set_heap (heap w ++ ext) w, Ok d') ∧
            dkeys d' = dkeys d ∧
            Forall (λ l', length (heap w) ≤ l') d'.*2.
Proof. by apply deepcopy_loop_fresh. Qed.

(** The read-only helpers. *)
Lemma get_all_arcs_pure w : ∃ arcs, get_all_arcs w = (w, Ok arcs).
Proof. by eexists. Qed.

Lemma all_decided_pure items w : ∃ b, all_decided items w = (w, Ok b).
Proof.
  induction items as [|[v l] items IH]; cbn [all_decided]; [by eexists|].
  rewrite bind_read. destruct (decide _); [by eexists|done].
Qed.

Lemma select_unassigned_variable_pure items w :
  ∃ o, select_unassigned_variable items w = (w, Ok o).
Proof.
  induction items as [|[v l] items IH]; cbn [select_unassigned_variable];
    [by eexists|].
  rewrite bind_read. destruct (decide _); [by eexists|done].
Qed.

Lemma consistent_loop_pure assignment variable value others w :
  ∃ r, consistent_loop assignment variable value others w = (w, r) ∧
       r ≠ OutOfFuel.
Proof.
  induction others as [|o others IH]; cbn [consistent_loop]; [by eexists|].
  destruct (decide (o ≠ variable)); [|done].
  rewrite bind_get_self. unfold bind at 1, getitem at 1.
  destruct (dget variable (constraints (self w))) as [cv|]; [|by eexists].
  cbv beta iota. unfold ret at 1.
  destruct (dget o cv) as [pairs|]; [|done].
  unfold bind at 1, getitem at 1.
  destruct (dget o assignment) as [lo|]; [|by eexists].
  cbv beta iota. unfold ret at 1. rewrite bind_read.
  destruct (existsb _ _); [done|by eexists].
Qed.

Lemma dset_locs (d : dict Var loc) k l (P : loc → Prop) :
  P l → Forall P d.*2 → Forall P (dset k l d).*2.
Proof.
  intros Hl. induction d as [|[k' l'] d IH]; cbn [dset].
  - intros _. rewrite fmap_cons. by constructor.
  - rewrite fmap_cons. intros [Hl' Hd]%Forall_cons.
    destruct (decide (k = k')); rewrite fmap_cons; constructor; auto.
Qed.

Lemma dget_locs (d : dict Var loc) k l (P : loc → Prop) :
  dget k d = Some l → Forall P d.*2 → P l.
Proof.
  intros Hk%dget_Some_elem_of Hd. rewrite Forall_forall in Hd.
  apply Hd, list_elem_of_fmap. by exists (k, l).
Qed.

Lemma wp_remove_frame N l x w :
  N ≤ l → wp (remove l x) w (λ w' _, frame N w w').
Proof.
  intros Hl. apply wp_remove.
  destruct (list_remove_first x (deref (heap w) l));
    [by apply frame_insert|apply frame_refl].
Qed.

Lemma wp_inference_frame N assignment queue w :
  Forall (λ l, N ≤ l) assignment.*2 →
  wp (inference assignment queue) w (λ w' _, frame N w w').
Proof.
  intros Hlocs. eapply wp_mono; [apply inference_spec|].
  intros w' r [Hs _]. by eapply shrinks_frame_below.
Qed.

(** One candidate of the loop of [backtrack]: the world changes above [N]
    only, and the dictionary the frame goes on with holds locations above
    [N] only. *)
Lemma try_value_frame
    (rec : dict Var loc → M (answer (dict Var loc))) N
    variable value assignment w :
  (∀ assignment w,
     N ≤ length (heap w) → Forall (λ l, N ≤ l) assignment.*2 →
     wp (rec assignment) w (λ w' _, frame N w w')) →
  N ≤ length (heap w) → Forall (λ l, N ≤ l) assignment.*2 →
  wp (try_value rec variable value assignment) w
     (λ w' r, frame N w w' ∧
              ∀ found assignment', r = Ok (found, assignment') →
                Forall (λ l, N ≤ l) assignment'.*2).
Proof.
  intros Hrec HN Hlocs. unfold try_value. apply wp_bind_alloc.
  set (w1 := set_heap (heap w ++ [[value]]) w).
  set (assignment1 := dset variable (length (heap w)) assignment).
  assert (Hf1 : frame N w w1) by by apply frame_extend.
  assert (Hlocs1 : Forall (λ l, N ≤ l) assignment1.*2)
    by by apply dset_locs.
  destruct (deepcopy_fresh assignment1 w1)
    as (copy & ext & Hcopy & _ & Hfresh).
  cbv zeta. apply (wp_bind_Ok _ _ _ _ _ _ Hcopy).
  set (w2 := set_heap (heap w1 ++ ext) w1) in *.
  assert (Hf2 : frame N w w2).
  { eapply frame_trans; [apply Hf1|]. apply frame_extend.
    destruct Hf1 as (_ & ? & _). lia. }
  assert (Hlocs2 : Forall (λ l, N ≤ l) copy.*2).
  { eapply Forall_impl; [apply Hfresh|]. intros l Hl. cbv beta in Hl.
    destruct Hf1 as (_ & ? & _). lia. }
  destruct (get_all_arcs_pure w2) as [arcs Harcs].
  apply (wp_bind_Ok _ _ _ _ _ _ Harcs).
  eapply wp_seq; [by apply (wp_inference_frame N)|..]; cbv beta.
  - intros w3 inferences Hf3. destruct inferences.
    + eapply wp_seq; [apply Hrec|..]; cbv beta.
      * destruct Hf2 as (_ & ? & _), Hf3 as (_ & ? & _). lia.
      * done.
      * intros w4 result Hf4. apply wp_ret. split.
        -- eauto using frame_trans.
        -- by intros ?? [= _ <-].
      * intros w4 e Hf4. split; [eauto using frame_trans|done].
      * intros w4 Hf4. split; [eauto using frame_trans|done].
    + apply wp_ret. split; [eauto using frame_trans|by intros ?? [= _ <-]].
  - intros w3 e Hf3. split; [eauto using frame_trans|done].
  - intros w3 Hf3. split; [eauto using frame_trans|done].
Qed.

(** The loop of [backtrack], and [backtrack] itself, change the world above
    [N] only when the assignment they are given lives above [N]. *)
Lemma backtrack_loop_frame
    (rec : dict Var loc → M (answer (dict Var loc))) N :
  (∀ assignment w,
     N ≤ length (heap w) → Forall (λ l, N ≤ l) assignment.*2 →
     wp (rec assignment) w (λ w' _, frame N w w')) →
  ∀ n variable values idx assignment w,
    N ≤ length (heap w) → Forall (λ l, N ≤ l) assignment.*2 →
    wp (backtrack_loop rec n variable values idx assignment) w
       (λ w' _, frame N w w').
Proof.
  intros Hrec n. induction n as [|n IH];
    intros variable values idx assignment w HN Hlocs; [apply frame_refl|].
  cbn [backtrack_loop]. wp_read.
  destruct (deref (heap w) values !! idx) as [value|];
    [|apply frame_counters].
  destruct (consistent_loop_pure assignment variable value
              (dkeys assignment) w) as (r & Hr & Hfuel).
  destruct r as [consistent|e|]; [|unfold wp, bind; rewrite Hr; apply frame_refl|done].
  apply (wp_bind_Ok _ _ _ _ _ _ Hr).
  eapply wp_seq with (R := λ w' r, frame N w w' ∧
      ∀ found assignment', r = Ok (found, assignment') →
        Forall (λ l, N ≤ l) assignment'.*2).
  { destruct consistent; [by apply try_value_frame|].
    apply wp_ret. split; [apply frame_refl|by intros ?? [= _ <-]]. }
  all: cbv beta.
  - intros w1 [[result|] assignment'] [Hf1 Hlocs1].
    + by apply wp_ret.
    + specialize (Hlocs1 _ _ eq_refl). wp_getitem.
      destruct (dget variable assignment') as [l|] eqn:Hl; [|done].
      eapply wp_seq; [apply (wp_remove_frame N);
                      by eapply (dget_locs assignment')|..]; cbv beta.
      * intros w2 u Hf2. eapply wp_mono.
        -- apply IH; [|done].
           destruct Hf1 as (_ & ? & _), Hf2 as (_ & ? & _). lia.
        -- intros w3 r Hf3. eauto using frame_trans.
      * intros w2 e Hf2. eauto using frame_trans.
      * intros w2 Hf2. eauto using frame_trans.
  - by intros w1 e [Hf1 _].
  - by intros w1 [Hf1 _].
Qed.

Lemma backtrack_frame n N assignment w :
  N ≤ length (heap w) → Forall (λ l, N ≤ l) assignment.*2 →
  wp (backtrack n assignment) w (λ w' _, frame N w w').
Proof.
  revert assignment w. induction n as [|n IH]; intros assignment w HN Hlocs;
    [apply frame_refl|].
  cbn [backtrack].
  apply (wp_bind_Ok _ _ _ (set_counters (count_backtrack w + 1)
                             (count_failures w) w) tt _ eq_refl).
  set (w1 := set_counters _ _ w).
  assert (Hf1 : frame N w w1) by apply frame_counters.
  destruct (all_decided_pure assignment w1) as [finished Hfin].
  apply (wp_bind_Ok _ _ _ _ _ _ Hfin).
  destruct finished; [by apply wp_ret|].
  destruct (select_unassigned_variable_pure assignment w1) as [o Hsel].
  apply (wp_bind_Ok _ _ _ _ _ _ Hsel).
  destruct o as [variable|]; [|by apply wp_raise].
  wp_getitem. destruct (dget variable assignment) as [values|]; [|done].
  wp_read.
  eapply wp_seq; [apply (backtrack_loop_frame (backtrack n) N IH)|..];
    cbv beta; [done|done|..].
  - intros w2 r Hf2. apply wp_ret. eauto using frame_trans.
  - intros w2 e Hf2. eauto using frame_trans.
  - intros w2 Hf2. eauto using frame_trans.
Qed.

(** [backtracking_search] changes no list object that existed when it was
    called. *)
Lemma backtracking_search_frame w :
  wp backtracking_search w (λ w' _, frame (length (heap w)) w w').
Proof.
  unfold backtracking_search.
  apply (wp_bind_Ok _ _ _ (set_counters 0 0 w) tt _ eq_refl).
  set (w1 := set_counters 0 0 w). set (N := length (heap w)).
  assert (Hf1 : frame N w w1) by apply frame_counters.
  wp_get_self.
  destruct (deepcopy_fresh (domains (self w1)) w1)
    as (assignment & ext & Hcopy & _ & Hfresh).
  apply (wp_bind_Ok _ _ _ _ _ _ Hcopy).
  set (w2 := set_heap (heap w1 ++ ext) w1) in *.
  assert (Hf2 : frame N w w2).
  { eapply frame_trans; [apply Hf1|]. by apply frame_extend. }
  destruct (get_all_arcs_pure w2) as [arcs Harcs].
  apply (wp_bind_Ok _ _ _ _ _ _ Harcs).
  eapply wp_seq; [by apply (wp_inference_frame N)|..]; cbv beta.
  - intros w3 inferences Hf3.
    assert (HN3 : N ≤ length (heap w3))
      by (destruct Hf2 as (_ & ? & _), Hf3 as (_ & ? & _); lia).
    pose proof (backtrack_frame (S (assignment_size (heap w3) assignment))
                  N assignment w3 HN3 Hfresh) as Hf4.
    unfold wp in *. cbv beta. eauto using frame_trans.
  - intros w3 e Hf3. eauto using frame_trans.
  - intros w3 Hf3. eauto using frame_trans.
Qed.

(** ** Copies *)

Lemma snapshot_keys h (d : dict Var loc) : dkeys (snapshot h d) = dkeys d.
Proof.
  unfold dkeys, snapshot. rewrite <-list_fmap_compose.
  by apply list_fmap_ext.
Qed.

Lemma snapshot_app h ext (d : dict Var loc) :
  in_range h d → snapshot (h ++ ext) d = snapshot h d.
Proof.
  unfold in_range, snapshot. induction d as [|[k l] d IH]; [done|].
  rewrite !fmap_cons. intros [Hl Hd]%Forall_cons. simpl in Hl.
  f_equal; [|by apply IH]. simpl. by rewrite deref_app_l.
Qed.

Lemma assignment_size_snapshot h (d : dict Var loc) :
  assignment_size h d = sum_list_with (λ e, length e.2) (snapshot h d).
Proof.
  unfold assignment_size, snapshot.
  induction d as [|[k l] d IH]; [done|].
  rewrite fmap_cons. simpl. by rewrite IH.
Qed.

Lemma in_range_app h ext (d : dict Var loc) :
  in_range h d → in_range (h ++ ext) d.
Proof.
  unfold in_range. intros Hd. eapply Forall_impl; [apply Hd|].
  intros l Hl. cbv beta in Hl. rewrite length_app. lia.
Qed.

(** The copy holds the same lists as the original, in fresh objects. *)
Lemma deepcopy_loop_content memo d w N :
  N ≤ length (heap w) →
  Forall (λ p, p.1 < N ∧ N ≤ p.2 < length (heap w) ∧
               deref (heap w) p.2 = deref (heap w) p.1) memo →
  Forall (λ l, l < N) d.*2 →
  ∃ d' ext, deepcopy_loop memo d w = (set_heap (heap w ++ ext) w, Ok d') ∧
            snapshot (heap w ++ ext) d' = snapshot (heap w) d ∧
            Forall (λ l', N ≤ l' < length (heap w ++ ext)) d'.*2.
Proof.
  revert memo w. induction d as [|[k l] d IH]; intros memo w HN Hmemo Hd.
  { exists [], []. by rewrite app_nil_r, set_heap_id. }
  rewrite fmap_cons in Hd. apply Forall_cons in Hd as [Hl Hd]. simpl in Hl.
  cbn [deepcopy_loop]. destruct (dget l memo) as [l'|] eqn:Hmem.
  - destruct (IH memo w HN Hmemo Hd) as (d' & ext & Heq & Hsnap & Hfresh).
    apply dget_Some_elem_of in Hmem. rewrite Forall_forall in Hmemo.
    destruct (Hmemo _ Hmem) as (_ & [? ?] & Hcontent). simpl in *.
    exists ((k, l') :: d'), ext. split_and!.
    + by rewrite (bind_Ok _ _ _ _ _ Heq).
    + unfold snapshot in *. rewrite !fmap_cons, Hsnap. simpl.
      by rewrite deref_app_l, Hcontent by lia.
    + rewrite fmap_cons. constructor; [|done]. simpl.
      rewrite length_app. lia.
  - rewrite bind_read.
    set (L := deref (heap w) l).
    set (w1 := set_heap (heap w ++ [L]) w).
    destruct (IH ((l, length (heap w)) :: memo) w1)
      as (d' & ext & Heq & Hsnap & Hfresh).
    + unfold w1. simpl. rewrite length_app. lia.
    + unfold w1. simpl. constructor; simpl.
      * rewrite length_app. simpl. split_and!; try lia.
        by rewrite deref_app_length, deref_app_l by lia.
      * eapply Forall_impl; [apply Hmemo|]. intros [l1 l2]. simpl.
        intros (? & [? ?] & Hcontent). rewrite length_app.
        split_and!; try lia. by rewrite !deref_app_l by lia.
    + done.
    + exists ((k, length (heap w)) :: d'), ([L] ++ ext).
      assert (Hh : heap w1 ++ ext = heap w ++ [L] ++ ext)
        by (unfold w1; simpl; by rewrite <-app_assoc).
      assert (Hlen1 : length (heap w1) = S (length (heap w)))
        by (unfold w1; simpl; rewrite length_app; simpl; lia).
      rewrite <-Hh. split_and!.
      * unfold bind at 1, alloc at 1. cbv beta iota. fold L w1.
        by rewrite (bind_Ok _ _ _ _ _ Heq).
      * change (snapshot (heap w1 ++ ext) ((k, length (heap w)) :: d'))
          with ((k, deref (heap w1 ++ ext) (length (heap w)))
                :: snapshot (heap w1 ++ ext) d').
        change (snapshot (heap w) ((k, l) :: d))
          with ((k, L) :: snapshot (heap w) d).
        rewrite Hsnap, deref_app_l by lia. f_equal.
        -- f_equal. apply deref_app_length.
        -- apply (snapshot_app (heap w) [L] d).
           eapply Forall_impl; [apply Hd|]. intros l0 Hl0.
           cbv beta in Hl0. lia.
      * rewrite fmap_cons. constructor; [|done]. cbn [snd].
        rewrite length_app. lia.
Qed.

Lemma deepcopy_content d w :
  in_range (heap w) d →
  ∃ d' ext, deepcopy d w = (set_heap (heap w ++ ext) w, Ok d') ∧
            snapshot (heap w ++ ext) d' = snapshot (heap w) d ∧
            Forall (λ l', length (heap w) ≤ l' < length (heap w ++ ext))
                   d'.*2.
Proof. intros Hd. by apply deepcopy_loop_content. Qed.

(** ** The search ends within its budget *)

Lemma grows_refl w : grows w w.
Proof. by split. Qed.

Lemma grows_trans w1 w2 w3 : grows w1 w2 → grows w2 w3 → grows w1 w3.
Proof.
  intros [Hl1 Hd1] [Hl2 Hd2]. split; [lia|].
  intros l Hl. etrans; [apply Hd2; lia|by apply Hd1].
Qed.

Lemma grows_extend ext w : grows w (set_heap (heap w ++ ext) w).
Proof.
  split; simpl; [rewrite length_app; lia|].
  intros l Hl. by rewrite deref_app_l.
Qed.

Lemma shrinks_grows locs w w' : shrinks locs w w' → grows w w'.
Proof.
  intros [_ _ _ Hlen Hsub _]. split; [lia|].
  intros l _. by apply sublist_length.
Qed.

Lemma wp_remove_grows l x w :
  wp (remove l x) w (λ w' r, r ≠ OutOfFuel ∧ grows w w').
Proof.
  apply wp_remove.
  destruct (list_remove_first x (deref (heap w) l)) as [L'|] eqn:HL';
    [|by split; [|apply grows_refl]].
  apply list_remove_first_Some in HL' as [Hlen _].
  split; [done|]. split; simpl; [by rewrite length_insert|].
  intros l' Hl'. destruct (decide (l = l')) as [<-|Hne].
  - rewrite deref_insert_eq by done. lia.
  - by rewrite deref_insert_ne.
Qed.

Lemma assignment_size_rest h variable (assignment : dict Var loc) l :
  NoDup (dkeys assignment) → dget variable assignment = Some l →
  assignment_size h assignment =
  rest_size h variable assignment + length (deref h l).
Proof.
  unfold assignment_size, rest_size, dkeys.
  induction assignment as [|[k l'] d IH]; [done|].
  rewrite fmap_cons. intros [Hk Hd]%NoDup_cons. cbn [dget fst snd] in *.
  destruct (decide (variable = k)) as [->|Hne].
  - intros [= ->]. cbn. rewrite decide_True by done.
    assert (sum_list_with (λ e : Var * loc, length (deref h e.2)) d =
            sum_list_with (λ e : Var * loc,
              if decide (e.1 = k) then 0 else length (deref h e.2)) d)
      as ->; [|lia].
    clear IH Hd. induction d as [|[k2 l2] d IH]; [done|].
    rewrite fmap_cons in Hk. apply not_elem_of_cons in Hk as [Hk2 Hk].
    cbn in *. rewrite decide_False by done. by rewrite IH.
  - intros Hget. cbn. rewrite decide_False by done.
    rewrite (IH Hd Hget). lia.
Qed.

Lemma rest_size_dset h variable l (assignment : dict Var loc) :
  rest_size h variable (dset variable l assignment) =
  rest_size h variable assignment.
Proof.
  unfold rest_size. induction assignment as [|[k l'] d IH]; cbn [dset].
  - cbn. by rewrite decide_True.
  - destruct (decide (variable = k)) as [->|Hne]; cbn.
    + by rewrite !decide_True.
    + by rewrite IH.
Qed.

Lemma rest_size_le h h' N variable (assignment : dict Var loc) :
  (∀ l, l < N → length (deref h' l) ≤ length (deref h l)) →
  Forall (λ l, l < N) assignment.*2 →
  rest_size h' variable assignment ≤ rest_size h variable assignment.
Proof.
  intros Hle. unfold rest_size.
  induction assignment as [|[k l] d IH]; [done|].
  rewrite fmap_cons. intros [Hl Hd]%Forall_cons. cbn in *.
  specialize (IH Hd). specialize (Hle l Hl).
  destruct (decide (k = variable)); lia.
Qed.

Lemma assignment_size_le h h' (assignment : dict Var loc) :
  (∀ l, length (deref h' l) ≤ length (deref h l)) →
  assignment_size h' assignment ≤ assignment_size h assignment.
Proof.
  intros Hle. unfold assignment_size.
  induction assignment as [|[k l] d IH]; [done|].
  cbn. specialize (Hle l). lia.
Qed.

Lemma in_range_dset h variable l (assignment : dict Var loc) :
  l < length h → in_range h assignment →
  in_range h (dset variable l assignment).
Proof. intros Hl Hd. by apply dset_locs. Qed.

Lemma in_range_le h h' (assignment : dict Var loc) :
  length h ≤ length h' → in_range h assignment → in_range h' assignment.
Proof.
  unfold in_range. intros Hlen Hd. eapply Forall_impl; [apply Hd|].
  intros l Hl. cbv beta in Hl. lia.
Qed.

(** With distinct keys, the variable [select_unassigned_variable] finds is
    bound to a list longer than one. *)
Lemma select_unassigned_variable_Some items w variable :
  NoDup (dkeys items) →
  select_unassigned_variable items w = (w, Ok (Some variable)) →
  ∃ l, dget variable items = Some l ∧ 1 < length (deref (heap w) l).
Proof.
  unfold dkeys. induction items as [|[k l] items IH]; [done|].
  rewrite fmap_cons. intros [Hk Hd]%NoDup_cons.
  cbn [select_unassigned_variable]. rewrite bind_read.
  destruct (decide (1 < length (deref (heap w) l))) as [Hlen|Hlen].
  - intros [= <-]. exists l. cbn. by rewrite decide_True.
  - intros Hsel. destruct (IH Hd Hsel) as (l' & Hget & Hlen').
    exists l'. split; [|done]. cbn [dget].
    rewrite decide_False; [done|]. intros ->. apply Hk.
    apply (proj1 (dget_is_Some _ _)). eauto.
Qed.

Lemma wp_and {A} (m : M A) w (Q1 Q2 : world → res A → Prop) :
  wp m w Q1 → wp m w Q2 → wp m w (λ w' r, Q1 w' r ∧ Q2 w' r).
Proof. by split. Qed.

Lemma grows_frame N w1 w2 w3 :
  grows w1 w2 → frame N w2 w3 → length (heap w1) ≤ N → grows w1 w3.
Proof.
  intros [Hl1 Hd1] (_ & Hl2 & Hd2) HN. split; [lia|].
  intros l Hl. rewrite Hd2 by lia. by apply Hd1.
Qed.

Lemma rest_size_grows w w' variable (assignment : dict Var loc) :
  grows w w' → in_range (heap w) assignment →
  rest_size (heap w') variable assignment
  ≤ rest_size (heap w) variable assignment.
Proof. intros [_ Hd] Hr. by eapply rest_size_le. Qed.

(** One candidate: the recursive call is made on an assignment smaller than
    the frame's, and what the frame keeps does not grow. *)
Lemma try_value_adequate
    (rec : dict Var loc → M (answer (dict Var loc))) n
    variable value assignment w :
  (∀ a w, NoDup (dkeys a) → in_range (heap w) a →
          assignment_size (heap w) a < n →
          wp (rec a) w (λ _ r, r ≠ OutOfFuel)) →
  (∀ N a w, N ≤ length (heap w) → Forall (λ l, N ≤ l) a.*2 →
            wp (rec a) w (λ w' _, frame N w w')) →
  NoDup (dkeys assignment) → in_range (heap w) assignment →
  variable ∈ dkeys assignment →
  rest_size (heap w) variable assignment + 1 < n →
  wp (try_value rec variable value assignment) w
     (λ w' r, r ≠ OutOfFuel ∧ grows w w' ∧
        ∀ found assignment', r = Ok (found, assignment') →
          dkeys assignment' = dkeys assignment ∧
          in_range (heap w') assignment' ∧
          rest_size (heap w') variable assignment'
          ≤ rest_size (heap w) variable assignment).
Proof.
  intros Hrec_fuel Hrec_frame Hnodup Hrange Hvar Hrest.
  unfold try_value. apply wp_bind_alloc.
  set (l := length (heap w)).
  set (w1 := set_heap (heap w ++ [[value]]) w).
  set (assignment1 := dset variable l assignment).
  destruct (proj2 (dget_is_Some variable assignment) Hvar) as [lv Hlv].
  assert (Hlen1 : length (heap w1) = S l)
    by (unfold w1; rewrite heap_set_heap, length_app; simpl; lia).
  assert (Hg1 : grows w w1) by apply grows_extend.
  assert (Hkeys1 : dkeys assignment1 = dkeys assignment)
    by by eapply dkeys_dset_present.
  assert (Hr1 : in_range (heap w1) assignment1).
  { apply in_range_dset; [lia|]. by apply in_range_app. }
  assert (Hsize1 : assignment_size (heap w1) assignment1
                   ≤ rest_size (heap w) variable assignment + 1).
  { rewrite (assignment_size_rest _ variable assignment1 l);
      [|by rewrite Hkeys1|apply dget_dset_eq].
    unfold assignment1. rewrite rest_size_dset.
    pose proof (rest_size_grows w w1 variable assignment Hg1 Hrange).
    assert (deref (heap w1) l = [value]) as -> by apply deref_app_length.
    cbn [length]. lia. }
  assert (Hpost : ∀ w', grows w w' → length (heap w1) ≤ length (heap w') →
            dkeys assignment1 = dkeys assignment ∧
            in_range (heap w') assignment1 ∧
            rest_size (heap w') variable assignment1
            ≤ rest_size (heap w) variable assignment).
  { intros w' Hg Hlen. split_and!; [done|by eapply in_range_le|].
    unfold assignment1. rewrite rest_size_dset.
    by apply rest_size_grows. }
  destruct (deepcopy_content assignment1 w1 Hr1)
    as (copy & ext & Hcopy & Hsnap & Hfresh).
  cbv zeta. apply (wp_bind_Ok _ _ _ _ _ _ Hcopy).
  set (w2 := set_heap (heap w1 ++ ext) w1) in *.
  change (heap w1 ++ ext) with (heap w2) in Hsnap, Hfresh.
  assert (Hg2 : grows w w2)
    by (eapply grows_trans; [apply Hg1|apply grows_extend]).
  assert (Hlen2 : length (heap w1) ≤ length (heap w2))
    by (unfold w2; rewrite heap_set_heap, length_app; lia).
  assert (Hkeys2 : dkeys copy = dkeys assignment1)
    by by rewrite <-(snapshot_keys (heap w2)), Hsnap, snapshot_keys.
  assert (Hsize2 : assignment_size (heap w2) copy
                   = assignment_size (heap w1) assignment1)
    by by rewrite !assignment_size_snapshot, Hsnap.
  assert (Hr2 : in_range (heap w2) copy).
  { eapply Forall_impl; [apply Hfresh|]. intros l' Hl'.
    cbv beta in Hl'. lia. }
  assert (Hlocs2 : Forall (λ l', length (heap w1) ≤ l') copy.*2).
  { eapply Forall_impl; [apply Hfresh|]. intros l' Hl'.
    cbv beta in Hl'. lia. }
  destruct (get_all_arcs_pure w2) as [arcs Harcs].
  apply (wp_bind_Ok _ _ _ _ _ _ Harcs).
  eapply wp_seq; [apply inference_spec|..]; cbv beta.
  - intros w3 inferences [Hs3 _].
    assert (Hg3 : grows w w3)
      by (eapply grows_trans; [apply Hg2|by eapply shrinks_grows]).
    assert (Hlen3 : length (heap w3) = length (heap w2))
      by by destruct Hs3.
    destruct inferences.
    + eapply wp_seq;
        [apply wp_and;
           [apply Hrec_fuel|apply (Hrec_frame (length (heap w1)))]|..];
        cbv beta.
      * by rewrite Hkeys2, Hkeys1.
      * eapply in_range_le; [|apply Hr2]. lia.
      * pose proof (assignment_size_le (heap w2) (heap w3) copy) as Hle.
        assert (assignment_size (heap w3) copy
                ≤ assignment_size (heap w2) copy); [|lia].
        apply Hle. intros l0. apply sublist_length. by destruct Hs3.
      * lia.
      * done.
      * intros w4 result [_ Hf4]. apply wp_ret.
        assert (Hg4 : grows w w4).
        { eapply grows_frame; [apply Hg3|apply Hf4|].
          destruct Hg1 as [? _]. lia. }
        split; [done|]. split; [done|]. intros ?? [= _ <-].
        apply Hpost; [done|]. destruct Hf4 as (_ & ? & _). lia.
      * intros w4 e [_ Hf4]. split; [done|]. split; [|done].
        eapply grows_frame; [apply Hg3|apply Hf4|].
        destruct Hg1 as [? _]. lia.
      * by intros w4 [? _].
    + apply wp_ret. split; [done|]. split; [done|]. intros ?? [= _ <-].
      apply Hpost; [done|lia].
  - intros w3 e [Hs3 _]. split; [done|]. split; [|done].
    eapply grows_trans; [apply Hg2|by eapply shrinks_grows].
  - by intros w3 [_ ?].
Qed.

(** The loop of [backtrack] ends within the length of the list it iterates,
    and [backtrack] within a budget larger than the size of its
    assignment. *)
Lemma backtrack_loop_adequate
    (rec : dict Var loc → M (answer (dict Var loc))) n :
  (∀ a w, NoDup (dkeys a) → in_range (heap w) a →
          assignment_size (heap w) a < n →
          wp (rec a) w (λ _ r, r ≠ OutOfFuel)) →
  (∀ N a w, N ≤ length (heap w) → Forall (λ l, N ≤ l) a.*2 →
            wp (rec a) w (λ w' _, frame N w w')) →
  ∀ m variable values idx assignment w,
    NoDup (dkeys assignment) → in_range (heap w) assignment →
    variable ∈ dkeys assignment →
    rest_size (heap w) variable assignment + 1 < n →
    1 ≤ m → length (deref (heap w) values) + 1 ≤ m + idx →
    wp (backtrack_loop rec m variable values idx assignment) w
       (λ _ r, r ≠ OutOfFuel).
Proof.
  intros Hrec_fuel Hrec_frame m. induction m as [|m IH];
    intros variable values idx assignment w Hnodup Hrange Hvar Hrest Hm Hfuel;
    [lia|].
  cbn [backtrack_loop]. wp_read.
  destruct (deref (heap w) values !! idx) as [value|] eqn:Hvalue; [|done].
  assert (Hidx : idx < length (deref (heap w) values))
    by (apply lookup_lt_is_Some; eauto).
  assert (Hvalues : values < length (heap w)).
  { apply deref_nonempty_lt. intros Hnil. rewrite Hnil in Hidx.
    simpl in Hidx. lia. }
  destruct (consistent_loop_pure assignment variable value
              (dkeys assignment) w) as (r & Hr & Hr').
  destruct r as [consistent|e|];
    [|by unfold wp, bind; rewrite Hr|done].
  apply (wp_bind_Ok _ _ _ _ _ _ Hr).
  eapply wp_seq with (R := λ w' r, r ≠ OutOfFuel ∧ grows w w' ∧
      ∀ found assignment', r = Ok (found, assignment') →
        dkeys assignment' = dkeys assignment ∧
        in_range (heap w') assignment' ∧
        rest_size (heap w') variable assignment'
        ≤ rest_size (heap w) variable assignment).
  { destruct consistent; [by apply (try_value_adequate rec n)|].
    apply wp_ret. split; [done|]. split; [apply grows_refl|].
    by intros ?? [= _ <-]. }
  all: cbv beta.
  - intros w1 [[result|] assignment'] (_ & Hg1 & Hpost); [by apply wp_ret|].
    destruct (Hpost _ _ eq_refl) as (Hkeys & Hrange1 & Hrest1).
    wp_getitem. destruct (dget variable assignment') as [l|]; [|done].
    eapply wp_seq; [apply wp_remove_grows|..]; cbv beta.
    + intros w2 u [_ Hg2]. apply IH.
      * by rewrite Hkeys.
      * eapply in_range_le; [|apply Hrange1]. by destruct Hg2.
      * by rewrite Hkeys.
      * pose proof (rest_size_grows w1 w2 variable assignment' Hg2 Hrange1).
        lia.
      * lia.
      * destruct (grows_trans _ _ _ Hg1 Hg2) as [_ Hd].
        specialize (Hd values Hvalues). lia.
    + done.
    + by intros w2 [? _].
  - done.
  - by intros w1 (? & _).
Qed.

Lemma backtrack_adequate n assignment w :
  NoDup (dkeys assignment) → in_range (heap w) assignment →
  assignment_size (heap w) assignment < n →
  wp (backtrack n assignment) w (λ _ r, r ≠ OutOfFuel).
Proof.
  revert assignment w. induction n as [|n IH];
    intros assignment w Hnodup Hrange Hsize; [lia|].
  cbn [backtrack].
  apply (wp_bind_Ok _ _ _ (set_counters (count_backtrack w + 1)
                             (count_failures w) w) tt _ eq_refl).
  set (w1 := set_counters _ _ w).
  destruct (all_decided_pure assignment w1) as [finished Hfin].
  apply (wp_bind_Ok _ _ _ _ _ _ Hfin).
  destruct finished; [done|].
  destruct (select_unassigned_variable_pure assignment w1) as [o Hsel].
  apply (wp_bind_Ok _ _ _ _ _ _ Hsel).
  destruct o as [variable|]; [|done].
  destruct (select_unassigned_variable_Some _ _ _ Hnodup Hsel)
    as (l & Hget & Hlen).
  wp_getitem. rewrite Hget. wp_read.
  eapply wp_seq;
    [apply (backtrack_loop_adequate (backtrack n) n IH
              (λ N a w, backtrack_frame n N a w))|..]; cbv beta;
    try done.
  - apply (proj1 (dget_is_Some _ _)). eauto.
  - rewrite (assignment_size_rest _ variable assignment l) in Hsize by done.
    change (heap w1) with (heap w) in *. lia.
  - lia.
  - lia.
Qed.

(** [backtracking_search] never runs out of its budget, on a CSP whose
    dictionary of domains has distinct keys and holds list objects of the
    store, which is what every Python dictionary does. *)
Lemma backtracking_search_adequate w :
  NoDup (dkeys (domains (self w))) →
  in_range (heap w) (domains (self w)) →
  (backtracking_search w).2 ≠ OutOfFuel.
Proof.
  intros Hnodup Hrange.
  change (wp backtracking_search w (λ _ r, r ≠ OutOfFuel)).
  unfold backtracking_search.
  apply (wp_bind_Ok _ _ _ (set_counters 0 0 w) tt _ eq_refl).
  set (w1 := set_counters 0 0 w). wp_get_self.
  destruct (deepcopy_content (domains (self w1)) w1 Hrange)
    as (assignment & ext & Hcopy & Hsnap & Hfresh).
  apply (wp_bind_Ok _ _ _ _ _ _ Hcopy).
  set (w2 := set_heap (heap w1 ++ ext) w1) in *.
  change (heap w1 ++ ext) with (heap w2) in Hsnap, Hfresh.
  destruct (get_all_arcs_pure w2) as [arcs Harcs].
  apply (wp_bind_Ok _ _ _ _ _ _ Harcs).
  eapply wp_seq; [apply inference_spec|..]; cbv beta.
  - intros w3 inferences [Hs3 _]. unfold wp. cbv beta.
    apply (backtrack_adequate _ assignment w3); [| |lia].
    + by rewrite <-(snapshot_keys (heap w2)), Hsnap, snapshot_keys.
    + destruct Hs3 as [_ _ _ Hlen _ _]. unfold in_range. rewrite Hlen.
      eapply Forall_impl; [apply Hfresh|]. intros l' Hl'.
      cbv beta in Hl'. lia.
  - done.
  - by intros w3 [_ ?].
Qed.

(** ** A CSP without constraints *)

Lemma bind_alloc {B} L (k : loc → M B) w :
  bind (alloc L) k w = k (length (heap w)) (set_heap (heap w ++ [L]) w).
Proof. done. Qed.

Lemma dget_snapshot h v (d : dict Var loc) :
  dget v (snapshot h d) = deref h <$> dget v d.
Proof.
  unfold snapshot. induction d as [|[k l] d IH]; [done|].
  rewrite fmap_cons. cbn. by destruct (decide (v = k)).
Qed.

Lemma snapshot_dset h v l (d : dict Var loc) :
  snapshot h (dset v l d) = dset v (deref h l) (snapshot h d).
Proof.
  unfold snapshot. induction d as [|[k l'] d IH]; [done|].
  rewrite fmap_cons. cbn [dset fst snd].
  destruct (decide (v = k)); rewrite !fmap_cons; [done|].
  by rewrite IH.
Qed.

Lemma snapshot_nonempty_in_range h (d : dict Var loc) :
  Forall (λ e, e.2 ≠ []) (snapshot h d) → in_range h d.
Proof.
  unfold snapshot, in_range. rewrite !Forall_fmap. intros Hd.
  eapply Forall_impl; [apply Hd|]. intros [k l]. simpl.
  apply deref_nonempty_lt.
Qed.

Lemma Forall_dset {V} (P : Var * V → Prop) v (u : V) (d : dict Var V) :
  P (v, u) → Forall P d → Forall P (dset v u d).
Proof.
  intros Hx. induction d as [|[k y] d IH]; cbn [dset].
  - by constructor.
  - intros [Hy Hd]%Forall_cons.
    destruct (decide (v = k)); constructor; auto.
Qed.

Lemma size_dset v (L L' : list Val) (s : dict Var (list Val)) :
  dget v s = Some L →
  sum_list_with (λ e, length e.2) (dset v L' s) + length L =
  sum_list_with (λ e, length e.2) s + length L'.
Proof.
  induction s as [|[k y] s IH]; [done|]. cbn [dget dset].
  destruct (decide (v = k)) as [->|Hne].
  - intros [= ->]. cbn. lia.
  - intros Hget. cbn. specialize (IH Hget). lia.
Qed.

Lemma first_values_dset v value rest (s : dict Var (list Val)) :
  dget v s = Some (value :: rest) →
  first_values (dset v [value] s) = first_values s.
Proof.
  unfold first_values. induction s as [|[k y] s IH]; [done|].
  cbn [dget dset]. destruct (decide (v = k)) as [->|Hne].
  - intros [= ->]. by rewrite !fmap_cons.
  - intros Hget. by rewrite !fmap_cons, (IH Hget).
Qed.

Lemma first_values_decided h (d : dict Var loc) :
  Forall (λ l, length (deref h l) = 1) d.*2 →
  first_values (snapshot h d) = snapshot h d.
Proof.
  unfold first_values, snapshot. induction d as [|[k l] d IH]; [done|].
  rewrite !fmap_cons. intros [Hl Hd]%Forall_cons. cbn [fst snd] in *.
  rewrite (IH Hd). do 2 f_equal. apply take_ge. lia.
Qed.

Lemma all_decided_true items w :
  all_decided items w = (w, Ok true) →
  Forall (λ l, length (deref (heap w) l) = 1) items.*2.
Proof.
  induction items as [|[k l] items IH]; [by constructor|].
  cbn [all_decided]. rewrite bind_read, fmap_cons.
  destruct (decide (length (deref (heap w) l) ≠ 1)) as [|Heq]; [done|].
  intros Hrest. constructor; [|by apply IH].
  cbn. by apply dec_stable.
Qed.

Lemma all_decided_false items w :
  all_decided items w = (w, Ok false) →
  Forall (λ e, e.2 ≠ []) (snapshot (heap w) items) →
  ∃ variable,
    select_unassigned_variable items w = (w, Ok (Some variable)).
Proof.
  unfold snapshot. induction items as [|[k l] items IH]; [done|].
  cbn [all_decided select_unassigned_variable].
  rewrite !bind_read, fmap_cons.
  intros Hall [Hl Hne]%Forall_cons. cbn [snd] in Hl.
  destruct (decide (length (deref (heap w) l) ≠ 1)) as [Hne1|Heq].
  - exists k. rewrite decide_True; [done|].
    destruct (deref (heap w) l) as [|? [|? ?]]; simpl in *; [done|done|lia].
  - rewrite decide_False by lia. by apply IH.
Qed.

Lemma get_all_arcs_unconstrained w :
  unconstrained (self w) → get_all_arcs w = (w, Ok []).
Proof.
  unfold unconstrained, get_all_arcs. rewrite bind_get_self. unfold ret.
  intros Hc. do 2 f_equal.
  induction Hc as [|[i ci] cs Hci Hcs IH]; [done|].
  simpl in *. by rewrite Hci, IH.
Qed.

Lemma consistent_loop_unconstrained assignment variable value others w :
  dget variable (constraints (self w)) = Some [] →
  consistent_loop assignment variable value others w = (w, Ok true).
Proof.
  intros Hc. induction others as [|o others IH]; [done|].
  cbn [consistent_loop]. destruct (decide (o ≠ variable)); [|done].
  by rewrite bind_get_self, (bind_getitem_Some _ _ _ _ _ Hc).
Qed.

Lemma inference_empty_queue assignment w :
  inference assignment [] w = (w, Ok true).
Proof. done. Qed.

(** The first candidate of the first undecided variable succeeds when the
    recursive call solves the smaller assignment. *)
Lemma try_value_unconstrained
    (rec : dict Var loc → M (answer (dict Var loc))) n
    variable value rest lv assignment w :
  (∀ a w0,
     unconstrained (self w0) →
     (∀ v, v ∈ dkeys a → dget v (constraints (self w0)) = Some []) →
     NoDup (dkeys a) →
     Forall (λ e, e.2 ≠ []) (snapshot (heap w0) a) →
     assignment_size (heap w0) a < n →
     ∃ w' a', rec a w0 = (w', Ok (Solution a')) ∧ self w' = self w0 ∧
              snapshot (heap w') a' = first_values (snapshot (heap w0) a)) →
  unconstrained (self w) →
  (∀ v, v ∈ dkeys assignment → dget v (constraints (self w)) = Some []) →
  NoDup (dkeys assignment) →
  Forall (λ e, e.2 ≠ []) (snapshot (heap w) assignment) →
  dget variable assignment = Some lv →
  deref (heap w) lv = value :: rest → rest ≠ [] →
  assignment_size (heap w) assignment ≤ n →
  ∃ w' a',
    try_value rec variable value assignment w =
      (w', Ok (Some (Solution a'),
               dset variable (length (heap w)) assignment)) ∧
    self w' = self w ∧
    snapshot (heap w') a' = first_values (snapshot (heap w) assignment).
Proof.
  intros Hrec Hunc Hcov Hnodup Hne Hget HL Hrest Hsize.
  unfold try_value. rewrite bind_alloc.
  set (l := length (heap w)).
  set (w1 := set_heap (heap w ++ [[value]]) w).
  set (assignment1 := dset variable l assignment). cbv zeta.
  assert (Hkeys1 : dkeys assignment1 = dkeys assignment)
    by by eapply dkeys_dset_present.
  assert (Hrange : in_range (heap w) assignment)
    by by apply snapshot_nonempty_in_range.
  assert (Hsnap1 : snapshot (heap w1) assignment1
                   = dset variable [value] (snapshot (heap w) assignment)).
  { unfold assignment1. rewrite snapshot_dset. unfold w1.
    rewrite heap_set_heap, snapshot_app by done.
    by rewrite deref_app_length. }
  assert (Hr1 : in_range (heap w1) assignment1).
  { apply snapshot_nonempty_in_range. rewrite Hsnap1.
    by apply Forall_dset. }
  destruct (deepcopy_content assignment1 w1 Hr1)
    as (copy & ext & Hcopy & Hsnap & _).
  rewrite (bind_Ok _ _ _ _ _ Hcopy).
  set (w2 := set_heap (heap w1 ++ ext) w1) in *.
  change (heap w1 ++ ext) with (heap w2) in Hsnap.
  rewrite (bind_Ok _ _ _ _ _ (get_all_arcs_unconstrained w2 Hunc)).
  rewrite (bind_Ok _ _ _ _ _ (inference_empty_queue copy w2)).
  assert (HgetS : dget variable (snapshot (heap w) assignment)
                  = Some (value :: rest))
    by by rewrite dget_snapshot, Hget, <-HL.
  destruct (Hrec copy w2) as (w3 & a' & Hrun & Hself & Hresult).
  - done.
  - intros v Hv. apply Hcov.
    by rewrite <-Hkeys1, <-(snapshot_keys (heap w1)), <-Hsnap, snapshot_keys.
  - by rewrite <-(snapshot_keys (heap w2)), Hsnap, snapshot_keys, Hkeys1.
  - rewrite Hsnap, Hsnap1. by apply Forall_dset.
  - rewrite assignment_size_snapshot, Hsnap, Hsnap1.
    rewrite assignment_size_snapshot in Hsize.
    pose proof (size_dset variable _ [value] _ HgetS) as Hd.
    destruct rest; [done|]. simpl in Hd. lia.
  - exists w3, a'. rewrite (bind_Ok _ _ _ _ _ Hrun).
    rewrite Hsnap, Hsnap1, (first_values_dset _ _ _ _ HgetS) in Hresult.
    split_and!; [|done|done].
    destruct a' as [|e a']; [|done].
    destruct (snapshot (heap w) assignment); [done|].
    discriminate Hresult.
Qed.

(** Without constraints [backtrack] returns the first value of every list,
    by induction on its budget. *)
Lemma backtrack_unconstrained n assignment w :
  unconstrained (self w) →
  (∀ v, v ∈ dkeys assignment → dget v (constraints (self w)) = Some []) →
  NoDup (dkeys assignment) →
  Forall (λ e, e.2 ≠ []) (snapshot (heap w) assignment) →
  assignment_size (heap w) assignment < n →
  ∃ w' a', backtrack n assignment w = (w', Ok (Solution a')) ∧
           self w' = self w ∧
           snapshot (heap w') a'
           = first_values (snapshot (heap w) assignment).
Proof.
  revert assignment w. induction n as [|n IH];
    intros assignment w Hunc Hcov Hnodup Hne Hsize; [lia|].
  cbn [backtrack].
  rewrite (bind_Ok _ _ w (set_counters (count_backtrack w + 1)
                            (count_failures w) w) tt eq_refl).
  set (w1 := set_counters _ _ w).
  destruct (all_decided_pure assignment w1) as [finished Hfin].
  rewrite (bind_Ok _ _ _ _ _ Hfin). destruct finished.
  - exists w1, assignment. split_and!; [done|done|]. symmetry.
    apply first_values_decided, (all_decided_true _ _ Hfin).
  - destruct (all_decided_false _ _ Hfin Hne) as [variable Hsel].
    rewrite (bind_Ok _ _ _ _ _ Hsel).
    destruct (select_unassigned_variable_Some _ _ _ Hnodup Hsel)
      as (lv & Hget & Hlen).
    rewrite (bind_getitem_Some _ _ _ _ _ Hget), bind_read.
    destruct (deref (heap w1) lv) as [|value rest] eqn:HL;
      [simpl in Hlen; lia|].
    assert (Hrest : rest ≠ []) by (intros ->; simpl in Hlen; lia).
    assert (Hvar : variable ∈ dkeys assignment)
      by (apply (proj1 (dget_is_Some _ _)); eauto).
    destruct (try_value_unconstrained (backtrack n) n variable value rest lv
                assignment w1 IH Hunc Hcov Hnodup Hne Hget HL Hrest)
      as (w' & a' & Htry & Hself & Hresult).
    { change (heap w1) with (heap w). lia. }
    exists w', a'. split_and!; [|done|done].
    assert (Hloop :
      backtrack_loop (backtrack n) (S (length (value :: rest))) variable lv 0
        assignment w1
      = (w', Ok (Solution a', dset variable (length (heap w1)) assignment))).
    { cbn [backtrack_loop]. rewrite bind_read, HL.
      change ((value :: rest) !! 0) with (Some value). cbv iota.
      rewrite (bind_Ok _ _ _ _ _
                 (consistent_loop_unconstrained assignment variable value
                    (dkeys assignment) w1 (Hcov _ Hvar))).
      by rewrite (bind_Ok _ _ _ _ _ Htry). }
    by rewrite (bind_Ok _ _ _ _ _ Hloop).
Qed.

(** ** CSPs built by [add_variable] alone *)

Lemma NoDup_dkeys_dset {V} k (u : V) (d : dict Var V) :
  NoDup (dkeys d) → NoDup (dkeys (dset k u d)).
Proof.
  intros Hd. destruct (dget k d) as [u0|] eqn:Hk.
  - by rewrite (dkeys_dset_present _ _ _ _ Hk).
  - rewrite (dkeys_dset_absent _ _ _ Hk).
    apply NoDup_app. split_and!; [done| |apply NoDup_singleton].
    intros k' Hk' ->%list_elem_of_singleton. by apply dget_None in Hk.
Qed.

Lemma elem_of_dkeys_dset {V} k k' (u : V) (d : dict Var V) :
  k' ∈ dkeys (dset k u d) → k' = k ∨ k' ∈ dkeys d.
Proof.
  destruct (dget k d) as [u0|] eqn:Hk.
  - rewrite (dkeys_dset_present _ _ _ _ Hk). by right.
  - rewrite (dkeys_dset_absent _ _ _ Hk), elem_of_app, list_elem_of_singleton.
    tauto.
Qed.

(** [add_variable] with a domain that is not empty keeps a CSP
    unconstrained, so a builder that only declares variables builds one. *)
Lemma add_variable_unconstrained_csp name domain w :
  domain ≠ [] → unconstrained_csp w →
  unconstrained_csp (add_variable name domain w).1.
Proof.
  intros Hdom (Hunc & Hcov & Hnodup & Hne). unfold unconstrained_csp.
  cbn [add_variable bind alloc get_self put_self fst snd self heap
       set_heap set_self constraints domains].
  rewrite Forall_forall in Hcov. split_and!.
  - by apply Forall_dset.
  - apply Forall_forall.
    intros v [->|Hv]%elem_of_dkeys_dset; [apply dget_dset_eq|].
    destruct (decide (name = v)) as [->|Hnv]; [apply dget_dset_eq|].
    rewrite dget_dset_ne by done. by apply Hcov.
  - by apply NoDup_dkeys_dset.
  - rewrite snapshot_dset, deref_app_length.
    rewrite snapshot_app by by apply snapshot_nonempty_in_range.
    by apply Forall_dset.
Qed.

Lemma build_declare_unconstrained_csp (vars : list (Var * list Val)) :
  Forall (λ e, e.2 ≠ []) vars → unconstrained_csp (build (declare vars)).
Proof.
  unfold build, declare.
  assert (Hempty : unconstrained_csp (@empty_world Var Val)).
  { unfold unconstrained_csp. simpl. split_and!; constructor. }
  revert Hempty. generalize (@empty_world Var Val).
  induction vars as [|[name domain] vars IH]; intros w Hw Hvars; [done|].
  apply Forall_cons in Hvars as [Hdom Hvars]. rewrite fmap_cons. cbn [foldl].
  apply IH; [|done]. by apply add_variable_unconstrained_csp.
Qed.

(** ** The claims that hold for every CSP *)

(** What [get_all_neighboring_arcs var] returns: one arc [(k, var)] for each
    key [k] of [self.constraints[var]], that is for each constraint declared
    from [var] to [k]. *)
Lemma get_all_neighboring_arcs_spec var w cvar :
  dget var (constraints (self w)) = Some cvar →
  get_all_neighboring_arcs var w = (w, Ok ((λ k, (k, var)) <$> dkeys cvar)).
Proof.
  intros Hvar. unfold get_all_neighboring_arcs.
  by rewrite bind_get_self, (bind_getitem_Some _ _ _ _ _ Hvar).
Qed.

(** When every arc of the queue is arc-consistent in the assignment,
    [inference] answers [True] and changes nothing. *)
Lemma inference_fixed_point w assignment queue :
  Forall (arc_consistent w assignment) queue →
  inference assignment queue w = (w, Ok true).
Proof.
  intros Hall. unfold inference. apply inference_loop_consistent; [done|].
  unfold inference_fuel. lia.
Qed.

(** C5, as amended.  A successful run of AC-3 that reached its fixed point
    is idempotent: when the first run of [inference] returns [True] and
    leaves every arc of the queue arc-consistent, a second run on the same
    assignment with the same queue returns [True] too and leaves the world
    exactly as the first run left it. *)
Theorem inference_idempotent_at_fixed_point w assignment queue :
  (inference assignment queue w).2 = Ok true →
  Forall (arc_consistent (inference assignment queue w).1 assignment) queue →
  inference_idempotent_at w assignment queue.
Proof.
  intros Htrue Hfix. unfold inference_idempotent_at. cbv zeta.
  rewrite Htrue. by apply inference_fixed_point.
Qed.

(** C6, as amended.  [add_variable] has no check for an existing name: for a
    name that is already a variable it returns normally, lists the name once
    more in [self.variables], binds the name to a new list holding the new
    domain, and resets its constraints to the empty dictionary; the
    dictionaries keep their keys. *)
Theorem add_variable_overwrites w name domain :
  is_Some (dget name (domains (self w))) →
  is_Some (dget name (constraints (self w))) →
  ∃ w', add_variable name domain w = (w', Ok tt) ∧
        variables (self w') = variables (self w) ++ [name] ∧
        dkeys (domains (self w')) = dkeys (domains (self w)) ∧
        dkeys (constraints (self w')) = dkeys (constraints (self w)) ∧
        dget name (snapshot (heap w') (domains (self w'))) = Some domain ∧
        dget name (constraints (self w')) = Some [].
Proof.
  intros [l Hl] [ci Hci]. eexists. split; [reflexivity|]. simpl.
  split_and!; [done|by eapply dkeys_dset_present
              |by eapply dkeys_dset_present| |apply dget_dset_eq].
  rewrite dget_snapshot, dget_dset_eq. cbn [fmap option_fmap option_map].
  f_equal. apply deref_app_length.
Qed.

(** C8.  [inference] terminates on every world, assignment and queue.  Its
    loop ends within [inference_fuel], that is [|queue| + (d + 1) * s + 1],
    iterations, for [d] the largest number of constraints declared from one
    variable and [s] the number of values in the store: with any budget of
    at least that many iterations it ends in the same world with the same
    outcome, an answer or a Python exception ([KeyError] for an undeclared
    arc).  All it does to the world is to remove values from lists of the
    assignment. *)
Theorem inference_terminates w assignment queue :
  ∃ w' r, r ≠ OutOfFuel ∧ shrinks assignment.*2 w w' ∧
          ∀ n, inference_fuel w queue ≤ n →
               inference_loop n assignment queue w = (w', r).
Proof.
  pose proof (inference_spec assignment queue w) as [Hs Hr].
  exists (inference assignment queue w).1, (inference assignment queue w).2.
  split_and!; [done|done|]. intros n Hn.
  apply (inference_loop_budget (inference_fuel w queue)); [|done|done].
  unfold inference. by destruct (inference_loop _ _ _ _).
Qed.

(** C9.  On a CSP without constraints whose domains are not empty,
    [backtracking_search] returns an assignment that gives every variable the
    list of the first value of its domain.  ([unconstrained_csp] is what a
    builder that only calls [add_variable], with domains that are not empty,
    produces; that there is a variable at all is not needed.) *)
Theorem backtracking_search_unconstrained w :
  unconstrained_csp w →
  ∃ w' assignment,
    backtracking_search w = (w', Ok (Solution assignment)) ∧
    snapshot (heap w') assignment
    = first_values (snapshot (heap w) (domains (self w))).
Proof.
  intros (Hunc & Hcov & Hnodup & Hne). rewrite Forall_forall in Hcov.
  unfold backtracking_search.
  rewrite (bind_Ok _ _ w (set_counters 0 0 w) tt eq_refl).
  set (w1 := set_counters 0 0 w). rewrite bind_get_self.
  assert (Hrange : in_range (heap w1) (domains (self w1)))
    by by apply snapshot_nonempty_in_range.
  destruct (deepcopy_content (domains (self w1)) w1 Hrange)
    as (copy & ext & Hcopy & Hsnap & _).
  rewrite (bind_Ok _ _ _ _ _ Hcopy).
  set (w2 := set_heap (heap w1 ++ ext) w1) in *.
  change (heap w1 ++ ext) with (heap w2) in Hsnap.
  rewrite (bind_Ok _ _ _ _ _ (get_all_arcs_unconstrained w2 Hunc)).
  rewrite (bind_Ok _ _ _ _ _ (inference_empty_queue copy w2)).
  assert (Hkeys : dkeys copy = dkeys (domains (self w)))
    by by rewrite <-(snapshot_keys (heap w2) copy), Hsnap, snapshot_keys.
  destruct (backtrack_unconstrained
              (S (assignment_size (heap w2) copy)) copy w2)
    as (w' & a' & Hrun & _ & Hresult); [done|..|lia|].
  - intros v Hv. apply Hcov. by rewrite <-Hkeys.
  - by rewrite Hkeys.
  - by rewrite Hsnap.
  - exists w', a'. split; [done|]. by rewrite Hresult, Hsnap.
Qed.

(** C10.  [backtracking_search] leaves the CSP instance as it was, whatever
    it returns or raises: [self.variables], the dictionary [self.domains] and
    all of [self.constraints] are the same, and every list object that
    existed before the call, the lists of [self.domains] among them, holds
    what it held; the lists the search prunes are objects the search
    created. *)
Theorem backtracking_search_preserves_csp w :
  self (backtracking_search w).1 = self w ∧
  heap w `prefix_of` heap (backtracking_search w).1.
Proof.
  destruct (backtracking_search_frame w) as (Hself & Hlen & Hd).
  split; [done|].
  exists (drop (length (heap w)) (heap (backtracking_search w).1)).
  rewrite <-(take_drop (length (heap w))) at 1. f_equal.
  apply list_eq. intros i.
  destruct (decide (i < length (heap w))) as [Hi|Hi].
  - rewrite lookup_take_lt by done.
    rewrite !deref_lookup by lia. f_equal. by apply Hd.
  - rewrite lookup_take_ge by lia.
    symmetry. apply lookup_ge_None. lia.
Qed.

(** * Further properties of the code *)

(** ** The construction methods *)

Lemma dset_dset {K V} `{EqDecision K} (k : K) (v v' : V) (d : dict K V) :
  dset k v (dset k v' d) = dset k v d.
Proof.
  induction d as [|[k0 v0] d IH]; cbn [dset].
  - by rewrite decide_True.
  - destruct (decide (k = k0)) as [->|Hne]; cbn [dset].
    + by rewrite decide_True.
    + rewrite decide_False by done. by rewrite IH.
Qed.

Lemma dkeys_dset_mem {K V} `{EqDecision K} (k k' : K) (v : V) (d : dict K V) :
  k' ∈ dkeys (dset k v d) ↔ k' = k ∨ k' ∈ dkeys d.
Proof.
  destruct (dget k d) as [v0|] eqn:Hk.
  - rewrite (dkeys_dset_present _ _ _ _ Hk). split; [by right|].
    intros [->|?]; [|done]. apply (proj1 (dget_is_Some _ _)). eauto.
  - rewrite (dkeys_dset_absent _ _ _ Hk), elem_of_app, list_elem_of_singleton.
    tauto.
Qed.

Lemma elem_of_get_all_possible_pairs {A B} (a : list A) (b : list B) u v :
  (u, v) ∈ get_all_possible_pairs a b ↔ u ∈ a ∧ v ∈ b.
Proof.
  unfold get_all_possible_pairs.
  rewrite list_elem_of_In, in_flat_map. split.
  - intros (u' & Hu' & Hin). apply list_elem_of_In, list_elem_of_fmap in Hin.
    destruct Hin as (v' & [= -> ->] & Hv'). split; [|done].
    by apply list_elem_of_In.
  - intros [Hu Hv]. exists u. split; [by apply list_elem_of_In|].
    apply list_elem_of_In, list_elem_of_fmap. by exists v.
Qed.

(** X1.  [get_all_possible_pairs a b] has [|a| * |b|] pairs, and [(u, v)] is
    one of them exactly when [u] is in [a] and [v] is in [b]. *)
Theorem get_all_possible_pairs_spec {A B} (a : list A) (b : list B) :
  length (get_all_possible_pairs a b) = length a * length b ∧
  ∀ u v, (u, v) ∈ get_all_possible_pairs a b ↔ u ∈ a ∧ v ∈ b.
Proof.
  split; [|apply elem_of_get_all_possible_pairs].
  unfold get_all_possible_pairs. induction a as [|u a IH]; [done|].
  cbn [flat_map]. rewrite length_app, length_map, IH. simpl. lia.
Qed.

Lemma constraint_of_dset c i j i' j' ci (pairs : list (Val * Val)) :
  dget i (constraints c) = Some ci →
  constraint_of (mkCSP (variables c) (domains c)
                       (dset i (dset j pairs ci) (constraints c))) i' j'
  = if decide ((i', j') = (i, j)) then Some pairs else constraint_of c i' j'.
Proof.
  intros Hci. unfold constraint_of. cbn [constraints].
  destruct (decide (i' = i)) as [->|Hi].
  - rewrite dget_dset_eq, Hci. destruct (decide (j' = j)) as [->|Hj].
    + by rewrite dget_dset_eq, decide_True.
    + rewrite dget_dset_ne by done. rewrite decide_False; [done|congruence].
  - rewrite dget_dset_ne by done. rewrite decide_False; [done|congruence].
Qed.

(** What one call of [add_constraint_one_way] does. *)
Lemma add_constraint_one_way_unfold w i j (f : Val → Val → bool) :
  add_constraint_one_way i j f w =
  match dget i (constraints (self w)), constraint_base w i j with
  | Some ci, Some base =>
      (set_self (mkCSP (variables (self w)) (domains (self w))
                   (dset i (dset j (filter (λ p, f p.1 p.2) base) ci)
                         (constraints (self w)))) w, Ok tt)
  | _, _ => (w, Raise KeyError)
  end.
Proof.
  unfold add_constraint_one_way, constraint_base, constraint_of.
  rewrite bind_get_self. unfold bind at 1, getitem at 1.
  destruct (dget i (constraints (self w))) as [ci|] eqn:Hci; [|done].
  cbv beta iota. unfold ret at 1. unfold dmem.
  destruct (dget j ci) as [cij|] eqn:Hcij.
  - unfold bind at 1, ret at 1. cbv beta iota. rewrite bind_get_self.
    rewrite (bind_getitem_Some _ _ _ _ _ Hci).
    rewrite (bind_getitem_Some _ _ _ _ _ Hcij).
    unfold set_constraint. rewrite bind_get_self.
    by rewrite (bind_getitem_Some _ _ _ _ _ Hci).
  - unfold bind at 1. unfold bind at 1, getitem at 1.
    destruct (dget i (domains (self w))) as [li|]; [|done].
    cbv beta iota. unfold ret at 1. rewrite bind_read.
    unfold bind at 1, getitem at 1.
    destruct (dget j (domains (self w))) as [lj|]; [|done].
    cbv beta iota. unfold ret at 1. rewrite bind_read.
    unfold set_constraint at 1. rewrite bind_get_self.
    rewrite (bind_getitem_Some _ _ _ _ _ Hci).
    unfold put_self at 1. cbv beta iota.
    rewrite bind_get_self. cbn [self set_self constraints].
    rewrite (bind_getitem_Some _ _ _ _ _ (dget_dset_eq _ _ _)).
    rewrite (bind_getitem_Some _ _ _ _ _ (dget_dset_eq _ _ _)).
    unfold set_constraint. rewrite bind_get_self. cbn [self set_self constraints].
    rewrite (bind_getitem_Some _ _ _ _ _ (dget_dset_eq _ _ _)).
    unfold put_self, set_self. cbn. by rewrite !dset_dset.
Qed.

Lemma elem_of_dget {K V} `{EqDecision K} (k : K) (v : V) (d : dict K V) :
  NoDup (dkeys d) → (k, v) ∈ d → dget k d = Some v.
Proof.
  unfold dkeys. induction d as [|[k0 v0] d IH]; [by intros _ ?%elem_of_nil|].
  rewrite fmap_cons. intros [Hk Hd]%NoDup_cons. cbn [dget fst] in *.
  intros [[= -> ->]|Hin]%elem_of_cons; [by rewrite decide_True|].
  rewrite decide_False; [by apply IH|]. intros ->. apply Hk.
  apply list_elem_of_fmap. by exists (k0, v).
Qed.

(** X2.  [get_all_arcs] changes nothing and returns the arcs for which a
    constraint is stored: [(i, j)] is in the list exactly when
    [self.constraints[i][j]] exists.  (The dictionary of constraints has
    distinct keys, as every Python dictionary has.) *)
Theorem get_all_arcs_spec w :
  NoDup (dkeys (constraints (self w))) →
  ∃ arcs, get_all_arcs w = (w, Ok arcs) ∧
          ∀ i j, (i, j) ∈ arcs ↔ is_Some (constraint_of (self w) i j).
Proof.
  intros Hnodup. eexists. split; [reflexivity|]. intros i j.
  unfold constraint_of. rewrite list_elem_of_In, in_flat_map. split.
  - intros ([i' ci] & Hin & Harc).
    apply list_elem_of_In, list_elem_of_fmap in Harc as (j' & [= -> ->] & Hj).
    apply list_elem_of_In, elem_of_dget in Hin; [|done]. rewrite Hin.
    by apply dget_is_Some.
  - destruct (dget i (constraints (self w))) as [ci|] eqn:Hci;
      [|by intros [? ?]].
    intros Hj%dget_is_Some. exists (i, ci).
    split; [by apply list_elem_of_In, dget_Some_elem_of|].
    apply list_elem_of_In, list_elem_of_fmap. by exists j.
Qed.

(** X3.  [add_constraint_one_way i j f] for an arc that has no constraint
    yet, between two variables that have a domain: it returns normally and
    stores for [(i, j)] the pairs of the product of the two domains on which
    [f] is true.  No other arc changes, the reverse arc [(j, i)] among them,
    and variables, domains, list objects and counters are as they were. *)
Theorem add_constraint_one_way_new_arc w i j (f : Val → Val → bool) ci li lj :
  dget i (constraints (self w)) = Some ci → dget j ci = None →
  dget i (domains (self w)) = Some li → dget j (domains (self w)) = Some lj →
  ∃ c', add_constraint_one_way i j f w = (set_self c' w, Ok tt) ∧
        variables c' = variables (self w) ∧ domains c' = domains (self w) ∧
        dkeys (constraints c') = dkeys (constraints (self w)) ∧
        constraint_of c' i j
        = Some (filter (λ p, f p.1 p.2)
                  (get_all_possible_pairs (deref (heap w) li)
                                          (deref (heap w) lj))) ∧
        ∀ i' j', (i', j') ≠ (i, j) →
                 constraint_of c' i' j' = constraint_of (self w) i' j'.
Proof.
  intros Hci Hcij Hli Hlj. eexists. split.
  - rewrite add_constraint_one_way_unfold. unfold constraint_base, constraint_of.
    rewrite Hci, Hcij, Hli, Hlj. reflexivity.
  - split_and!; [done|done|by eapply dkeys_dset_present| |].
    + by rewrite constraint_of_dset, decide_True.
    + intros i' j' Hne. by rewrite constraint_of_dset, decide_False.
Qed.

(** X4.  [add_constraint_one_way i j f] for an arc that has a constraint
    narrows it: of the pairs stored, those on which [f] is true stay, and
    nothing else changes.  The domains are not read again. *)
Theorem add_constraint_one_way_narrows w i j (f : Val → Val → bool) cij :
  constraint_of (self w) i j = Some cij →
  ∃ c', add_constraint_one_way i j f w = (set_self c' w, Ok tt) ∧
        variables c' = variables (self w) ∧ domains c' = domains (self w) ∧
        dkeys (constraints c') = dkeys (constraints (self w)) ∧
        constraint_of c' i j = Some (filter (λ p, f p.1 p.2) cij) ∧
        ∀ i' j', (i', j') ≠ (i, j) →
                 constraint_of c' i' j' = constraint_of (self w) i' j'.
Proof.
  intros Hcij. pose proof Hcij as Hc. unfold constraint_of in Hc.
  destruct (dget i (constraints (self w))) as [ci|] eqn:Hci; [|done].
  eexists. split.
  - rewrite add_constraint_one_way_unfold. unfold constraint_base.
    rewrite Hci, Hcij. reflexivity.
  - split_and!; [done|done|by eapply dkeys_dset_present| |].
    + by rewrite constraint_of_dset, decide_True.
    + intros i' j' Hne. by rewrite constraint_of_dset, decide_False.
Qed.

(** X5.  [add_constraint_one_way i j f] raises [KeyError], and leaves the
    CSP as it was, exactly when [i] has no dictionary of constraints, or the
    arc is new and [i] or [j] has no domain; in every other case it returns
    normally. *)
Theorem add_constraint_one_way_KeyError w i j (f : Val → Val → bool) :
  let missing :=
    dget i (constraints (self w)) = None ∨
    (constraint_of (self w) i j = None ∧
     (dget i (domains (self w)) = None ∨ dget j (domains (self w)) = None)) in
  (missing → add_constraint_one_way i j f w = (w, Raise KeyError)) ∧
  (¬ missing → ∃ w', add_constraint_one_way i j f w = (w', Ok tt)).
Proof.
  cbv zeta. rewrite add_constraint_one_way_unfold.
  unfold constraint_base, constraint_of.
  destruct (dget i (constraints (self w))) as [ci|]; [|split; [done|tauto]].
  destruct (dget j ci) as [cij|].
  { split; [by intros [|[? _]]|eauto]. }
  destruct (dget i (domains (self w))) as [li|]; [|split; [done|tauto]].
  destruct (dget j (domains (self w))) as [lj|]; [|split; [done|tauto]].
  split; [by intros [|[_ [|]]]|eauto].
Qed.

(** X6.  Two calls of [add_constraint_one_way] for the same arc, with [f]
    and then with [g], do what one call with the conjunction of [f] and [g]
    does: they end in the same world with the same outcome, an exception
    included. *)
Theorem add_constraint_one_way_compose w i j (f g : Val → Val → bool) :
  bind (add_constraint_one_way i j f) (λ _, add_constraint_one_way i j g) w
  = add_constraint_one_way i j (λ x y, f x y && g x y) w.
Proof.
  unfold bind at 1. rewrite !add_constraint_one_way_unfold.
  destruct (dget i (constraints (self w))) as [ci|] eqn:Hci; [|done].
  destruct (constraint_base w i j) as [base|] eqn:Hbase; [|done].
  rewrite add_constraint_one_way_unfold. cbn [self set_self constraints].
  rewrite dget_dset_eq. unfold constraint_base at 1. cbn [self set_self].
  rewrite (constraint_of_dset _ _ _ _ _ _ _ Hci), decide_True by done.
  unfold set_self. cbn. rewrite !dset_dset. do 5 f_equal.
  rewrite list_filter_filter. apply list_filter_iff. intros [x y]. cbn.
  rewrite andb_True. tauto.
Qed.

(** ** [add_all_different_constraint] *)

Lemma differ_idemp (pairs : list (Val * Val)) :
  filter (λ p, bool_decide (p.1 ≠ p.2))
    (filter (λ p, bool_decide (p.1 ≠ p.2)) pairs)
  = filter (λ p, bool_decide (p.1 ≠ p.2)) pairs.
Proof. by apply list_filter_filter_l. Qed.

Lemma declared_set_self w c' v :
  domains c' = domains (self w) →
  dkeys (constraints c') = dkeys (constraints (self w)) →
  declared (set_self c' w) v ↔ declared w v.
Proof.
  intros Hd Hk. unfold declared. cbn [self set_self].
  by rewrite Hd, !dget_is_Some, Hk.
Qed.

Lemma constraint_base_set_self w c' i j :
  domains c' = domains (self w) →
  constraint_base (set_self c' w) i j =
  match constraint_of c' i j with
  | Some cij => Some cij
  | None =>
      match dget i (domains (self w)), dget j (domains (self w)) with
      | Some li, Some lj =>
          Some (get_all_possible_pairs (deref (heap w) li)
                                       (deref (heap w) lj))
      | _, _ => None
      end
  end.
Proof. intros Hd. unfold constraint_base. cbn [self set_self heap]. by rewrite Hd. Qed.

Lemma constraint_base_declared w i j :
  declared w i → declared w j → is_Some (constraint_base w i j).
Proof.
  intros [_ [li Hli]] [_ [lj Hlj]]. unfold constraint_base.
  rewrite Hli, Hlj. by destruct (constraint_of (self w) i j).
Qed.

(** The loop of [add_all_different_constraint] over a list of pairs of
    variables: every pair of two different variables gets its constraint
    narrowed to the pairs of different values, and no other constraint
    changes. *)
Lemma add_all_different_loop_spec (ps : list (Var * Var)) w :
  Forall (λ p, declared w p.1 ∧ declared w p.2) ps →
  ∃ c', add_all_different_loop ps w = (set_self c' w, Ok tt) ∧
        variables c' = variables (self w) ∧ domains c' = domains (self w) ∧
        dkeys (constraints c') = dkeys (constraints (self w)) ∧
        ∀ i j, constraint_of c' i j =
               if decide ((i, j) ∈ ps ∧ i ≠ j)
               then filter (λ p, bool_decide (p.1 ≠ p.2))
                      <$> constraint_base w i j
               else constraint_of (self w) i j.
Proof.
  revert w. induction ps as [|[i j] ps IH]; intros w Hps.
  { exists (self w). split; [by destruct w|]. split_and!; try done. }
  apply Forall_cons in Hps as [[Hi Hj] Hps]. cbn [fst snd] in Hi, Hj.
  cbn [add_all_different_loop]. destruct (decide (i ≠ j)) as [Hij|Hij].
  - destruct Hi as [[ci Hci] Hdi].
    destruct (constraint_base_declared w i j) as [base Hbase];
      [by split; eauto|done|].
    unfold bind at 1. rewrite add_constraint_one_way_unfold, Hci, Hbase.
    set (D := filter (λ p : Val * Val, bool_decide (p.1 ≠ p.2))) in *.
    set (c1 := mkCSP (variables (self w)) (domains (self w))
                 (dset i (dset j (D base) ci) (constraints (self w)))).
    assert (Hk1 : dkeys (constraints c1) = dkeys (constraints (self w)))
      by by eapply dkeys_dset_present.
    destruct (IH (set_self c1 w)) as (c' & Hrun & Hv & Hd & Hk & Hc).
    { eapply Forall_impl; [apply Hps|]. intros [a b] [Ha Hb].
      by rewrite !declared_set_self. }
    exists c'. split; [exact Hrun|]. split_and!; [done|done|by rewrite Hk|].
    intros i' j'. rewrite Hc, (constraint_base_set_self w c1) by reflexivity.
    cbn [self set_self].
    unfold c1 at 1 2. rewrite !(constraint_of_dset (self w) _ _ _ _ _ _ Hci).
    destruct (decide ((i', j') = (i, j))) as [[= -> ->]|Hne].
    + rewrite (decide_True (P := (i, j) ∈ (i, j) :: ps ∧ i ≠ j))
        by (split; [left|done]).
      rewrite Hbase. cbn [fmap option_fmap option_map].
      destruct (decide ((i, j) ∈ ps ∧ i ≠ j)); [|done].
      unfold D. by rewrite differ_idemp.
    + fold (constraint_base w i' j').
      destruct (decide ((i', j') ∈ ps ∧ i' ≠ j')) as [[Hin Hne']|Hnin].
      * rewrite decide_True; [done|]. split; [by right|done].
      * rewrite decide_False; [done|].
        intros [[?|?]%elem_of_cons ?]; [done|]. by apply Hnin.
  - apply dec_stable in Hij as <-.
    destruct (IH w Hps) as (c' & Hrun & Hv & Hd & Hk & Hc).
    exists c'. split; [exact Hrun|]. split_and!; try done.
    intros i' j'. rewrite Hc.
    destruct (decide ((i', j') ∈ ps ∧ i' ≠ j')) as [[Hin Hne']|Hnin].
    + rewrite decide_True; [done|]. split; [by right|done].
    + rewrite decide_False; [done|].
      intros [[[= -> ->]|?]%elem_of_cons ?]; [done|]. by apply Hnin.
Qed.

Lemma domain_of_Some w v l :
  dget v (domains (self w)) = Some l → domain_of w v = deref (heap w) l.
Proof. intros Hl. unfold domain_of. by rewrite dget_snapshot, Hl. Qed.

(** X7.  [add_all_different_constraint vars] on declared variables returns
    normally and leaves variables, domains and list objects alone.  For two
    different variables of [vars] the arc then holds exactly the pairs of
    different values, among the pairs it held before or, for a new arc, among
    the pairs of the two domains.  No other arc changes; no arc is made
    from a variable to itself. *)
Theorem add_all_different_constraint_spec w (vars : list Var) :
  Forall (declared w) vars →
  ∃ c', add_all_different_constraint vars w = (set_self c' w, Ok tt) ∧
        variables c' = variables (self w) ∧ domains c' = domains (self w) ∧
        (∀ i j, i ∈ vars → j ∈ vars → i ≠ j →
           ∃ cij, constraint_of c' i j = Some cij ∧
                  ∀ x y, (x, y) ∈ cij ↔
                         x ≠ y ∧
                         match constraint_of (self w) i j with
                         | Some old => (x, y) ∈ old
                         | None => x ∈ domain_of w i ∧ y ∈ domain_of w j
                         end) ∧
        (∀ i j, ¬ (i ∈ vars ∧ j ∈ vars ∧ i ≠ j) →
           constraint_of c' i j = constraint_of (self w) i j).
Proof.
  intros Hvars. rewrite Forall_forall in Hvars.
  unfold add_all_different_constraint.
  destruct (add_all_different_loop_spec (get_all_possible_pairs vars vars) w)
    as (c' & Hrun & Hv & Hd & _ & Hc).
  { apply Forall_forall. intros [a b] Hab.
    apply elem_of_get_all_possible_pairs in Hab as [Ha Hb].
    split; by apply Hvars. }
  exists c'. split; [exact Hrun|]. split_and!; [done|done| |].
  - intros i j Hi Hj Hij. rewrite Hc, decide_True
      by (split; [by apply elem_of_get_all_possible_pairs|done]).
    destruct (Hvars _ Hi) as [_ [li Hli]]. destruct (Hvars _ Hj) as [_ [lj Hlj]].
    unfold constraint_base. rewrite Hli, Hlj.
    rewrite (domain_of_Some _ _ _ Hli), (domain_of_Some _ _ _ Hlj).
    destruct (constraint_of (self w) i j) as [old|];
      cbn [fmap option_fmap option_map]; eexists; (split; [reflexivity|]);
      intros x y; rewrite list_elem_of_filter, bool_decide_spec; cbn [fst snd].
    + done.
    + by rewrite elem_of_get_all_possible_pairs.
  - intros i j Hnot. rewrite Hc, decide_False; [done|].
    intros [[? ?]%elem_of_get_all_possible_pairs ?]. by apply Hnot.
Qed.

Lemma add_all_different_loop_undeclared (ps : list (Var * Var)) w u v :
  (v, u) ∈ ps → v ≠ u → dget v (constraints (self w)) = None →
  (add_all_different_loop ps w).2 = Raise KeyError.
Proof.
  revert w. induction ps as [|[i j] ps IH]; intros w Hin Hvu Hv;
    [by apply elem_of_nil in Hin|].
  cbn [add_all_different_loop]. destruct (decide (i ≠ j)) as [Hij|Hij].
  - unfold bind at 1. rewrite add_constraint_one_way_unfold.
    destruct (dget i (constraints (self w))) as [ci|] eqn:Hci; [|done].
    destruct (constraint_base w i j) as [base|]; [|done].
    apply elem_of_cons in Hin as [[= -> ->]|Hin]; [congruence|].
    apply IH; [done|done|]. cbn [self set_self constraints].
    rewrite dget_dset_ne; [done|congruence].
  - apply dec_stable in Hij as <-.
    apply elem_of_cons in Hin as [[= -> ->]|Hin]; [done|].
    unfold bind at 1, ret at 1. cbv beta iota. by apply IH.
Qed.

(** X8.  [add_all_different_constraint vars] raises [KeyError] when one of
    [vars] has no dictionary of constraints and [vars] names another
    variable besides. *)
Theorem add_all_different_constraint_undeclared w (vars : list Var) u v :
  u ∈ vars → v ∈ vars → u ≠ v → dget v (constraints (self w)) = None →
  (add_all_different_constraint vars w).2 = Raise KeyError.
Proof.
  intros Hu Hv Hne Hnone. unfold add_all_different_constraint.
  apply (add_all_different_loop_undeclared _ w u v); [|done|done].
  by apply elem_of_get_all_possible_pairs.
Qed.

(** ** What the construction methods maintain *)

Lemma elem_of_dset_locs (d : dict Var loc) k l l' :
  l' ∈ (dset k l d).*2 → l' = l ∨ l' ∈ d.*2.
Proof.
  induction d as [|[k0 l0] d IH]; cbn [dset].
  - rewrite fmap_cons. intros [->|?%elem_of_nil]%elem_of_cons; [by left|done].
  - destruct (decide (k = k0)); rewrite !fmap_cons, !elem_of_cons; cbn [snd].
    + tauto.
    + intros [->|Hin]; [by right; left|]. destruct (IH Hin); tauto.
Qed.

Lemma NoDup_dset_locs (d : dict Var loc) k l :
  NoDup d.*2 → l ∉ d.*2 → NoDup (dset k l d).*2.
Proof.
  induction d as [|[k0 l0] d IH]; cbn [dset].
  - intros _ _. rewrite fmap_cons. apply NoDup_singleton.
  - rewrite fmap_cons. cbn [snd].
    intros [Hl0 Hd]%NoDup_cons [Hne Hl]%not_elem_of_cons.
    destruct (decide (k = k0)); rewrite fmap_cons; cbn [snd];
      apply NoDup_cons; split; auto.
    intros [->|Hin]%elem_of_dset_locs; done.
Qed.

Lemma add_variable_well_formed name domain w :
  well_formed w → well_formed (add_variable name domain w).1.
Proof.
  intros (Hnodup & Hkeys & Hlocs & Hrange & Harcs). unfold well_formed.
  cbn [add_variable bind alloc get_self put_self fst snd self heap
       set_heap set_self constraints domains].
  split_and!.
  - by apply NoDup_dkeys_dset.
  - destruct (dget name (domains (self w))) as [l|] eqn:Hl.
    + assert (is_Some (dget name (constraints (self w)))) as [ci Hci].
      { apply dget_is_Some. rewrite Hkeys. apply dget_is_Some. eauto. }
      by rewrite (dkeys_dset_present _ _ _ _ Hl),
                 (dkeys_dset_present _ _ _ _ Hci).
    + assert (dget name (constraints (self w)) = None) as Hci.
      { apply dget_None. rewrite Hkeys. by apply dget_None. }
      rewrite (dkeys_dset_absent _ _ _ Hl), (dkeys_dset_absent _ _ _ Hci).
      by rewrite Hkeys.
  - apply NoDup_dset_locs; [done|]. intros Hin.
    unfold in_range in Hrange. rewrite Forall_forall in Hrange.
    apply Hrange in Hin. lia.
  - apply in_range_dset; [rewrite length_app; simpl; lia|].
    by apply in_range_app.
  - apply Forall_dset; [split; [apply NoDup_nil_2|constructor]|].
    eapply Forall_impl; [apply Harcs|]. intros [i ci] [Hci Hin].
    split; [done|]. eapply Forall_impl; [apply Hin|]. intros j Hj.
    cbv beta in Hj. apply dkeys_dset_mem. by right.
Qed.

Lemma dget_Forall {V} (P : Var * V → Prop) k (v : V) (d : dict Var V) :
  Forall P d → dget k d = Some v → P (k, v).
Proof.
  intros Hd Hk%dget_Some_elem_of. rewrite Forall_forall in Hd. by apply Hd.
Qed.

Lemma add_constraint_one_way_well_formed i j (f : Val → Val → bool) w :
  well_formed w → well_formed (add_constraint_one_way i j f w).1.
Proof.
  intros Hw. rewrite add_constraint_one_way_unfold.
  destruct (dget i (constraints (self w))) as [ci|] eqn:Hci; [|done].
  destruct (constraint_base w i j) as [base|] eqn:Hbase; [|done].
  destruct Hw as (Hnodup & Hkeys & Hlocs & Hrange & Harcs).
  unfold well_formed. cbn [fst self set_self heap constraints domains].
  split_and!; [done| |done|done|].
  - by rewrite (dkeys_dset_present _ _ _ _ Hci).
  - destruct (dget_Forall _ _ _ _ Harcs Hci) as [Hnd Hin]. cbn [snd] in *.
    apply Forall_dset; [|done]. cbn [snd]. split; [by apply NoDup_dkeys_dset|].
    apply Forall_forall. intros k [->|Hk]%dkeys_dset_mem.
    + unfold constraint_base, constraint_of in Hbase. rewrite Hci in Hbase.
      destruct (dget j ci) as [cij|] eqn:Hcij.
      * rewrite Forall_forall in Hin. apply Hin, dget_is_Some. eauto.
      * destruct (dget i (domains (self w))); [|done].
        destruct (dget j (domains (self w))) eqn:Hj; [|done].
        apply dget_is_Some. eauto.
    + rewrite Forall_forall in Hin. by apply Hin.
Qed.

Lemma add_all_different_loop_well_formed (ps : list (Var * Var)) w :
  well_formed w → well_formed (add_all_different_loop ps w).1.
Proof.
  revert w. induction ps as [|[i j] ps IH]; intros w Hw; [done|].
  cbn [add_all_different_loop]. destruct (decide (i ≠ j)); [|by apply IH].
  pose proof (add_constraint_one_way_well_formed i j
                (λ x y, bool_decide (x ≠ y)) w Hw) as Hw1.
  unfold bind at 1.
  destruct (add_constraint_one_way i j _ w) as [w1 [[]|e|]]; [|done|done].
  by apply IH.
Qed.

Lemma run_calls_well_formed (calls : list (@call Var Val)) :
  well_formed (build (run_call <$> calls)).
Proof.
  unfold build.
  assert (Hempty : well_formed (@empty_world Var Val)).
  { unfold well_formed. simpl. split_and!; constructor. }
  revert Hempty. generalize (@empty_world Var Val).
  induction calls as [|c calls IH]; intros w Hw; [done|].
  rewrite fmap_cons. cbn [foldl]. apply IH. destruct c; cbn [run_call].
  - by apply add_variable_well_formed.
  - by apply add_constraint_one_way_well_formed.
  - by apply add_all_different_loop_well_formed.
Qed.

(** X9.  Whatever calls of [add_variable], [add_constraint_one_way] and
    [add_all_different_constraint] are made on a new CSP, whether they return
    or raise, the CSP is [well_formed]: the domains are distinct list objects
    of the store under distinct names, the dictionary of constraints has the
    same keys in the same order, and every constraint goes to a variable
    that has a domain. *)
Theorem built_well_formed (calls : list (@call Var Val)) :
  well_formed (build (run_call <$> calls)).
Proof. apply run_calls_well_formed. Qed.

Lemma dset_absent {K V} `{EqDecision K} (k : K) (v : V) (d : dict K V) :
  dget k d = None → dset k v d = d ++ [(k, v)].
Proof.
  induction d as [|[k0 v0] d IH]; cbn [dget dset]; [done|].
  destruct (decide (k = k0)); [done|]. intros Hd. by rewrite IH.
Qed.

Lemma add_variable_fresh_run w name domain :
  dget name (domains (self w)) = None →
  dget name (constraints (self w)) = None →
  in_range (heap w) (domains (self w)) →
  ∃ w', add_variable name domain w = (w', Ok tt) ∧
        variables (self w') = variables (self w) ++ [name] ∧
        snapshot (heap w') (domains (self w'))
        = snapshot (heap w) (domains (self w)) ++ [(name, domain)] ∧
        constraints (self w') = constraints (self w) ++ [(name, [])] ∧
        heap w `prefix_of` heap w' ∧
        in_range (heap w') (domains (self w')).
Proof.
  intros Hd Hc Hrange. eexists. split; [reflexivity|].
  cbn [self set_self heap set_heap variables domains constraints].
  split_and!; [done| |by apply dset_absent|by eexists|].
  - rewrite (dset_absent _ _ _ Hd). unfold snapshot. rewrite fmap_app.
    f_equal; [by apply (snapshot_app (heap w) [domain])|].
    cbn. by rewrite deref_app_length.
  - apply in_range_dset; [rewrite length_app; simpl; lia|].
    by apply in_range_app.
Qed.

(** X10.  [add_variable] with a new name returns normally, appends the name
    to [self.variables], binds it after the others to a new list object that
    holds the domain, and gives it an empty dictionary of constraints; the
    list objects that existed are untouched. *)
Theorem add_variable_fresh w name domain :
  dget name (domains (self w)) = None →
  dget name (constraints (self w)) = None →
  in_range (heap w) (domains (self w)) →
  ∃ w', add_variable name domain w = (w', Ok tt) ∧
        variables (self w') = variables (self w) ++ [name] ∧
        snapshot (heap w') (domains (self w'))
        = snapshot (heap w) (domains (self w)) ++ [(name, domain)] ∧
        constraints (self w') = constraints (self w) ++ [(name, [])] ∧
        heap w `prefix_of` heap w'.
Proof.
  intros Hd Hc Hrange.
  destruct (add_variable_fresh_run w name domain Hd Hc Hrange)
    as (w' & ? & ? & ? & ? & ? & _).
  by exists w'.
Qed.

(** ** What [revise] raises and what it removes *)

Lemma list_remove_first_elem_of {A} `{EqDecision A} (a : A) (l : list A) :
  a ∈ l → is_Some (list_remove_first a l).
Proof.
  induction l as [|b l IH]; [by intros ?%elem_of_nil|].
  cbn [list_remove_first]. destruct (decide (a = b)); [by eauto|].
  intros [?|Hin]%elem_of_cons; [done|].
  destruct (IH Hin) as [r ->]. eauto.
Qed.

Lemma list_remove_first_keeps {A} `{EqDecision A} (a b : A) (l l' : list A) :
  list_remove_first a l = Some l' → b ≠ a → b ∈ l → b ∈ l'.
Proof.
  revert l'. induction l as [|c l IH]; intros l'; cbn [list_remove_first];
    [done|].
  destruct (decide (a = c)) as [->|Hne].
  - intros [= ->] Hb [?|?]%elem_of_cons; done.
  - destruct (list_remove_first a l) as [r|]; [|done].
    intros [= <-] Hb [->|Hin]%elem_of_cons; [left|right; by apply IH].
Qed.

Lemma revise_inner_run i j x ys cij w :
  constraint_of (self w) i j = Some cij →
  revise_inner i j x ys w
  = (w, Ok (bool_decide (Exists (λ y, (x, y) ∈ cij) ys))).
Proof.
  intros Hc. pose proof Hc as Hc'. unfold constraint_of in Hc'.
  destruct (dget i (constraints (self w))) as [ci|] eqn:Hci; [|done].
  induction ys as [|y ys IH]; cbn [revise_inner].
  - rewrite bool_decide_eq_false_2; [done|]. by intros ?%Exists_nil.
  - rewrite bind_get_self, (bind_getitem_Some _ _ _ _ _ Hci),
            (bind_getitem_Some _ _ _ _ _ Hc').
    unfold pair_in. destruct (decide ((x, y) ∈ cij)) as [Hin|Hnin].
    + rewrite bool_decide_eq_true_2 by done.
      rewrite bool_decide_eq_true_2; [done|]. by left.
    + rewrite bool_decide_eq_false_2 by done. rewrite IH.
      do 2 f_equal. apply bool_decide_ext. rewrite Exists_cons. tauto.
Qed.

Lemma revise_inner_undeclared i j x y ys w :
  constraint_of (self w) i j = None →
  revise_inner i j x (y :: ys) w = (w, Raise KeyError).
Proof.
  unfold constraint_of. intros Hc. cbn [revise_inner].
  rewrite bind_get_self. unfold bind at 1, getitem at 1.
  destruct (dget i (constraints (self w))) as [ci|]; [|done].
  cbv beta iota. unfold ret at 1. unfold bind at 1, getitem at 1.
  by rewrite Hc.
Qed.

(** The loop of [revise] raises nothing when the constraint of the arc is
    declared, or when the list of [j] is empty. *)
Lemma revise_loop_no_raise n assignment i j li lj idx revised w :
  dget j assignment = Some lj →
  is_Some (constraint_of (self w) i j) ∨
    (li ≠ lj ∧ deref (heap w) lj = []) →
  wp (revise_loop n assignment i j li idx revised) w
     (λ _ r, ∀ e, r ≠ Raise e).
Proof.
  intros Hlj. revert idx revised w.
  induction n as [|n IH]; intros idx revised w Hinv; [done|].
  cbn [revise_loop]. wp_read.
  destruct (deref (heap w) li !! idx) as [x|] eqn:Hx; [|done].
  assert (Hin : x ∈ deref (heap w) li) by by eapply list_elem_of_lookup_2.
  wp_getitem. rewrite Hlj. wp_read.
  assert (∃ b, revise_inner i j x (deref (heap w) lj) w = (w, Ok b))
    as [b Hb].
  { destruct Hinv as [[cij Hc]|[_ ->]]; [|by eexists].
    eexists. by apply revise_inner_run. }
  apply (wp_bind_Ok _ _ _ _ _ _ Hb). destruct b; [by apply IH|].
  apply wp_bind, wp_remove.
  destruct (list_remove_first_elem_of x _ Hin) as [L' ->].
  apply IH. cbn [self set_heap heap].
  destruct Hinv as [?|[Hne Hnil]]; [by left|right].
  split; [done|]. by rewrite deref_insert_ne.
Qed.

(** X11.  [revise assignment i j] raises [KeyError], before it has changed
    anything, exactly when [i] is not in the assignment, or the list of [i]
    is not empty and [j] is not in the assignment, or both lists are not
    empty and no constraint is stored for [(i, j)].  In every other case it
    returns its flag: [list.remove] never raises [ValueError] there, and an
    arc without a constraint goes unnoticed when one of the lists is
    empty. *)
Theorem revise_KeyError w assignment i j :
  let raises :=
    match dget i assignment with
    | None => True
    | Some li =>
        deref (heap w) li ≠ [] ∧
        match dget j assignment with
        | None => True
        | Some lj =>
            deref (heap w) lj ≠ [] ∧ constraint_of (self w) i j = None
        end
    end in
  (raises → revise assignment i j w = (w, Raise KeyError)) ∧
  (¬ raises → ∃ w' revised, revise assignment i j w = (w', Ok revised)).
Proof.
  cbv zeta. unfold revise.
  destruct (dget i assignment) as [li|] eqn:Hli;
    [|split; [intros _; unfold bind, getitem; by rewrite Hli|tauto]].
  rewrite (bind_getitem_Some _ _ _ _ _ Hli), bind_read.
  destruct (deref (heap w) li) as [|x L] eqn:HL.
  { split; [by intros [? _]|]. intros _. exists w, false.
    cbn [revise_loop]. by rewrite bind_read, HL. }
  destruct (dget j assignment) as [lj|] eqn:Hlj.
  - destruct (deref (heap w) lj) as [|y ys] eqn:Hys;
      [|destruct (constraint_of (self w) i j) as [cij|] eqn:Hc].
    3:{ split; [|by intros []]. intros _.
        cbn [revise_loop]. rewrite bind_read, HL.
        change ((x :: L) !! 0) with (Some x). cbv iota.
        rewrite (bind_getitem_Some _ _ _ _ _ Hlj), bind_read, Hys.
        unfold bind at 1. by rewrite revise_inner_undeclared. }
    all: split; [by intros [_ [? ?]]|]; intros _.
    all: pose proof (revise_spec assignment i j w) as Hspec.
    all: pose proof (revise_loop_no_raise (S (length (x :: L))) assignment
                       i j li lj 0 false w Hlj) as Hno.
    all: unfold wp, revise in Hspec, Hno.
    all: rewrite (bind_getitem_Some _ _ _ _ _ Hli), bind_read, HL in Hspec.
    all: destruct (revise_loop _ _ _ _ _ _ _ w) as [w' [b|e|]];
      [by eauto| |by destruct Hspec as (_ & ? & _)].
    + exfalso. apply (Hno) with e; [|done]. right. split; [|done].
      intros ->. by rewrite HL in Hys.
    + exfalso. apply Hno with e; [|done]. left. by rewrite Hc.
  - split; [|by intros []]. intros _.
    cbn [revise_loop]. rewrite bind_read, HL.
    change ((x :: L) !! 0) with (Some x). cbv iota.
    unfold bind at 1, getitem at 1. by rewrite Hlj.
Qed.

(** The loop of [revise] removes no value that has a partner. *)
Lemma revise_loop_keeps_supported n assignment i j li lj cij idx revised w :
  dget j assignment = Some lj → li ≠ lj →
  constraint_of (self w) i j = Some cij →
  wp (revise_loop n assignment i j li idx revised) w (λ w' _,
    ∀ x, x ∈ deref (heap w) li →
         Exists (λ y, (x, y) ∈ cij) (deref (heap w) lj) →
         x ∈ deref (heap w') li).
Proof.
  intros Hlj Hne. revert idx revised w.
  induction n as [|n IH]; intros idx revised w Hc; [by intros ?|].
  cbn [revise_loop]. wp_read.
  destruct (deref (heap w) li !! idx) as [x0|] eqn:Hx0; [|by intros ?].
  assert (Hin : x0 ∈ deref (heap w) li) by by eapply list_elem_of_lookup_2.
  assert (Hli : li < length (heap w)).
  { apply deref_nonempty_lt. intros Hnil. rewrite Hnil in Hin.
    by apply elem_of_nil in Hin. }
  wp_getitem. rewrite Hlj. wp_read.
  apply (wp_bind_Ok _ _ _ _ _ _ (revise_inner_run i j x0 _ cij w Hc)).
  destruct (decide (Exists (λ y, (x0, y) ∈ cij) (deref (heap w) lj)))
    as [Hsup|Hnsup].
  { rewrite bool_decide_eq_true_2 by done. by apply IH. }
  rewrite bool_decide_eq_false_2 by done.
  apply wp_bind, wp_remove.
  destruct (list_remove_first x0 (deref (heap w) li)) as [L'|] eqn:HL';
    [|done].
  eapply wp_mono; [by apply IH|]. cbv beta. intros w' _ Hkeep x Hx Hsupx.
  cbn [heap set_heap] in Hkeep.
  rewrite deref_insert_eq, deref_insert_ne in Hkeep by done.
  apply Hkeep; [|done]. eapply list_remove_first_keeps; [done| |done].
  by intros ->.
Qed.

(** X12.  On an arc with a constraint, between two variables bound to
    different list objects, [revise] returns normally; it changes the list of
    [i] only, by removing values; it removes no value that has a partner in
    the list of [j]; and the flag it returns is [True] exactly when the list
    of [i] got shorter. *)
Theorem revise_keeps_supported_values w assignment i j li lj cij :
  dget i assignment = Some li → dget j assignment = Some lj → li ≠ lj →
  constraint_of (self w) i j = Some cij →
  ∃ w' revised,
    revise assignment i j w = (w', Ok revised) ∧
    shrink_at li w w' ∧
    (revised = true ↔
       length (deref (heap w') li) < length (deref (heap w) li)) ∧
    ∀ x, x ∈ deref (heap w) li →
         Exists (λ y, (x, y) ∈ cij) (deref (heap w) lj) →
         x ∈ deref (heap w') li.
Proof.
  intros Hli Hlj Hne Hc.
  pose proof (revise_loop_spec (S (length (deref (heap w) li))) assignment
                i j li 0 false w) as Hspec.
  pose proof (revise_loop_no_raise (S (length (deref (heap w) li)))
                assignment i j li lj 0 false w Hlj) as Hno.
  pose proof (revise_loop_keeps_supported (S (length (deref (heap w) li)))
                assignment i j li lj cij 0 false w Hlj Hne Hc) as Hkeep.
  unfold revise. rewrite (bind_getitem_Some _ _ _ _ _ Hli), bind_read.
  unfold wp in *.
  destruct (revise_loop _ _ _ _ _ _ _ w) as [w' [revised|e|]].
  - destruct Hspec as (Hs & _ & Hfalse & Htrue); [lia|lia|].
    exists w', revised. split_and!; [done|done| |done]. cbn [fst snd] in *.
    destruct revised.
    + split; [|done]. intros _. by destruct (Htrue eq_refl).
    + split; [done|]. destruct (Hfalse eq_refl) as [_ ->]. lia.
  - exfalso. apply (Hno) with e; [|done]. left. by rewrite Hc.
  - by destruct Hspec as (_ & ? & _); [lia|lia|].
Qed.

(** ** Solutions survive [inference] *)

Lemma elem_of_all_arcs c i j ci :
  dget i (constraints c) = Some ci → j ∈ dkeys ci → (i, j) ∈ all_arcs c.
Proof.
  intros Hci Hj. unfold all_arcs. apply list_elem_of_In, in_flat_map.
  exists (i, ci). split; [by apply list_elem_of_In, dget_Some_elem_of|].
  apply list_elem_of_In, list_elem_of_fmap. by exists j.
Qed.

Lemma solves_constraint_of (sol : Var → Val) c i j cij :
  solves sol c → constraint_of c i j = Some cij → (sol i, sol j) ∈ cij.
Proof.
  intros Hsol Hc. unfold solves in Hsol. rewrite Forall_forall in Hsol.
  assert (Harc : (i, j) ∈ all_arcs c).
  { unfold constraint_of in Hc.
    destruct (dget i (constraints c)) as [ci|] eqn:Hci; [|done].
    eapply elem_of_all_arcs; [done|]. apply dget_is_Some. eauto. }
  apply Hsol in Harc. cbn [fst snd] in Harc. by rewrite Hc in Harc.
Qed.

Lemma within_dget (sol : Var → Val) w assignment v l :
  within sol w assignment → dget v assignment = Some l →
  sol v ∈ deref (heap w) l.
Proof.
  intros Hin Hl%dget_Some_elem_of. unfold within in Hin.
  rewrite Forall_forall in Hin. by apply (Hin (v, l)).
Qed.

Lemma locs_inj (d : dict Var loc) v v' l :
  NoDup d.*2 → (v, l) ∈ d → (v', l) ∈ d → v = v'.
Proof.
  induction d as [|[k0 l0] d IH]; [by intros _ ?%elem_of_nil|].
  rewrite fmap_cons. cbn [snd]. intros [Hl0 Hd]%NoDup_cons.
  intros [[= -> ->]|Hv]%elem_of_cons [[= ->]|Hv']%elem_of_cons.
  - done.
  - exfalso. apply Hl0. apply list_elem_of_fmap. by exists (v', l0).
  - subst l0. exfalso. apply Hl0. apply list_elem_of_fmap. by exists (v, l).
  - by apply IH.
Qed.

Lemma revise_inner_false i j x ys w :
  revise_inner i j x ys w = (w, Ok false) →
  ∀ y, y ∈ ys →
       ∃ cij, constraint_of (self w) i j = Some cij ∧ (x, y) ∉ cij.
Proof.
  intros Hrun y Hy. destruct ys as [|y0 ys]; [by apply elem_of_nil in Hy|].
  destruct (constraint_of (self w) i j) as [cij|] eqn:Hc.
  - exists cij. split; [done|].
    rewrite (revise_inner_run _ _ _ _ _ _ Hc) in Hrun.
    injection Hrun as Hrun. apply bool_decide_eq_false_1 in Hrun.
    intros Hin. apply Hrun, Exists_exists. eauto.
  - by rewrite revise_inner_undeclared in Hrun.
Qed.

Lemma revise_loop_within (sol : Var → Val) n assignment i j li idx revised w :
  NoDup assignment.*2 → dget i assignment = Some li →
  solves sol (self w) → within sol w assignment →
  wp (revise_loop n assignment i j li idx revised) w
     (λ w' _, self w' = self w ∧ within sol w' assignment).
Proof.
  intros Hnodup Hli. revert idx revised w.
  induction n as [|n IH]; intros idx revised w Hsol Hin; [done|].
  cbn [revise_loop]. wp_read.
  destruct (deref (heap w) li !! idx) as [x|] eqn:Hx; [|done].
  wp_getitem. destruct (dget j assignment) as [lj|] eqn:Hlj; [|done].
  wp_read.
  destruct (revise_inner_pure i j x (deref (heap w) lj) w) as (r & Hr & _).
  destruct r as [[|]|e|]; [| |by unfold wp, bind; rewrite Hr..].
  { apply (wp_bind_Ok _ _ _ _ _ _ Hr). by apply IH. }
  apply (wp_bind_Ok _ _ _ _ _ _ Hr).
  destruct (revise_inner_false _ _ _ _ _ Hr (sol j)
              (within_dget _ _ _ _ _ Hin Hlj)) as (cij & Hc & Hnin).
  assert (Hxi : sol i ≠ x).
  { intros <-. apply Hnin. by eapply solves_constraint_of. }
  apply wp_bind, wp_remove.
  destruct (list_remove_first x (deref (heap w) li)) as [L'|] eqn:HL';
    [|done].
  assert (Hlt : li < length (heap w)).
  { apply deref_nonempty_lt. intros Hnil. by rewrite Hnil in Hx. }
  eapply wp_mono; [apply IH; [done|]|by intros w' r [-> ?]].
  unfold within in *. rewrite Forall_forall in Hin. apply Forall_forall.
  intros [v l] Hvl. cbn [fst snd heap set_heap].
  destruct (decide (l = li)) as [->|Hne].
  - rewrite deref_insert_eq by done.
    assert (v = i) as ->.
    { eapply locs_inj; [done|done|by apply dget_Some_elem_of]. }
    eapply list_remove_first_keeps; [done|done|by apply (Hin (i, li))].
  - rewrite deref_insert_ne by done. by apply (Hin (v, l)).
Qed.

Lemma revise_within (sol : Var → Val) assignment i j w :
  NoDup assignment.*2 → solves sol (self w) → within sol w assignment →
  wp (revise assignment i j) w
     (λ w' _, self w' = self w ∧ within sol w' assignment).
Proof.
  intros Hnodup Hsol Hin. unfold revise. wp_getitem.
  destruct (dget i assignment) as [li|] eqn:Hli; [|done].
  wp_read. by apply revise_loop_within.
Qed.

Lemma inference_loop_within (sol : Var → Val) n assignment queue w :
  NoDup assignment.*2 → solves sol (self w) → within sol w assignment →
  wp (inference_loop n assignment queue) w
     (λ w' r, within sol w' assignment ∧ r ≠ Ok false).
Proof.
  intros Hnodup. revert queue w.
  induction n as [|n IH]; intros queue w Hsol Hin; [done|].
  destruct queue as [|[i j] queue']; cbn [inference_loop]; [done|].
  eapply wp_seq; [by apply (revise_within sol)|..]; cbv beta;
    [|by intros w1 e [_ ?]|by intros w1 [_ ?]].
  intros w1 revised [Hself Hin1]. rewrite <-Hself in Hsol.
  destruct revised; [|by apply IH].
  wp_getitem. destruct (dget i assignment) as [li|] eqn:Hli; [|done].
  wp_read. destruct (decide (length (deref (heap w1) li) = 0)) as [Hlen|_].
  { exfalso. pose proof (within_dget _ _ _ _ _ Hin1 Hli) as Hi.
    destruct (deref (heap w1) li); [by apply elem_of_nil in Hi|done]. }
  apply wp_bind, wp_get_all_neighboring_arcs.
  destruct (dget i (constraints (self w1))); [|done]. by apply IH.
Qed.

(** X13.  [inference] never removes a value of a solution.  When the
    variables of the assignment are bound to distinct list objects, and [sol]
    picks for each variable a value of its list such that every stored
    constraint holds, then whatever the queue, and whether [inference]
    returns or raises, the values [sol] picks are still in the lists
    afterwards, and [inference] does not return [False]. *)
Theorem inference_keeps_solutions (sol : Var → Val) w assignment queue :
  NoDup assignment.*2 → solves sol (self w) → within sol w assignment →
  (inference assignment queue w).2 ≠ Ok false ∧
  within sol (inference assignment queue w).1 assignment.
Proof.
  intros Hnodup Hsol Hin.
  destruct (inference_loop_within sol (inference_fuel w queue) assignment
              queue w Hnodup Hsol Hin) as [? ?].
  done.
Qed.

(** ** [inference] on a CSP whose arcs go both ways *)

Lemma get_all_arcs_all_arcs w : get_all_arcs w = (w, Ok (all_arcs (self w))).
Proof. done. Qed.

Lemma revise_no_raise assignment i j w :
  is_Some (dget i assignment) → is_Some (dget j assignment) →
  is_Some (constraint_of (self w) i j) →
  wp (revise assignment i j) w
     (λ w' r, self w' = self w ∧ ∃ revised, r = Ok revised).
Proof.
  intros [li Hli] [lj Hlj] Hc.
  pose proof (revise_spec assignment i j w) as Hspec.
  pose proof (revise_loop_no_raise (S (length (deref (heap w) li))) assignment
                i j li lj 0 false w Hlj (or_introl Hc)) as Hno.
  unfold wp, revise in *.
  rewrite (bind_getitem_Some _ _ _ _ _ Hli), bind_read in *.
  destruct (revise_loop _ _ _ _ _ _ _ w) as [w' [b|e|]].
  - destruct Hspec as ([? _ _ _ _ _] & _). eauto.
  - by destruct (Hno e).
  - by destruct Hspec as (_ & ? & _).
Qed.

Lemma inference_loop_no_raise n assignment queue w :
  symmetric_arcs (self w) assignment →
  Forall (λ arc, arc ∈ all_arcs (self w)) queue →
  wp (inference_loop n assignment queue) w (λ _ r, ∀ e, r ≠ Raise e).
Proof.
  revert queue w. induction n as [|n IH]; intros queue w Hsym Hq; [done|].
  destruct queue as [|[i j] queue']; cbn [inference_loop]; [done|].
  apply Forall_cons in Hq as [Hij Hq].
  pose proof Hsym as Hall. unfold symmetric_arcs in Hall.
  rewrite Forall_forall in Hall.
  destruct (Hall _ Hij) as (Hc & _ & Hi & Hj). cbn [fst snd] in *.
  eapply wp_seq; [by apply revise_no_raise|..]; cbv beta.
  - intros w1 revised [Hself _]. rewrite <-Hself in *.
    destruct revised; [|by apply IH].
    wp_getitem. destruct Hi as [li ->]. wp_read.
    destruct (decide _); [done|].
    apply wp_bind, wp_get_all_neighboring_arcs.
    destruct Hc as [cij Hc]. unfold constraint_of in Hc.
    destruct (dget i (constraints (self w1))) as [ci|] eqn:Hci; [|done].
    apply IH; [done|]. apply Forall_app. split; [done|].
    apply Forall_forall. intros [k0 i'] [_ Hk]%list_elem_of_filter.
    apply list_elem_of_fmap in Hk as (k & [= -> ->] & Hk).
    destruct (Hall (i, k)) as (_ & [cki Hcki] & _);
      [by eapply elem_of_all_arcs|]. cbn [fst snd] in Hcki.
    unfold constraint_of in Hcki.
    destruct (dget k (constraints (self w1))) as [ck|] eqn:Hck; [|done].
    eapply elem_of_all_arcs; [done|]. apply dget_is_Some. eauto.
  - by intros w1 e [_ [? ?]].
  - by intros w1 [_ [? ?]].
Qed.

(** X14.  On a CSP in which every arc has its reverse and joins variables
    of the assignment, [inference] started on arcs of the CSP raises nothing:
    it returns [True] or [False] (the arcs [get_all_neighboring_arcs] hands
    it are the reverses of stored arcs, so they have a constraint). *)
Theorem inference_returns w assignment queue :
  symmetric_arcs (self w) assignment →
  Forall (λ arc, arc ∈ all_arcs (self w)) queue →
  ∃ w' inferences, inference assignment queue w = (w', Ok inferences).
Proof.
  intros Hsym Hq.
  pose proof (inference_spec assignment queue w) as [_ Hfuel].
  pose proof (inference_loop_no_raise (inference_fuel w queue) assignment
                queue w Hsym Hq) as Hno.
  unfold wp, inference in *.
  destruct (inference_loop _ _ _ w) as [w' [b|e|]]; [by eauto| |done].
  by destruct (Hno e).
Qed.

(** ** When [inference] answers [False] *)

Lemma inference_loop_False n assignment queue w :
  wp (inference_loop n assignment queue) w (λ w' r,
    r = Ok false →
    ∃ i li, dget i assignment = Some li ∧ deref (heap w') li = []).
Proof.
  revert queue w. induction n as [|n IH]; intros queue w; [done|].
  destruct queue as [|[i j] queue']; cbn [inference_loop]; [done|].
  apply wp_bind. unfold wp at 1.
  destruct (revise assignment i j w) as [w1 [[|]|e|]]; cbn [fst snd];
    [|by apply IH|done|done].
  wp_getitem. destruct (dget i assignment) as [li|] eqn:Hli; [|done].
  wp_read. destruct (decide (length (deref (heap w1) li) = 0)) as [Hlen|_].
  { intros _. exists i, li. split; [done|]. by apply nil_length_inv. }
  apply wp_bind, wp_get_all_neighboring_arcs.
  destruct (dget i (constraints (self w1))); [|done]. by apply IH.
Qed.

(** X15.  When [inference] returns [False], a variable of the assignment is
    left with an empty list. *)
Theorem inference_False_wipeout w w' assignment queue :
  inference assignment queue w = (w', Ok false) →
  ∃ i li, dget i assignment = Some li ∧ deref (heap w') li = [].
Proof.
  intros Hrun.
  pose proof (inference_loop_False (inference_fuel w queue) assignment
                queue w) as H.
  unfold wp, inference in *. rewrite Hrun in H. by apply H.
Qed.

(** ** The first two loops of [backtrack] *)

(** X16.  [select_unassigned_variable] changes nothing and returns the first
    variable, in the order of the dictionary, whose list has more than one
    value; when every list has at most one value, an empty list included, it
    returns [None]. *)
Theorem select_unassigned_variable_first items w :
  ∃ selected,
    select_unassigned_variable items w = (w, Ok selected) ∧
    match selected with
    | Some variable =>
        ∃ before l after,
          items = before ++ (variable, l) :: after ∧
          1 < length (deref (heap w) l) ∧
          Forall (λ e, length (deref (heap w) e.2) ≤ 1) before
    | None => Forall (λ e, length (deref (heap w) e.2) ≤ 1) items
    end.
Proof.
  induction items as [|[v l] items IH]; cbn [select_unassigned_variable].
  { exists None. by split. }
  rewrite bind_read.
  destruct (decide (1 < length (deref (heap w) l))) as [Hlen|Hlen].
  - exists (Some v). split; [done|]. by exists [], l, items.
  - destruct IH as (selected & -> & Hsel). exists selected. split; [done|].
    destruct selected as [variable|].
    + destruct Hsel as (before & l' & after & -> & Hl' & Hbefore).
      exists ((v, l) :: before), l', after. split_and!; [done|done|].
      constructor; [simpl; lia|done].
    + constructor; [simpl; lia|done].
Qed.

Lemma all_decided_run items w :
  all_decided items w
  = (w, Ok (bool_decide
              (Forall (λ e, length (deref (heap w) e.2) = 1) items))).
Proof.
  induction items as [|[v l] items IH]; cbn [all_decided].
  { by rewrite bool_decide_eq_true_2. }
  rewrite bind_read.
  destruct (decide (length (deref (heap w) l) ≠ 1)) as [Hne|Heq].
  - rewrite bool_decide_eq_false_2; [done|]. by intros [? _]%Forall_cons.
  - rewrite IH. do 2 f_equal. apply bool_decide_ext.
    rewrite Forall_cons. cbn [snd]. apply dec_stable in Heq. tauto.
Qed.

Lemma select_unassigned_variable_None items w :
  Forall (λ e, length (deref (heap w) e.2) ≤ 1) items →
  select_unassigned_variable items w = (w, Ok None).
Proof.
  induction 1 as [|[v l] items Hl _ IH]; [done|].
  cbn [select_unassigned_variable]. rewrite bind_read.
  cbn [snd] in Hl. by rewrite decide_False by lia.
Qed.

(** X17.  [backtrack] on an assignment in which no list has more than one
    value counts the call and ends at once: when every list has exactly one
    value it returns the assignment as it is, without looking at a
    constraint; when some list is empty it raises [KeyError], because
    [select_unassigned_variable] returned [None]. *)
Theorem backtrack_no_undecided n assignment w :
  Forall (λ e, length (deref (heap w) e.2) ≤ 1) assignment →
  backtrack (S n) assignment w =
  (set_counters (count_backtrack w + 1) (count_failures w) w,
   if decide (Forall (λ e, length (deref (heap w) e.2) = 1) assignment)
   then Ok (Solution assignment) else Raise KeyError).
Proof.
  intros Hle. cbn [backtrack].
  rewrite (bind_Ok _ _ w (set_counters (count_backtrack w + 1)
                            (count_failures w) w) tt eq_refl).
  rewrite (bind_Ok _ _ _ _ _ (all_decided_run _ _)). cbn [heap set_counters].
  destruct (decide (Forall _ assignment)) as [Hall|Hnall].
  - by rewrite bool_decide_eq_true_2.
  - rewrite bool_decide_eq_false_2 by done.
    by rewrite (bind_Ok _ _ _ _ _
                  (select_unassigned_variable_None assignment
                     (set_counters (count_backtrack w + 1)
                        (count_failures w) w) Hle)).
Qed.

(** ** The counters *)

Lemma wp_any {A} (m : @M Var Val A) w : wp m w (λ _ _, True).
Proof. done. Qed.

Lemma deepcopy_counters d w :
  wp (deepcopy d) w (λ w' r, count_backtrack w' = count_backtrack w ∧
                             count_failures w' = count_failures w ∧
                             ∃ d', r = Ok d').
Proof.
  destruct (deepcopy_fresh d w) as (d' & ext & Hrun & _).
  unfold wp. rewrite Hrun. eauto.
Qed.

Lemma inference_counters assignment queue w :
  wp (inference assignment queue) w
     (λ w' r, count_backtrack w' = count_backtrack w ∧
              count_failures w' = count_failures w ∧ r ≠ OutOfFuel).
Proof.
  eapply wp_mono; [apply inference_spec|].
  by intros w' r [[_ ? ? _ _ _] ?].
Qed.

Lemma remove_counters l x w :
  wp (remove l x) w (λ w' r, count_backtrack w' = count_backtrack w ∧
                             count_failures w' = count_failures w).
Proof. apply wp_remove. by destruct (list_remove_first _ _). Qed.

Lemma try_value_counts
    (rec : dict Var loc → M (answer (dict Var loc)))
    variable value assignment w :
  (∀ a w0, wp (rec a) w0 (λ w' r, counts w0 w' r)) →
  wp (try_value rec variable value assignment) w
     (λ w' r,
        count_failures w ≤ count_failures w' ∧
        count_failures w' + count_backtrack w
        ≤ count_backtrack w' + count_failures w ∧
        ∀ result assignment', r = Ok (Some result, assignment') →
          (∃ a', result = Solution a') ∧
          count_failures w' + count_backtrack w
          < count_backtrack w' + count_failures w).
Proof.
  intros Hrec. unfold try_value. apply wp_bind_alloc. cbv zeta.
  set (w1 := set_heap (heap w ++ [[value]]) w).
  eapply wp_seq; [apply deepcopy_counters|..]; cbv beta;
    [|by intros w2 e (_ & _ & [? ?])|by intros w2 (_ & _ & [? ?])].
  intros w2 copy (Hb2 & Hf2 & _). unfold w1 in Hb2, Hf2.
  cbn [set_heap count_backtrack count_failures] in Hb2, Hf2.
  destruct (get_all_arcs_pure w2) as [arcs Harcs].
  apply (wp_bind_Ok _ _ _ _ _ _ Harcs).
  eapply wp_seq; [apply inference_counters|..]; cbv beta.
  - intros w3 inferences (Hb3 & Hf3 & _).
    destruct inferences; [|apply wp_ret; split_and!; [lia|lia|done]].
    eapply wp_seq; [apply Hrec|..]; cbv beta.
    + intros w4 result (Hle & Hcount & Hsol & _). apply wp_ret.
      split_and!; [lia|lia|]. intros result' a' [= Hres _].
      destruct result as [a0|]; cbn in Hres; [|done].
      destruct a0; [done|]. injection Hres as <-. split; [by eexists|].
      specialize (Hsol _ eq_refl). lia.
    + intros w4 e (Hle & Hcount & _). split_and!; [lia|lia|done].
    + intros w4 (Hle & Hcount & _). split_and!; [lia|lia|done].
  - intros w3 e (Hb3 & Hf3 & _). split_and!; [lia|lia|done].
  - by intros w3 (_ & _ & ?).
Qed.

Lemma backtrack_loop_counts
    (rec : dict Var loc → M (answer (dict Var loc))) :
  (∀ a w0, wp (rec a) w0 (λ w' r, counts w0 w' r)) →
  ∀ n variable values idx assignment w,
    wp (backtrack_loop rec n variable values idx assignment) w
       (λ w' r,
          count_failures w ≤ count_failures w' ∧
          match r with
          | Ok (Failure, _) =>
              count_failures w < count_failures w' ∧
              count_failures w' + count_backtrack w
              ≤ count_backtrack w' + count_failures w + 1
          | Ok (Solution _, _) =>
              count_failures w' + count_backtrack w
              < count_backtrack w' + count_failures w
          | _ =>
              count_failures w' + count_backtrack w
              ≤ count_backtrack w' + count_failures w
          end).
Proof.
  intros Hrec n. induction n as [|n IH];
    intros variable values idx assignment w; [unfold wp; cbn; lia|].
  cbn [backtrack_loop]. wp_read.
  destruct (deref (heap w) values !! idx) as [value|].
  2:{ apply wp_bind. unfold wp, count_failure, ret. cbn. lia. }
  destruct (consistent_loop_pure assignment variable value
              (dkeys assignment) w) as (r & Hr & Hfuel).
  destruct r as [consistent|e|];
    [|unfold wp, bind; rewrite Hr; cbn; lia|done].
  apply (wp_bind_Ok _ _ _ _ _ _ Hr).
  eapply wp_seq with (R := λ w' r,
      count_failures w ≤ count_failures w' ∧
      count_failures w' + count_backtrack w
      ≤ count_backtrack w' + count_failures w ∧
      ∀ result assignment', r = Ok (Some result, assignment') →
        (∃ a', result = Solution a') ∧
        count_failures w' + count_backtrack w
        < count_backtrack w' + count_failures w).
  { destruct consistent; [by apply try_value_counts|].
    apply wp_ret. split_and!; [lia|lia|done]. }
  all: cbv beta.
  - intros w1 [[result|] assignment'] (Hle1 & Hc1 & Hsome).
    + destruct (Hsome _ _ eq_refl) as [[a' ->] Hlt]. apply wp_ret.
      split; [lia|done].
    + wp_getitem. destruct (dget variable assignment') as [l|]; [|by split].
      eapply wp_seq; [apply remove_counters|..]; cbv beta.
      * intros w2 u [Hb2 Hf2]. eapply wp_mono; [apply IH|]. cbv beta.
        intros w3 r3 [Hle3 Hr3]. split; [lia|].
        destruct r3 as [[[a'|] ?]|e|]; lia.
      * intros w2 e [Hb2 Hf2]. split; lia.
      * intros w2 [Hb2 Hf2]. split; lia.
  - intros w1 e (Hle1 & Hc1 & _). by split.
  - intros w1 (Hle1 & Hc1 & _). by split.
Qed.

Lemma backtrack_counts n assignment w :
  wp (backtrack n assignment) w (λ w' r, counts w w' r).
Proof.
  revert assignment w. induction n as [|n IH]; intros assignment w.
  { unfold wp, counts. cbn. split_and!; [lia|lia|done|done]. }
  cbn [backtrack].
  apply (wp_bind_Ok _ _ _ (set_counters (count_backtrack w + 1)
                             (count_failures w) w) tt _ eq_refl).
  set (w1 := set_counters _ _ w).
  destruct (all_decided_pure assignment w1) as [finished Hfin].
  apply (wp_bind_Ok _ _ _ _ _ _ Hfin).
  destruct finished.
  { apply wp_ret. unfold counts. cbn. split_and!; [lia|lia| |done].
    intros _ _. lia. }
  destruct (select_unassigned_variable_pure assignment w1) as [o Hsel].
  apply (wp_bind_Ok _ _ _ _ _ _ Hsel).
  destruct o as [variable|].
  2:{ apply wp_raise. unfold counts. cbn. split_and!; [lia|lia|done|done]. }
  wp_getitem. destruct (dget variable assignment) as [values|].
  2:{ unfold counts. cbn. split_and!; [lia|lia|done|done]. }
  wp_read.
  eapply wp_seq; [apply (backtrack_loop_counts (backtrack n) IH)|..];
    cbv beta.
  - intros w2 [result acur] [Hle Hr]. apply wp_ret. unfold counts.
    unfold w1 in *. cbn [fst count_backtrack count_failures set_counters] in *.
    destruct result as [a'|].
    + split_and!; [lia|lia|intros; lia|done].
    + split_and!; [lia|lia|done|intros; lia].
  - intros w2 e [Hle Hr]. unfold counts.
    unfold w1 in *. cbn [count_backtrack count_failures set_counters] in *.
    split_and!; [lia|lia|done|done].
  - intros w2 [Hle Hr]. unfold counts.
    unfold w1 in *. cbn [count_backtrack count_failures set_counters] in *.
    split_and!; [lia|lia|done|done].
Qed.

(** X18.  After [backtracking_search], whatever it returned or raised,
    [count_failures] is at most [count_backtrack], whatever the counters were
    before; it is smaller when an assignment was returned, and at least one
    when [False] was returned. *)
Theorem backtracking_search_counters w :
  count_failures (backtracking_search w).1
  ≤ count_backtrack (backtracking_search w).1 ∧
  (∀ assignment, (backtracking_search w).2 = Ok (Solution assignment) →
     count_failures (backtracking_search w).1
     < count_backtrack (backtracking_search w).1) ∧
  ((backtracking_search w).2 = Ok Failure →
     1 ≤ count_failures (backtracking_search w).1).
Proof.
  change (wp backtracking_search w (λ w' r,
    count_failures w' ≤ count_backtrack w' ∧
    (∀ assignment, r = Ok (Solution assignment) →
       count_failures w' < count_backtrack w') ∧
    (r = Ok Failure → 1 ≤ count_failures w'))).
  unfold backtracking_search.
  apply (wp_bind_Ok _ _ _ (set_counters 0 0 w) tt _ eq_refl).
  set (w1 := set_counters 0 0 w). wp_get_self.
  eapply wp_seq; [apply deepcopy_counters|..]; cbv beta;
    [|by intros w2 e (_ & _ & [? ?])|by intros w2 (_ & _ & [? ?])].
  intros w2 assignment (Hb2 & Hf2 & _). unfold w1 in Hb2, Hf2.
  cbn [set_counters count_backtrack count_failures] in Hb2, Hf2.
  destruct (get_all_arcs_pure w2) as [arcs Harcs].
  apply (wp_bind_Ok _ _ _ _ _ _ Harcs).
  eapply wp_seq; [apply inference_counters|..]; cbv beta.
  - intros w3 inferences (Hb3 & Hf3 & _).
    pose proof (backtrack_counts (S (assignment_size (heap w3) assignment))
                  assignment w3) as Hc.
    unfold wp, counts in *. cbv beta.
    destruct Hc as (Hle & Hcount & Hsol & Hfail).
    split_and!; [lia| |intros Hr; specialize (Hfail Hr); lia].
    intros a' Hr. specialize (Hsol _ Hr). lia.
  - intros w3 e (Hb3 & Hf3 & _). split_and!; [lia|done|done].
  - by intros w3 (_ & _ & ?).
Qed.

(** ** What a returned assignment holds *)

Lemma prunes_refl w : prunes w w.
Proof. by split. Qed.

Lemma prunes_trans w1 w2 w3 : prunes w1 w2 → prunes w2 w3 → prunes w1 w3.
Proof.
  intros [Hl1 Hd1] [Hl2 Hd2]. split; [lia|].
  intros l Hl. etrans; [apply Hd2; lia|by apply Hd1].
Qed.

Lemma prunes_extend ext w : prunes w (set_heap (heap w ++ ext) w).
Proof.
  split; simpl; [rewrite length_app; lia|].
  intros l Hl. by rewrite deref_app_l.
Qed.

Lemma shrinks_prunes locs w w' : shrinks locs w w' → prunes w w'.
Proof. intros [_ _ _ Hlen Hsub _]. split; [lia|]. intros l _. apply Hsub. Qed.

Lemma wp_remove_prunes l x w :
  wp (remove l x) w (λ w' r, prunes w w').
Proof.
  apply wp_remove.
  destruct (list_remove_first x (deref (heap w) l)) as [L'|] eqn:HL';
    [|apply prunes_refl].
  apply list_remove_first_Some in HL' as [_ Hsub].
  split; simpl; [by rewrite length_insert|].
  intros l' Hl'. destruct (decide (l = l')) as [<-|Hne].
  - by rewrite deref_insert_eq.
  - by rewrite deref_insert_ne.
Qed.

Lemma prunes_elem_of w w' l x :
  prunes w w' → l < length (heap w) →
  x ∈ deref (heap w') l → x ∈ deref (heap w) l.
Proof. intros [_ Hd] Hl Hx. eapply elem_of_sublist; [done|by apply Hd]. Qed.

(** One candidate: a solution the recursive call returns gives [variable]
    the candidate, and every other variable a value of its list. *)
Lemma try_value_picks
    (rec : dict Var loc → M (answer (dict Var loc)))
    variable value assignment w :
  (∀ a w0, in_range (heap w0) a →
           wp (rec a) w0 (λ w' r, prunes w0 w' ∧
             ∀ a', r = Ok (Solution a') → picks w0 a w' a')) →
  in_range (heap w) assignment → variable ∈ dkeys assignment →
  wp (try_value rec variable value assignment) w
     (λ w' r,
        prunes (set_heap (heap w ++ [[value]]) w) w' ∧
        ∀ found assignment', r = Ok (found, assignment') →
          assignment' = dset variable (length (heap w)) assignment ∧
          ∀ result, found = Some result →
            ∃ a', result = Solution a' ∧ dkeys a' = dkeys assignment ∧
              ∀ v l', dget v a' = Some l' →
                ∃ x, deref (heap w') l' = [x] ∧
                     if decide (v = variable) then x = value
                     else ∃ l, dget v assignment = Some l ∧
                               x ∈ deref (heap w) l).
Proof.
  intros Hrec Hrange Hvar. unfold try_value. apply wp_bind_alloc.
  set (l0 := length (heap w)).
  set (w1 := set_heap (heap w ++ [[value]]) w).
  set (assignment1 := dset variable l0 assignment). cbv zeta.
  destruct (proj2 (dget_is_Some variable assignment) Hvar) as [lv Hlv].
  assert (Hlen1 : length (heap w1) = S l0)
    by (unfold w1; rewrite heap_set_heap, length_app; simpl; lia).
  assert (Hkeys1 : dkeys assignment1 = dkeys assignment)
    by by eapply dkeys_dset_present.
  assert (Hr1 : in_range (heap w1) assignment1).
  { apply in_range_dset; [lia|]. by apply in_range_app. }
  destruct (deepcopy_content assignment1 w1 Hr1)
    as (copy & ext & Hcopy & Hsnap & Hfresh).
  apply (wp_bind_Ok _ _ _ _ _ _ Hcopy).
  set (w2 := set_heap (heap w1 ++ ext) w1) in *.
  change (heap w1 ++ ext) with (heap w2) in Hsnap, Hfresh.
  assert (Hp2 : prunes w1 w2) by apply prunes_extend.
  assert (Hr2 : in_range (heap w2) copy).
  { eapply Forall_impl; [apply Hfresh|]. intros l' Hl'.
    cbv beta in Hl'. lia. }
  destruct (get_all_arcs_pure w2) as [arcs Harcs].
  apply (wp_bind_Ok _ _ _ _ _ _ Harcs).
  eapply wp_seq; [apply inference_spec|..]; cbv beta.
  - intros w3 inferences [Hs3 _].
    assert (Hp3 : prunes w1 w3)
      by (eapply prunes_trans; [apply Hp2|by eapply shrinks_prunes]).
    destruct inferences; [|apply wp_ret; split; [done|by intros ?? [= <- <-]]].
    eapply wp_seq; [apply Hrec|..]; cbv beta.
    + eapply in_range_le; [|apply Hr2]. by destruct Hs3 as [_ _ _ -> _ _].
    + intros w4 result [Hp4 Hpicks]. apply wp_ret.
      split; [by eapply prunes_trans|].
      intros found a1 [= <- <-]. split; [done|].
      intros result' Hres.
      destruct result as [a'|]; cbn [truthy] in Hres; [|done].
      assert (result' = Solution a') as -> by (by destruct a'; simplify_eq).
      destruct (Hpicks _ eq_refl) as [Hkeys Hvals].
      exists a'. split; [done|]. split.
      { rewrite Hkeys, <-Hkeys1.
        by rewrite <-(snapshot_keys (heap w2) copy), Hsnap, snapshot_keys. }
      intros v l' Hl'. destruct (Hvals _ _ Hl') as (lc & x & Hlc & Hx & Hin).
      exists x. split; [done|].
      assert (Hin2 : x ∈ deref (heap w2) lc).
      { eapply elem_of_sublist; [done|]. by destruct Hs3. }
      pose proof (dget_snapshot (heap w2) v copy) as Hd2.
      rewrite Hsnap, dget_snapshot, Hlc in Hd2.
      destruct (dget v assignment1) as [l1|] eqn:Hl1; [|done].
      cbn [fmap option_fmap option_map] in Hd2.
      assert (Hd2' : deref (heap w1) l1 = deref (heap w2) lc) by congruence.
      rewrite <-Hd2' in Hin2.
      unfold assignment1 in Hl1.
      destruct (decide (v = variable)) as [->|Hne].
      * rewrite dget_dset_eq in Hl1. injection Hl1 as <-.
        unfold w1, l0 in Hin2. rewrite heap_set_heap, deref_app_length in Hin2.
        by apply list_elem_of_singleton in Hin2.
      * rewrite dget_dset_ne in Hl1 by done. exists l1. split; [done|].
        unfold w1 in Hin2. rewrite heap_set_heap, deref_app_l in Hin2; [done|].
        apply (dget_locs assignment v l1 (λ l, l < length (heap w)) Hl1 Hrange).
    + intros w4 e [Hp4 _]. split; [by eapply prunes_trans|done].
    + intros w4 [Hp4 _]. split; [by eapply prunes_trans|done].
  - intros w3 e [Hs3 _]. split; [|done].
    eapply prunes_trans; [apply Hp2|by eapply shrinks_prunes].
  - intros w3 [Hs3 _]. split; [|done].
    eapply prunes_trans; [apply Hp2|by eapply shrinks_prunes].
Qed.

Lemma backtrack_loop_picks
    (rec : dict Var loc → M (answer (dict Var loc)))
    assignment0 w0 variable values :
  (∀ a w, in_range (heap w) a →
          wp (rec a) w (λ w' r, prunes w w' ∧
            ∀ a', r = Ok (Solution a') → picks w a w' a')) →
  in_range (heap w0) assignment0 → dget variable assignment0 = Some values →
  ∀ n idx assignment w,
    prunes w0 w → in_range (heap w) assignment →
    dkeys assignment = dkeys assignment0 →
    (∀ v, v ≠ variable → dget v assignment = dget v assignment0) →
    wp (backtrack_loop rec n variable values idx assignment) w
       (λ w' r, prunes w0 w' ∧
                ∀ a' assignment', r = Ok (Solution a', assignment') →
                                  picks w0 assignment0 w' a').
Proof.
  intros Hrec Hrange0 Hvalues n. induction n as [|n IH];
    intros idx assignment w Hp Hrange Hkeys Hsame; [by split|].
  assert (Hvar : variable ∈ dkeys assignment).
  { rewrite Hkeys. apply dget_is_Some. eauto. }
  cbn [backtrack_loop]. wp_read.
  destruct (deref (heap w) values !! idx) as [value|] eqn:Hvalue.
  2:{ apply wp_bind. unfold wp, count_failure, ret. cbn. by split. }
  assert (Hin0 : value ∈ deref (heap w0) values).
  { eapply prunes_elem_of; [done| |by eapply list_elem_of_lookup_2].
    apply (dget_locs assignment0 variable values
             (λ l, l < length (heap w0)) Hvalues Hrange0). }
  destruct (consistent_loop_pure assignment variable value
              (dkeys assignment) w) as (r & Hr & Hfuel).
  destruct r as [consistent|e|];
    [|unfold wp, bind; rewrite Hr; by split|done].
  apply (wp_bind_Ok _ _ _ _ _ _ Hr).
  eapply wp_seq with (R := λ w' r,
      prunes w w' ∧
      ∀ found assignment', r = Ok (found, assignment') →
        in_range (heap w') assignment' ∧
        dkeys assignment' = dkeys assignment0 ∧
        (∀ v, v ≠ variable → dget v assignment' = dget v assignment0) ∧
        ∀ result, found = Some result →
          ∃ a', result = Solution a' ∧ picks w0 assignment0 w' a').
  { destruct consistent.
    - eapply wp_mono; [by apply try_value_picks|]. cbv beta.
      intros w1 r1 [Hp1' Hpost].
      assert (Hlt : length (heap w) < length (heap w1)).
      { destruct Hp1' as [Hlen _]. rewrite heap_set_heap, length_app in Hlen.
        simpl in Hlen. lia. }
      assert (Hp1 : prunes w w1)
        by (eapply prunes_trans; [apply prunes_extend|apply Hp1']).
      split; [done|].
      intros found a1 ->. destruct (Hpost _ _ eq_refl) as [-> Hfound].
      split_and!.
      + apply in_range_dset; [done|].
        eapply in_range_le; [|done]. by destruct Hp1.
      + destruct (proj2 (dget_is_Some variable assignment) Hvar) as [lv Hlv].
        by rewrite (dkeys_dset_present _ _ _ _ Hlv).
      + intros v Hv. rewrite dget_dset_ne by done. by apply Hsame.
      + intros result ->.
        destruct (Hfound _ eq_refl) as (a' & -> & Hk & Hvals).
        exists a'. split; [done|]. split; [by rewrite Hk|].
        intros v l' Hl'. destruct (Hvals _ _ Hl') as (x & Hx & Hcase).
        destruct (decide (v = variable)) as [->|Hne].
        * subst x. by exists values, value.
        * destruct Hcase as (l & Hl & Hinl). exists l, x.
          rewrite Hsame in Hl by done. split_and!; [done|done|].
          eapply prunes_elem_of; [done| |done].
          apply (dget_locs assignment0 v l
                   (λ l, l < length (heap w0)) Hl Hrange0).
    - apply wp_ret. split; [apply prunes_refl|].
      by intros found a1 [= <- <-]. }
  all: cbv beta.
  - intros w1 [found assignment'] [Hp1 Hpost].
    destruct (Hpost _ _ eq_refl) as (Hrange1 & Hkeys1 & Hsame1 & Hfound).
    destruct found as [result|].
    + destruct (Hfound _ eq_refl) as (a' & -> & Hpicks). apply wp_ret.
      split; [by eapply prunes_trans|]. by intros ?? [= <- _].
    + wp_getitem. destruct (dget variable assignment') as [l|];
        [|split; [by eapply prunes_trans|done]].
      eapply wp_seq; [apply wp_remove_prunes|..]; cbv beta.
      * intros w2 u Hp2. apply IH; [|by eapply in_range_le; [apply Hp2|]|done..].
        eauto using prunes_trans.
      * intros w2 e Hp2. split; [eauto using prunes_trans|done].
      * intros w2 Hp2. split; [eauto using prunes_trans|done].
  - intros w1 e [Hp1 _]. split; [by eapply prunes_trans|done].
  - intros w1 [Hp1 _]. split; [by eapply prunes_trans|done].
Qed.

Lemma backtrack_picks n assignment w :
  in_range (heap w) assignment →
  wp (backtrack n assignment) w
     (λ w' r, prunes w w' ∧
              ∀ a', r = Ok (Solution a') → picks w assignment w' a').
Proof.
  revert assignment w. induction n as [|n IH]; intros assignment w Hrange;
    [by split; [apply prunes_refl|]|].
  cbn [backtrack].
  apply (wp_bind_Ok _ _ _ (set_counters (count_backtrack w + 1)
                             (count_failures w) w) tt _ eq_refl).
  set (w1 := set_counters _ _ w).
  assert (Hp1 : prunes w w1) by by split.
  destruct (all_decided_pure assignment w1) as [finished Hfin].
  apply (wp_bind_Ok _ _ _ _ _ _ Hfin).
  destruct finished.
  { apply wp_ret. split; [done|]. intros a' [= <-]. split; [done|].
    intros v l Hl. apply all_decided_true in Hfin.
    pose proof (dget_locs assignment v l _ Hl Hfin) as Hlen. cbv beta in Hlen.
    change (heap w1) with (heap w) in *.
    destruct (deref (heap w) l) as [|x [|??]] eqn:HL; [done| |done].
    exists l, x. split_and!; [done|done|rewrite HL; left]. }
  destruct (select_unassigned_variable_pure assignment w1) as [o Hsel].
  apply (wp_bind_Ok _ _ _ _ _ _ Hsel).
  destruct o as [variable|]; [|by apply wp_raise].
  wp_getitem. destruct (dget variable assignment) as [values|] eqn:Hvalues;
    [|done].
  wp_read.
  eapply wp_seq;
    [apply (backtrack_loop_picks (backtrack n) assignment w1 variable values
              IH Hrange Hvalues); [apply prunes_refl|done|done|done]|..];
    cbv beta.
  - intros w2 [result acur] [Hp2 Hpicks]. apply wp_ret.
    split; [done|]. intros a' Hres. cbn [fst] in Hres.
    injection Hres as ->. by eapply Hpicks.
  - by intros w2 e [Hp2 _].
  - by intros w2 [Hp2 _].
Qed.

(** X19.  An assignment [backtracking_search] returns has the variables of
    [self.domains], in the same order, each bound to a list of exactly one
    value, and that value is in the domain of the variable: the search
    invents no value and leaves no variable out. *)
Theorem backtracking_search_solution w w' assignment :
  in_range (heap w) (domains (self w)) →
  backtracking_search w = (w', Ok (Solution assignment)) →
  dkeys assignment = dkeys (domains (self w)) ∧
  ∀ v l, dget v assignment = Some l →
         ∃ x, deref (heap w') l = [x] ∧ x ∈ domain_of w v.
Proof.
  intros Hrange Hrun.
  assert (Hwp : wp backtracking_search w (λ w' r,
    ∀ a', r = Ok (Solution a') →
          dkeys a' = dkeys (domains (self w)) ∧
          ∀ v l, dget v a' = Some l →
                 ∃ x, deref (heap w') l = [x] ∧ x ∈ domain_of w v)).
  2:{ unfold wp in Hwp. rewrite Hrun in Hwp. by apply Hwp. }
  clear Hrun. unfold backtracking_search.
  apply (wp_bind_Ok _ _ _ (set_counters 0 0 w) tt _ eq_refl).
  set (w1 := set_counters 0 0 w). wp_get_self.
  destruct (deepcopy_content (domains (self w1)) w1 Hrange)
    as (copy & ext & Hcopy & Hsnap & Hfresh).
  apply (wp_bind_Ok _ _ _ _ _ _ Hcopy).
  set (w2 := set_heap (heap w1 ++ ext) w1) in *.
  change (heap w1 ++ ext) with (heap w2) in Hsnap, Hfresh.
  destruct (get_all_arcs_pure w2) as [arcs Harcs].
  apply (wp_bind_Ok _ _ _ _ _ _ Harcs).
  eapply wp_seq; [apply inference_spec|..]; cbv beta; [|done..].
  intros w3 inferences [Hs3 _].
  assert (Hr3 : in_range (heap w3) copy).
  { destruct Hs3 as [_ _ _ Hlen _ _]. unfold in_range. rewrite Hlen.
    eapply Forall_impl; [apply Hfresh|]. intros l' Hl'.
    cbv beta in Hl'. lia. }
  pose proof (backtrack_picks (S (assignment_size (heap w3) copy)) copy w3
                Hr3) as [_ Hpicks].
  unfold wp. cbv beta. intros a' Hres.
  destruct (Hpicks _ Hres) as [Hkeys Hvals]. split.
  { rewrite Hkeys.
    by rewrite <-(snapshot_keys (heap w2) copy), Hsnap, snapshot_keys. }
  intros v l Hl. destruct (Hvals _ _ Hl) as (lc & x & Hlc & Hx & Hin).
  exists x. split; [done|].
  assert (Hin2 : x ∈ deref (heap w2) lc).
  { eapply elem_of_sublist; [done|]. by destruct Hs3. }
  pose proof (dget_snapshot (heap w2) v copy) as Hd2.
  rewrite Hsnap, Hlc in Hd2. cbn [fmap option_fmap option_map] in Hd2.
  unfold domain_of. change (heap w) with (heap w1).
  change (self w) with (self w1). by rewrite Hd2.
Qed.

(** X20.  [backtracking_search] terminates on every CSP built by calls of
    [add_variable], [add_constraint_one_way] and
    [add_all_different_constraint]: the recursion of [backtrack] is never
    deeper than the number of values the assignment holds after the first
    [inference], plus one. *)
Theorem backtracking_search_terminates (calls : list (@call Var Val)) :
  (backtracking_search (build (run_call <$> calls))).2 ≠ OutOfFuel.
Proof.
  destruct (run_calls_well_formed calls) as (Hnodup & _ & _ & Hrange & _).
  by apply backtracking_search_adequate.
Qed.

(** ** The consistency check of [backtrack] *)

Lemma existsb_pair_in value ys (pairs : list (Val * Val)) :
  existsb (λ pair, pair_in pair pairs) (get_all_possible_pairs [value] ys)
  = bool_decide (Exists (λ y, (value, y) ∈ pairs) ys).
Proof.
  unfold get_all_possible_pairs. cbn [flat_map]. rewrite app_nil_r.
  induction ys as [|y ys IH]; cbn [map existsb].
  - rewrite bool_decide_eq_false_2; [done|]. by intros ?%Exists_nil.
  - rewrite IH. unfold pair_in.
    destruct (decide ((value, y) ∈ pairs)) as [Hin|Hnin].
    + rewrite (bool_decide_eq_true_2 _ Hin). cbn [orb]. symmetry.
      apply bool_decide_eq_true_2. by left.
    + rewrite (bool_decide_eq_false_2 _ Hnin). cbn [orb].
      apply bool_decide_ext. rewrite Exists_cons. tauto.
Qed.

Lemma consistent_loop_run assignment variable value others w cv :
  dget variable (constraints (self w)) = Some cv →
  Forall (λ o, o ∈ dkeys assignment) others →
  consistent_loop assignment variable value others w =
  (w, Ok (bool_decide
            (Forall (has_partner w assignment cv variable value) others))).
Proof.
  intros Hcv. induction 1 as [|o others Ho _ IH]; cbn [consistent_loop].
  { by rewrite bool_decide_eq_true_2. }
  destruct (decide (o ≠ variable)) as [Hne|Heq].
  - rewrite bind_get_self, (bind_getitem_Some _ _ _ _ _ Hcv).
    destruct (dget o cv) as [pairs|] eqn:Hpairs.
    + apply dget_is_Some in Ho as [lo Hlo].
      rewrite (bind_getitem_Some _ _ _ _ _ Hlo), bind_read, existsb_pair_in.
      destruct (decide (Exists (λ y, (value, y) ∈ pairs) (deref (heap w) lo)))
        as [Hex|Hnex].
      * rewrite (bool_decide_eq_true_2 _ Hex), IH. do 2 f_equal.
        apply bool_decide_ext. rewrite Forall_cons.
        split; [|by intros [_ ?]].
        intros Hall. split; [|done]. right. by rewrite Hpairs, Hlo.
      * rewrite (bool_decide_eq_false_2 _ Hnex).
        rewrite bool_decide_eq_false_2; [done|].
        intros [[?|Hhead] _]%Forall_cons; [done|].
        by rewrite Hpairs, Hlo in Hhead.
    + rewrite IH. do 2 f_equal. apply bool_decide_ext. rewrite Forall_cons.
      split; [|by intros [_ ?]].
      intros Hall. split; [|done]. right. by rewrite Hpairs.
  - rewrite IH. do 2 f_equal. apply bool_decide_ext. rewrite Forall_cons.
    split; [|by intros [_ ?]].
    intros Hall. split; [|done]. left. by apply dec_stable.
Qed.

(** X21.  The consistency check of [backtrack] for a candidate [value] of
    [variable] changes nothing, and accepts the candidate exactly when, for
    every other variable of the assignment to which [variable] has a
    constraint, the value has a partner in that variable's list. *)
Theorem consistent_loop_spec assignment variable value w cv :
  dget variable (constraints (self w)) = Some cv →
  ∃ consistent,
    consistent_loop assignment variable value (dkeys assignment) w
    = (w, Ok consistent) ∧
    (consistent = true ↔
       ∀ other pairs lo,
         other ≠ variable → dget other cv = Some pairs →
         dget other assignment = Some lo →
         ∃ y, y ∈ deref (heap w) lo ∧ (value, y) ∈ pairs).
Proof.
  intros Hcv. eexists. split.
  { apply (consistent_loop_run _ _ _ _ _ _ Hcv). by apply Forall_forall. }
  rewrite bool_decide_eq_true, Forall_forall. split.
  - intros Hall other pairs lo Hne Hpairs Hlo.
    destruct (Hall other) as [?|Hp]; [apply dget_is_Some; eauto|done|].
    rewrite Hpairs, Hlo in Hp. by apply Exists_exists.
  - intros Hall other _. destruct (decide (other = variable)); [by left|].
    right. destruct (dget other cv) as [pairs|] eqn:Hpairs; [|done].
    destruct (dget other assignment) as [lo|] eqn:Hlo; [|done].
    apply Exists_exists. eauto.
Qed.

(** ** All-different constraints on the units of a board *)

Lemma for_each_app {A} (l1 l2 : list A) (body : A → @M Var Val unit) w :
  for_each (l1 ++ l2) body w
  = bind (for_each l1 body) (λ _, for_each l2 body) w.
Proof.
  revert w. induction l1 as [|a l1 IH]; intros w; [done|].
  cbn [for_each app]. unfold bind in *.
  destruct (body a w) as [w1 [[]|e|]]; [|done|done]. apply IH.
Qed.

Lemma constraint_of_unconstrained c i j :
  unconstrained c → constraint_of c i j = None.
Proof.
  unfold unconstrained, constraint_of. intros Hc.
  destruct (dget i (constraints c)) as [ci|] eqn:Hci; [|done].
  apply dget_Some_elem_of in Hci. rewrite Forall_forall in Hc.
  apply Hc in Hci. cbn [snd] in Hci. by subst ci.
Qed.

Lemma domain_of_set_self w c' v :
  domains c' = domains (self w) → domain_of (set_self c' w) v = domain_of w v.
Proof. intros Hd. unfold domain_of. cbn [self set_self heap]. by rewrite Hd. Qed.

Lemma for_each_all_different (prior units : list (list Var)) w :
  Forall (Forall (declared w)) units →
  (∀ i j, constraint_of (self w) i j =
          if decide (peers prior i j)
          then Some (filter (λ p, bool_decide (p.1 ≠ p.2))
                       (get_all_possible_pairs (domain_of w i)
                                               (domain_of w j)))
          else None) →
  ∃ c', for_each units add_all_different_constraint w
        = (set_self c' w, Ok tt) ∧
        variables c' = variables (self w) ∧ domains c' = domains (self w) ∧
        dkeys (constraints c') = dkeys (constraints (self w)) ∧
        ∀ i j, constraint_of c' i j =
               if decide (peers (prior ++ units) i j)
               then Some (filter (λ p, bool_decide (p.1 ≠ p.2))
                            (get_all_possible_pairs (domain_of w i)
                                                    (domain_of w j)))
               else None.
Proof.
  revert prior w. induction units as [|u units IH]; intros prior w Hunits Hinv.
  { exists (self w). rewrite app_nil_r. split; [by destruct w|done]. }
  apply Forall_cons in Hunits as [Hu Hunits]. cbn [for_each].
  pose proof Hu as Hu'. rewrite Forall_forall in Hu'.
  destruct (add_all_different_loop_spec (get_all_possible_pairs u u) w)
    as (c1 & Hrun1 & Hv1 & Hd1 & Hk1 & Hc1).
  { apply Forall_forall. intros [a b] Hab.
    apply elem_of_get_all_possible_pairs in Hab as [Ha Hb].
    split; by apply Hu'. }
  unfold add_all_different_constraint at 1.
  rewrite (bind_Ok _ _ _ _ _ Hrun1).
  destruct (IH (prior ++ [u]) (set_self c1 w)) as (c' & Hrun & Hv & Hd & Hk & Hc).
  { eapply Forall_impl; [apply Hunits|]. intros u' Hu''.
    eapply Forall_impl; [apply Hu''|]. intros v Hv.
    by apply declared_set_self. }
  { intros i j. cbn [self set_self]. rewrite !domain_of_set_self by done.
    rewrite Hc1, Hinv.
    destruct (decide ((i, j) ∈ get_all_possible_pairs u u ∧ i ≠ j))
      as [[Hin Hne]|Hnin].
    - apply elem_of_get_all_possible_pairs in Hin as [Hi Hj].
      rewrite decide_True.
      2:{ split; [done|]. apply Exists_app. right. by left. }
      unfold constraint_base. rewrite Hinv.
      destruct (Hu' _ Hi) as [_ [li Hli]]. destruct (Hu' _ Hj) as [_ [lj Hlj]].
      rewrite Hli, Hlj, (domain_of_Some _ _ _ Hli), (domain_of_Some _ _ _ Hlj).
      destruct (decide (peers prior i j)); cbn [fmap option_fmap option_map];
        [|done].
      by rewrite differ_idemp.
    - destruct (decide (peers prior i j)) as [[Hne Hex]|Hnp].
      + rewrite decide_True; [done|]. split; [done|].
        apply Exists_app. by left.
      + rewrite decide_False; [done|]. intros [Hne Hex].
        apply Exists_app in Hex as [Hex|Hex]; [by apply Hnp|].
        apply Exists_cons in Hex as [[Hi Hj]|Hex]; [|by apply Exists_nil in Hex].
        apply Hnin. split; [|done]. by apply elem_of_get_all_possible_pairs. }
  exists c'. split; [exact Hrun|].
  split_and!; [by etrans; [apply Hv|apply Hv1]|by etrans; [apply Hd|apply Hd1]
              |by etrans; [apply Hk|apply Hk1]|].
  intros i j. rewrite Hc, <-app_assoc. cbn [app].
  by rewrite !domain_of_set_self.
Qed.

(** ** [get_all_neighboring_arcs] when every arc has its reverse *)

(** X22.  On a CSP in which every arc has its reverse,
    [get_all_neighboring_arcs var] changes nothing and returns exactly the
    arcs that go into [var]: the arcs [(k, var)] for which a constraint is
    stored.  (It reads the constraints declared from [var]; it is the
    reverses that make them the arcs into [var].) *)
Theorem get_all_neighboring_arcs_symmetric w var :
  Forall (λ arc, is_Some (constraint_of (self w) arc.2 arc.1))
         (all_arcs (self w)) →
  is_Some (dget var (constraints (self w))) →
  ∃ arcs, get_all_neighboring_arcs var w = (w, Ok arcs) ∧
          ∀ k j, (k, j) ∈ arcs
                 ↔ j = var ∧ is_Some (constraint_of (self w) k var).
Proof.
  intros Hsym [cvar Hvar]. rewrite Forall_forall in Hsym.
  eexists. split; [by apply get_all_neighboring_arcs_spec|].
  intros k j. rewrite list_elem_of_fmap. split.
  - intros (k' & [= -> ->] & Hk). split; [done|].
    apply (Hsym (var, k')). by eapply elem_of_all_arcs.
  - intros [-> Hc]. exists k. split; [done|].
    pose proof Hc as [ckv Hckv]. unfold constraint_of in Hckv.
    destruct (dget k (constraints (self w))) as [ck|] eqn:Hck; [|done].
    assert (Harc : (k, var) ∈ all_arcs (self w)).
    { eapply elem_of_all_arcs; [done|]. apply dget_is_Some. eauto. }
    apply Hsym in Harc as [cvk Hcvk]. cbn [fst snd] in Hcvk.
    unfold constraint_of in Hcvk. rewrite Hvar in Hcvk.
    apply dget_is_Some. eauto.
Qed.

(** ** The first pass of AC-3 *)

(** The copy of a dictionary of distinct list objects holds distinct list
    objects. *)
Lemma deepcopy_loop_NoDup memo d w :
  NoDup d.*2 → Forall (λ l, dget l memo = None) d.*2 →
  ∃ d' ext, deepcopy_loop memo d w = (set_heap (heap w ++ ext) w, Ok d') ∧
            NoDup d'.*2 ∧ Forall (λ l', length (heap w) ≤ l') d'.*2.
Proof.
  revert memo w. induction d as [|[k l] d IH]; intros memo w Hnodup Hmemo.
  { exists [], []. rewrite app_nil_r, set_heap_id. split_and!; [done| |done].
    constructor. }
  rewrite fmap_cons in Hnodup, Hmemo. cbn [snd] in *.
  apply NoDup_cons in Hnodup as [Hl Hnodup].
  apply Forall_cons in Hmemo as [Hlm Hmemo].
  cbn [deepcopy_loop]. rewrite Hlm, bind_read.
  unfold bind at 1, alloc at 1. cbv beta iota.
  set (w1 := set_heap (heap w ++ [deref (heap w) l]) w).
  destruct (IH ((l, length (heap w)) :: memo) w1)
    as (d' & ext & Heq & Hnd & Hfresh); [done| |].
  { apply Forall_forall. intros l' Hl'. cbn [dget].
    rewrite decide_False by (by intros ->).
    rewrite Forall_forall in Hmemo. by apply Hmemo. }
  exists ((k, length (heap w)) :: d'), ([deref (heap w) l] ++ ext).
  assert (Hlen1 : length (heap w1) = S (length (heap w)))
    by (unfold w1; rewrite heap_set_heap, length_app; simpl; lia).
  split_and!.
  - rewrite (bind_Ok _ _ _ _ _ Heq). unfold ret, w1, set_heap. simpl.
    by rewrite <-app_assoc.
  - rewrite fmap_cons. apply NoDup_cons. split; [|done]. cbn [snd].
    intros Hin. rewrite Forall_forall in Hfresh. apply Hfresh in Hin. lia.
  - rewrite fmap_cons. constructor; [done|].
    eapply Forall_impl; [apply Hfresh|]. intros l' Hl'. cbv beta in Hl'. lia.
Qed.

Lemma within_snapshot (sol : Var → Val) w w' assignment assignment' :
  snapshot (heap w') assignment' = snapshot (heap w) assignment →
  within sol w assignment → within sol w' assignment'.
Proof.
  unfold within. intros Hsnap Hin.
  assert (H : ∀ h (a : dict Var loc),
            Forall (λ e, sol e.1 ∈ deref h e.2) a
            ↔ Forall (λ e, sol e.1 ∈ e.2) (snapshot h a)).
  { intros h a. unfold snapshot. by rewrite Forall_fmap. }
  apply H. rewrite Hsnap. by apply H.
Qed.

(** X23.  The first statements of [backtracking_search] keep every
    solution: on a [well_formed] CSP, when [sol] picks for each variable a
    value of its domain such that every stored constraint holds, and
    [inference] returns, then it returns [True], and the assignment it has
    pruned has the variables of [self.domains] and still holds the values
    [sol] picks. *)
Theorem root_inference_keeps_solutions (sol : Var → Val) w
    inferences assignment :
  well_formed w → solves sol (self w) → within sol w (domains (self w)) →
  (root_inference w).2 = Ok (inferences, assignment) →
  inferences = true ∧ within sol (root_inference w).1 assignment ∧
  dkeys assignment = dkeys (domains (self w)).
Proof.
  intros (_ & _ & Hlocs & Hrange & _) Hsol Hin.
  unfold root_inference. rewrite bind_get_self.
  destruct (deepcopy_content (domains (self w)) w Hrange)
    as (copy & ext & Hcopy & Hsnap & _).
  destruct (deepcopy_loop_NoDup [] (domains (self w)) w Hlocs)
    as (copy' & ext' & Hcopy' & Hnodup & _).
  { apply Forall_forall. by intros. }
  unfold deepcopy in Hcopy. rewrite Hcopy in Hcopy'.
  assert (copy' = copy) as -> by congruence. clear Hcopy'.
  rewrite (bind_Ok _ _ _ _ _ Hcopy).
  set (w2 := set_heap (heap w ++ ext) w) in *.
  change (heap w ++ ext) with (heap w2) in Hsnap.
  rewrite (bind_Ok _ _ _ _ _ (get_all_arcs_all_arcs w2)).
  destruct (inference_loop_within sol (inference_fuel w2 (all_arcs (self w2)))
              copy (all_arcs (self w2)) w2 Hnodup Hsol)
    as [Hin' Hnf];
    [apply (within_snapshot sol w w2 (domains (self w)) copy Hsnap Hin)|].
  unfold bind. fold (inference copy (all_arcs (self w2)) w2) in Hin', Hnf.
  destruct (inference copy (all_arcs (self w2)) w2) as [w3 [b|e|]];
    cbn [fst snd ret] in *; [|done|done].
  intros [= <- <-]. split_and!; [by destruct b|done|].
  by rewrite <-(snapshot_keys (heap w2) copy), Hsnap, snapshot_keys.
Qed.

(** ** A CSP whose variables are all decided *)

Lemma arc_consistent_snapshot w w' assignment assignment' arc :
  self w' = self w →
  snapshot (heap w') assignment' = snapshot (heap w) assignment →
  arc_consistent w assignment arc → arc_consistent w' assignment' arc.
Proof.
  intros Hself Hsnap. unfold arc_consistent. rewrite Hself.
  pose proof (dget_snapshot (heap w') arc.1 assignment') as H1.
  pose proof (dget_snapshot (heap w') arc.2 assignment') as H2.
  rewrite Hsnap, dget_snapshot in H1, H2.
  destruct (dget arc.1 assignment) as [li|],
           (dget arc.1 assignment') as [li'|]; try done.
  destruct (dget arc.2 assignment) as [lj|],
           (dget arc.2 assignment') as [lj'|]; try done.
  cbn in H1, H2. injection H1 as H1. injection H2 as H2.
  by rewrite H1, H2.
Qed.

(** X24.  On a CSP in which every domain has exactly one value and every
    arc is arc-consistent, [backtracking_search] returns that assignment,
    after one call of [backtrack] and no failure. *)
Theorem backtracking_search_decided w :
  in_range (heap w) (domains (self w)) →
  Forall (λ e, length (deref (heap w) e.2) = 1) (domains (self w)) →
  Forall (arc_consistent w (domains (self w))) (all_arcs (self w)) →
  ∃ w' assignment,
    backtracking_search w = (w', Ok (Solution assignment)) ∧
    snapshot (heap w') assignment = snapshot (heap w) (domains (self w)) ∧
    count_backtrack w' = 1 ∧ count_failures w' = 0.
Proof.
  intros Hrange Hone Harcs. unfold backtracking_search.
  rewrite (bind_Ok _ _ w (set_counters 0 0 w) tt eq_refl).
  set (w1 := set_counters 0 0 w). rewrite bind_get_self.
  destruct (deepcopy_content (domains (self w1)) w1 Hrange)
    as (copy & ext & Hcopy & Hsnap & _).
  rewrite (bind_Ok _ _ _ _ _ Hcopy).
  set (w2 := set_heap (heap w1 ++ ext) w1) in *.
  change (heap w1 ++ ext) with (heap w2) in Hsnap.
  rewrite (bind_Ok _ _ _ _ _ (get_all_arcs_all_arcs w2)).
  rewrite (bind_Ok _ _ _ _ _ (inference_fixed_point w2 copy _
             (Forall_impl _ _ _ Harcs
                (λ arc, arc_consistent_snapshot w w2 _ _ arc eq_refl Hsnap)))).
  assert (Hlen : Forall (λ e, length (deref (heap w2) e.2) = 1) copy).
  { assert (H : ∀ h (a : dict Var loc),
              Forall (λ e, length (deref h e.2) = 1) a
              ↔ Forall (λ e, length e.2 = 1) (snapshot h a)).
    { intros h a. unfold snapshot. by rewrite Forall_fmap. }
    apply H. rewrite Hsnap. by apply H. }
  cbn [backtrack].
  rewrite (bind_Ok _ _ w2 (set_counters (count_backtrack w2 + 1)
                             (count_failures w2) w2) tt eq_refl).
  rewrite (bind_Ok _ _ _ _ _ (all_decided_run _ _)). cbn [heap set_counters].
  rewrite bool_decide_eq_true_2 by done.
  eexists _, _. split; [reflexivity|]. by split_and!.
Qed.

End properties.

(** * The claims on the concrete problems *)

(** No builder script raises. *)
Lemma scripts_run_ok :
  runs_ok script_a123_b3 empty_world = true ∧
  runs_ok script_p12_q34 empty_world = true ∧
  runs_ok script_a1_b1 empty_world = true ∧
  runs_ok script_a1_b2 empty_world = true ∧
  runs_ok script_one_way empty_world = true ∧
  runs_ok script_free empty_world = true ∧
  runs_ok script_pigeon empty_world = true ∧
  runs_ok script_a102_b456_c7 empty_world = true ∧
  runs_ok script_map empty_world = true ∧
  runs_ok script_a1 empty_world = true.
Proof. repeat split; vm_compute; reflexivity. Qed.

(** On the map of Australia the search finds a colouring that satisfies
    every arc, in four calls of [backtrack] and without a failure. *)
Lemma map_coloring_solved :
  ∃ w' assignment,
    backtracking_search csp_map = (w', Ok (Solution assignment)) ∧
    snapshot (heap w') assignment
    = [ ("WA", [1]%Z); ("NT", [2]%Z); ("Q", [1]%Z); ("NSW", [2]%Z);
        ("V", [1]%Z); ("SA", [3]%Z); ("T", [1]%Z) ] ∧
    count_backtrack w' = 4 ∧ count_failures w' = 0 ∧
    ∃ arcs, (get_all_arcs csp_map).2 = Ok arcs ∧
            Forall (satisfies (self w') (snapshot (heap w') assignment)) arcs.
Proof.
  eexists _, _. split; [vm_compute; reflexivity|].
  split_and!; [vm_compute; reflexivity..|].
  eexists. split; [vm_compute; reflexivity|].
  apply (bool_decide_eq_true_1 _). vm_compute. reflexivity.
Qed.

(** C1 (the code does not do this).  On [csp_a123_b3], [inference] run on the
    copy of the domains with all arcs returns [True] and leaves [a] with
    [2, 3] and [b] with [3]: the value [2] of [a] has no partner in [b], so
    the declared arc [(a, b)] is not arc-consistent.  [revise] removed [1]
    from the list it was iterating, and the iterator stepped over [2]. *)
Theorem inference_keeps_unsupported_value :
  let run := root_inference csp_a123_b3 in
  let assignment := [("a", 2); ("b", 3)] in
  run.2 = Ok (true, assignment) ∧
  snapshot (heap run.1) assignment = [("a", [2; 3]%Z); ("b", [3]%Z)] ∧
  (get_all_arcs csp_a123_b3).2 = Ok [("a", "b"); ("b", "a")] ∧
  ¬ arc_consistent run.1 assignment ("a", "b").
Proof.
  cbv zeta. split_and!; [vm_compute; reflexivity..|].
  apply (bool_decide_eq_false_1 _). vm_compute. reflexivity.
Qed.

(** C2 (the code does not do this).  On [csp_p12_q34], which has no solution,
    [backtracking_search] returns the assignment [p = 2], [q = 4], and the
    pair [(2, 4)] is not in the pair-set of the declared arc [(p, q)]. *)
Theorem backtracking_search_returns_illegal_pair :
  let run := backtracking_search csp_p12_q34 in
  let assignment := [("p", 2); ("q", 3)] in
  run.2 = Ok (Solution assignment) ∧
  snapshot (heap run.1) assignment = [("p", [2]%Z); ("q", [4]%Z)] ∧
  (get_all_arcs csp_p12_q34).2 = Ok [("p", "q"); ("q", "p")] ∧
  ¬ satisfies (self run.1) (snapshot (heap run.1) assignment) ("p", "q").
Proof.
  cbv zeta. split_and!; [vm_compute; reflexivity..|].
  apply (bool_decide_eq_false_1 _). vm_compute. reflexivity.
Qed.

(** C3 (the code does not do this).  On [csp_a1_b1], [backtracking_search]
    raises [KeyError]: AC-3 empties the list of [a], its answer [False] is
    dropped, [select_unassigned_variable] finds no list longer than one and
    returns [None], and [assignment[None]] raises. *)
Theorem backtracking_search_raises_on_infeasible :
  (backtracking_search csp_a1_b1).2 = Raise KeyError.
Proof. vm_compute. reflexivity. Qed.

(** C4 (the code does not do this).  On [csp_a123_b3], [backtrack] is called
    with [a] in [2, 3] and [b] in [3] and selects [a].  The candidate [2]
    fails the consistency check and is removed from the list the loop
    iterates, the iterator steps over [3], and the loop ends in failure with
    [3] still in the list of [a]: the candidate [3] was never tried, though
    [a = 3], [b = 3] satisfies every arc, and the domain is not empty. *)
Theorem backtrack_loop_skips_candidate :
  let root := (root_inference csp_a123_b3).1 in
  let assignment := [("a", 2); ("b", 3)] in
  snapshot (heap root) assignment = [("a", [2; 3]%Z); ("b", [3]%Z)] ∧
  (select_unassigned_variable assignment root).2 = Ok (Some "a") ∧
  (let run := backtrack_loop (backtrack 4) 3 "a" 2 0 assignment root in
   run.2 = Ok (Failure, assignment) ∧
   snapshot (heap run.1) assignment = [("a", [3]%Z); ("b", [3]%Z)]) ∧
  (backtracking_search csp_a123_b3).2 = Ok Failure ∧
  Forall (satisfies (self csp_a123_b3) [("a", [3]%Z); ("b", [3]%Z)])
         [("a", "b"); ("b", "a")].
Proof.
  cbv zeta. split_and!; [vm_compute; reflexivity..|].
  apply (bool_decide_eq_true_1 _). vm_compute. reflexivity.
Qed.

(** The list the loop of [backtrack] removes a failed candidate from is the
    one-element list the candidate was bound to, not the list the loop
    iterates.  On [csp_pigeon] both candidates of [a] pass the consistency
    check and fail in AC-3; the loop ends in failure with [a] bound to a new,
    emptied list (at location 10), while the list it iterated (at location
    3) still holds both values. *)
Lemma backtrack_loop_empties_rebound_list :
  (root_inference csp_pigeon).2
  = Ok (true, [("a", 3); ("b", 4); ("c", 5)]) ∧
  (backtrack_loop (backtrack 7) 3 "a" 3 0 [("a", 3); ("b", 4); ("c", 5)]
     (root_inference csp_pigeon).1).2
  = Ok (Failure, [("a", 10); ("b", 4); ("c", 5)]) ∧
  snapshot
    (heap (backtrack_loop (backtrack 7) 3 "a" 3 0
             [("a", 3); ("b", 4); ("c", 5)] (root_inference csp_pigeon).1).1)
    [("a", 3); ("a", 10)]
  = [("a", [1; 2]%Z); ("a", [])].
Proof. split_and!; vm_compute; reflexivity. Qed.

(** When a candidate that passed the consistency check has failed, the entry
    of the variable is the emptied one-element list, and the removal of a
    later candidate that fails the check raises [ValueError].  On
    [csp_a102_b456_c7], [backtrack] is called with [a] in [1, 2], [b] in
    [4, 5, 6] and [c] in [7]; the candidate [1] passes the check and fails in
    the recursive call, the candidate [2] fails the check, and
    [backtracking_search] raises, though [a = 1], [b = 6], [c = 7]
    satisfies every arc. *)
Lemma backtracking_search_raises_ValueError :
  (root_inference csp_a102_b456_c7).2
  = Ok (true, [("a", 3); ("b", 4); ("c", 5)]) ∧
  snapshot (heap (root_inference csp_a102_b456_c7).1)
    [("a", 3); ("b", 4); ("c", 5)]
  = [("a", [1; 2]%Z); ("b", [4; 5; 6]%Z); ("c", [7]%Z)] ∧
  (backtracking_search csp_a102_b456_c7).2 = Raise ValueError ∧
  Forall (satisfies (self csp_a102_b456_c7)
            [("a", [1]%Z); ("b", [6]%Z); ("c", [7]%Z)])
         [("a", "c"); ("a", "b"); ("b", "a"); ("c", "a")].
Proof.
  split_and!; [vm_compute; reflexivity..|].
  apply (bool_decide_eq_true_1 _). vm_compute. reflexivity.
Qed.

(** A run of [inference] that returns [True] need not have reached a fixed
    point either: on [csp_a123_b3] the first run leaves [a] with [2, 3], and
    a second run removes [2]. *)
Lemma inference_success_not_fixed_point :
  (inference [("a", 2); ("b", 3)] [("a", "b"); ("b", "a")]
     (copied csp_a123_b3)).2 = Ok true ∧
  ¬ inference_idempotent_at (copied csp_a123_b3) [("a", 2); ("b", 3)]
      [("a", "b"); ("b", "a")].
Proof.
  split; [vm_compute; reflexivity|].
  unfold inference_idempotent_at. vm_compute. intros H. discriminate H.
Qed.

(** C5 is false as stated: on [csp_a1_b1] the first run of [inference]
    empties the list of [a] and returns [False] at once; the second run
    goes on to empty the list of [b]. *)
Lemma inference_not_idempotent :
  ¬ inference_idempotent_at (copied csp_a1_b1) [("a", 2); ("b", 3)]
      [("a", "b"); ("b", "a")].
Proof.
  unfold inference_idempotent_at. vm_compute. intros H. discriminate H.
Qed.

Lemma inference_idempotent_at_fixed_point_witness :
  (inference [("a", 2); ("b", 3)] [("a", "b"); ("b", "a")]
     (copied csp_a1_b2)).2 = Ok true ∧
  Forall (arc_consistent
            (inference [("a", 2); ("b", 3)] [("a", "b"); ("b", "a")]
               (copied csp_a1_b2)).1
            [("a", 2); ("b", 3)])
         [("a", "b"); ("b", "a")] ∧
  inference_idempotent_at (copied csp_a1_b2) [("a", 2); ("b", 3)]
    [("a", "b"); ("b", "a")].
Proof.
  assert (H1 : (inference [("a", 2); ("b", 3)] [("a", "b"); ("b", "a")]
                  (copied csp_a1_b2)).2 = Ok true)
    by (vm_compute; reflexivity).
  assert (H2 : Forall (arc_consistent
                 (inference [("a", 2); ("b", 3)] [("a", "b"); ("b", "a")]
                    (copied csp_a1_b2)).1
                 [("a", 2); ("b", 3)])
               [("a", "b"); ("b", "a")])
    by (apply (bool_decide_eq_true_1 _); vm_compute; reflexivity).
  split; [exact H1|]. split; [exact H2|].
  exact (inference_idempotent_at_fixed_point (copied csp_a1_b2)
           [("a", 2); ("b", 3)] [("a", "b"); ("b", "a")] H1 H2).
Defined.

(** C6 is false as stated: adding [a] a second time returns normally. *)
Lemma add_variable_accepts_duplicate :
  ¬ add_variable_rejects_duplicate csp_a1 "a" [2]%Z.
Proof.
  intros H. destruct H as [e He]; [by eexists|]. vm_compute in He.
  discriminate He.
Qed.

Lemma add_variable_overwrites_witness :
  is_Some (dget "a" (domains (self csp_a1))) ∧
  is_Some (dget "a" (constraints (self csp_a1))) ∧
  ∃ w', add_variable "a" [2]%Z csp_a1 = (w', Ok tt) ∧
        variables (self w') = variables (self csp_a1) ++ ["a"] ∧
        dkeys (domains (self w')) = dkeys (domains (self csp_a1)) ∧
        dkeys (constraints (self w')) = dkeys (constraints (self csp_a1)) ∧
        dget "a" (snapshot (heap w') (domains (self w'))) = Some [2]%Z ∧
        dget "a" (constraints (self w')) = Some [].
Proof.
  assert (H1 : is_Some (dget "a" (domains (self csp_a1))))
    by (vm_compute; eauto).
  assert (H2 : is_Some (dget "a" (constraints (self csp_a1))))
    by (vm_compute; eauto).
  split; [exact H1|]. split; [exact H2|].
  exact (add_variable_overwrites csp_a1 "a" [2]%Z H1 H2).
Defined.

(** C7 (the code does not do this).  On [csp_one_way] the only declared arc
    is [(a, b)].  [get_all_neighboring_arcs] reads the constraints declared
    _from_ its argument: for [b] it returns no arc, though [(a, b)] goes
    into [b], and for [a] it returns [(b, a)], for which no constraint is
    stored. *)
Theorem neighboring_arcs_wrong_direction :
  (get_all_arcs csp_one_way).2 = Ok [("a", "b")] ∧
  (get_all_neighboring_arcs "b" csp_one_way).2 = Ok [] ∧
  (get_all_neighboring_arcs "a" csp_one_way).2 = Ok [("b", "a")] ∧
  constraint_of (self csp_one_way) "b" "a" = None.
Proof. split_and!; vm_compute; reflexivity. Qed.

Lemma backtracking_search_unconstrained_witness :
  unconstrained_csp csp_free ∧
  ∃ w' assignment,
    backtracking_search csp_free = (w', Ok (Solution assignment)) ∧
    snapshot (heap w') assignment = [("a", [1]%Z); ("b", [5]%Z)].
Proof.
  assert (H : unconstrained_csp csp_free)
    by (apply (bool_decide_eq_true_1 _); vm_compute; reflexivity).
  split; [exact H|].
  exact (backtracking_search_unconstrained csp_free H).
Defined.

(** * The further properties on the concrete problems *)

Lemma cell_names_NoDup : NoDup cell_names.
Proof. apply (bool_decide_eq_true_1 _). vm_compute. reflexivity. Qed.

Lemma sudoku_units_cells : Forall (Forall (λ v, v ∈ cell_names)) sudoku_units.
Proof. apply (bool_decide_eq_true_1 _). vm_compute. reflexivity. Qed.

Lemma sudoku_units_peers :
  Forall (λ ab : (nat * nat) * (nat * nat),
            bool_decide (peers sudoku_units (cell_name ab.1.1 ab.1.2)
                                            (cell_name ab.2.1 ab.2.2))
            = bool_decide (sudoku_peers ab.1.1 ab.1.2 ab.2.1 ab.2.2))
         (get_all_possible_pairs sudoku_cells sudoku_cells).
Proof. apply (bool_decide_eq_true_1 _). vm_compute. reflexivity. Qed.

(** ** [create_sudoku_csp] *)

Lemma add_cells_run board (cells : list (nat * nat)) (w : Sudoku) :
  Forall (λ cell, is_Some (board_at board cell.1 cell.2)) cells →
  NoDup ((λ cell, cell_name cell.1 cell.2) <$> cells) →
  Forall (λ cell,
            dget (cell_name cell.1 cell.2) (domains (self w)) = None ∧
            dget (cell_name cell.1 cell.2) (constraints (self w)) = None)
         cells →
  in_range (heap w) (domains (self w)) →
  ∃ w', add_cells board cells w = Some (w', Ok tt) ∧
        variables (self w')
        = variables (self w) ++ ((λ cell, cell_name cell.1 cell.2) <$> cells) ∧
        snapshot (heap w') (domains (self w'))
        = snapshot (heap w) (domains (self w)) ++
          ((λ cell, (cell_name cell.1 cell.2,
                     cell_domain (default "" (board_at board cell.1 cell.2))))
             <$> cells) ∧
        constraints (self w')
        = constraints (self w) ++
          ((λ cell, (cell_name cell.1 cell.2, [])) <$> cells).
Proof.
  revert w. induction cells as [|[row col] cells IH];
    intros w Hboard Hnodup Hfresh Hrange.
  { exists w. by rewrite !app_nil_r. }
  apply Forall_cons in Hboard as [[character Hch] Hboard].
  rewrite fmap_cons in Hnodup. apply NoDup_cons in Hnodup as [Hname Hnodup].
  apply Forall_cons in Hfresh as [[Hd Hc] Hfresh]. cbn [fst snd] in *.
  destruct (add_variable_fresh_run w (cell_name row col)
              (cell_domain character) Hd Hc Hrange)
    as (w1 & Hrun1 & Hv1 & Hs1 & Hc1 & _ & Hr1).
  destruct (IH w1) as (w' & Hrun & Hv & Hs & Hcs); [done|done| |done|].
  { apply Forall_forall. intros cell Hcell. rewrite Forall_forall in Hfresh.
    destruct (Hfresh _ Hcell) as [Hd' Hc'].
    assert (Hne : cell_name row col ≠ cell_name cell.1 cell.2).
    { intros Heq. apply Hname. rewrite Heq.
      apply list_elem_of_fmap. by exists cell. }
    injection Hrun1 as <-.
    cbn [self set_self domains constraints].
    by rewrite !dget_dset_ne. }
  exists w'. cbn [add_cells]. rewrite Hch. cbn [mbind option_bind].
  rewrite Hrun1, Hrun. split; [done|].
  rewrite Hv, Hs, Hcs, Hv1, Hs1, Hc1, !fmap_cons, <-!app_assoc. cbn [fst snd].
  by rewrite Hch.
Qed.

Lemma dget_fmap_cells {V} (f : nat * nat → V) (cells : list (nat * nat)) cell :
  NoDup ((λ cell, cell_name cell.1 cell.2) <$> cells) → cell ∈ cells →
  dget (cell_name cell.1 cell.2)
       ((λ cell, (cell_name cell.1 cell.2, f cell)) <$> cells)
  = Some (f cell).
Proof.
  intros Hnodup Hcell. apply elem_of_dget.
  - unfold dkeys. rewrite <-list_fmap_compose. exact Hnodup.
  - apply list_elem_of_fmap. by exists cell.
Qed.

Lemma elem_of_sudoku_cells row col :
  row < 9 → col < 9 → (row, col) ∈ sudoku_cells.
Proof.
  intros Hr Hc. apply elem_of_get_all_possible_pairs.
  rewrite !elem_of_seq. lia.
Qed.

Lemma run_sudoku_units (w : Sudoku) :
  bind (for_each sudoku_rows add_all_different_constraint) (λ _,
  bind (for_each sudoku_cols add_all_different_constraint) (λ _,
  for_each sudoku_boxes add_all_different_constraint)) w
  = for_each sudoku_units add_all_different_constraint w.
Proof.
  unfold sudoku_units. rewrite for_each_app. unfold bind at 1 3.
  destruct (for_each sudoku_rows _ w) as [w1 [[]|e|]]; [|done|done].
  by rewrite for_each_app.
Qed.

(** X25.  [create_sudoku_csp] on a board that has a character at each of
    its 9 x 9 places returns a CSP with the 81 variables [row-col] in
    row-major order.  The domain of a cell is the nine digits when the board
    has [0] there, and the character of the board otherwise.  Two cells have
    a constraint exactly when they are different cells of one row, column or
    3 x 3 box, and the constraint holds the pairs of different values of the
    two domains. *)
Theorem create_sudoku_csp_spec (board : list string) :
  (∀ row col, row < 9 → col < 9 → is_Some (board_at board row col)) →
  ∃ w, create_sudoku_csp board = Some (w, Ok tt) ∧
       variables (self w) = cell_names ∧
       (∀ row col, row < 9 → col < 9 →
          ∃ character,
            board_at board row col = Some character ∧
            domain_of w (cell_name row col) = cell_domain character) ∧
       (∀ r1 c1 r2 c2, r1 < 9 → c1 < 9 → r2 < 9 → c2 < 9 →
          constraint_of (self w) (cell_name r1 c1) (cell_name r2 c2) =
          if decide (sudoku_peers r1 c1 r2 c2)
          then Some (filter (λ p, bool_decide (p.1 ≠ p.2))
                       (get_all_possible_pairs
                          (domain_of w (cell_name r1 c1))
                          (domain_of w (cell_name r2 c2))))
          else None).
Proof.
  intros Hboard. unfold create_sudoku_csp.
  destruct (add_cells_run board sudoku_cells empty_world)
    as (w1 & -> & Hv1 & Hs1 & Hc1).
  { apply Forall_forall. intros [row col] Hcell.
    apply elem_of_get_all_possible_pairs in Hcell as [Hr Hc].
    apply elem_of_seq in Hr, Hc. apply Hboard; cbn; lia. }
  { apply cell_names_NoDup. }
  { apply Forall_forall. by intros. }
  { constructor. }
  cbn [app empty_world self variables domains constraints heap snapshot
       list_fmap fmap empty_CSP] in Hv1, Hs1, Hc1.
  rewrite run_sudoku_units.
  assert (Hdom1 : ∀ cell, cell ∈ sudoku_cells →
            domain_of w1 (cell_name cell.1 cell.2)
            = cell_domain (default "" (board_at board cell.1 cell.2))).
  { intros cell Hcell. unfold domain_of. rewrite Hs1.
    by rewrite (dget_fmap_cells _ _ _ cell_names_NoDup Hcell). }
  assert (Hdecl : ∀ v, v ∈ cell_names → declared w1 v).
  { intros v (cell & -> & Hcell)%list_elem_of_fmap. split.
    - rewrite Hc1. by rewrite (dget_fmap_cells _ _ _ cell_names_NoDup Hcell).
    - assert (is_Some (dget (cell_name cell.1 cell.2)
                (snapshot (heap w1) (domains (self w1))))) as Hsome.
      { rewrite Hs1.
        by rewrite (dget_fmap_cells _ _ _ cell_names_NoDup Hcell). }
      rewrite dget_snapshot in Hsome. by apply fmap_is_Some in Hsome. }
  destruct (for_each_all_different [] sudoku_units w1)
    as (c' & -> & Hv & Hd & _ & Hc).
  { eapply Forall_impl; [apply sudoku_units_cells|]. intros u Hu.
    eapply Forall_impl; [apply Hu|]. apply Hdecl. }
  { intros i j. rewrite decide_False by (by intros [_ ?%Exists_nil]).
    apply constraint_of_unconstrained. unfold unconstrained.
    rewrite Hc1. apply Forall_fmap, Forall_forall. by intros. }
  exists (set_self c' w1). split; [done|]. cbn [self set_self app] in *.
  split_and!.
  - by rewrite Hv.
  - intros row col Hr Hcol. destruct (Hboard row col Hr Hcol) as [ch Hch].
    exists ch. split; [done|]. rewrite domain_of_set_self by done.
    pose proof (Hdom1 (row, col) (elem_of_sudoku_cells _ _ Hr Hcol)) as Hrc.
    cbn [fst snd] in Hrc. by rewrite Hrc, Hch.
  - intros r1 c1 r2 c2 Hr1 Hc1' Hr2 Hc2. rewrite Hc.
    rewrite !domain_of_set_self by done. apply decide_ext.
    pose proof sudoku_units_peers as Hall. rewrite Forall_forall in Hall.
    specialize (Hall ((r1, c1), (r2, c2))). cbn [fst snd] in Hall.
    rewrite <-(bool_decide_eq_true (peers _ _ _)), Hall, bool_decide_eq_true;
      [done|].
    apply elem_of_get_all_possible_pairs. split; by apply elem_of_sudoku_cells.
Qed.

Lemma add_cells_IndexError board (cells : list (nat * nat)) (w : Sudoku)
    row col :
  (row, col) ∈ cells → board_at board row col = None →
  add_cells board cells w = None.
Proof.
  intros Hin Hnone. revert w.
  induction cells as [|[r c] cells IH]; intros w;
    [by apply elem_of_nil in Hin|].
  cbn [add_cells]. apply elem_of_cons in Hin as [[= <- <-]|Hin].
  - by rewrite Hnone.
  - destruct (board_at board r c); [|done]. cbn [mbind option_bind].
    by apply IH.
Qed.

(** X26.  [create_sudoku_csp] raises [IndexError] when the board has no
    character at one of the 9 x 9 places. *)
Theorem create_sudoku_csp_IndexError (board : list string) row col :
  row < 9 → col < 9 → board_at board row col = None →
  create_sudoku_csp board = None.
Proof.
  intros Hr Hc Hnone. unfold create_sudoku_csp.
  by rewrite (add_cells_IndexError board sudoku_cells empty_world row col
                (elem_of_sudoku_cells _ _ Hr Hc) Hnone).
Qed.

(** X27.  [create_map_coloring_csp] returns a CSP with the seven states,
    and the nine borders stored as eighteen arcs, each with its reverse; on
    it [backtracking_search] returns a colouring of all seven states in which
    every arc holds a legal pair. *)
Theorem create_map_coloring_csp_solved :
  ∃ w, create_map_coloring_csp empty_world = (w, Ok tt) ∧
       variables (self w) = ["WA"; "NT"; "Q"; "NSW"; "V"; "SA"; "T"] ∧
       length (all_arcs (self w)) = 18 ∧
       symmetric_arcs (self w) (domains (self w)) ∧
       ∃ w' assignment,
         backtracking_search w = (w', Ok (Solution assignment)) ∧
         snapshot (heap w') assignment
         = [ ("WA", ["red"]); ("NT", ["green"]); ("Q", ["red"]);
             ("NSW", ["green"]); ("V", ["red"]); ("SA", ["blue"]);
             ("T", ["red"]) ] ∧
         Forall (satisfies (self w) (snapshot (heap w') assignment))
                (all_arcs (self w)).
Proof.
  eexists. split; [vm_compute; reflexivity|].
  split_and!; [vm_compute; reflexivity..| |].
  { apply (bool_decide_eq_true_1 _). vm_compute. reflexivity. }
  eexists _, _. split; [vm_compute; reflexivity|].
  split; [vm_compute; reflexivity|].
  apply (bool_decide_eq_true_1 _). vm_compute. reflexivity.
Qed.

Lemma get_all_arcs_spec_witness :
  NoDup (dkeys (constraints (self csp_map))) ∧
  ∃ arcs, get_all_arcs csp_map = (csp_map, Ok arcs) ∧
          ∀ i j, (i, j) ∈ arcs ↔ is_Some (constraint_of (self csp_map) i j).
Proof.
  assert (H : NoDup (dkeys (constraints (self csp_map))))
    by (apply (bool_decide_eq_true_1 _); vm_compute; reflexivity).
  split; [exact H|]. exact (get_all_arcs_spec csp_map H).
Defined.

Lemma add_constraint_one_way_new_arc_witness :
  dget "a" (constraints (self csp_free)) = Some [] ∧
  dget "b" ([] : dict string (list (Z * Z))) = None ∧
  dget "a" (domains (self csp_free)) = Some 0 ∧
  dget "b" (domains (self csp_free)) = Some 1 ∧
  ∃ c', add_constraint_one_way "a" "b" Z.ltb csp_free
        = (set_self c' csp_free, Ok tt) ∧
        variables c' = variables (self csp_free) ∧
        domains c' = domains (self csp_free) ∧
        dkeys (constraints c') = dkeys (constraints (self csp_free)) ∧
        constraint_of c' "a" "b"
        = Some (filter (λ p, Z.ltb p.1 p.2)
                  (get_all_possible_pairs (deref (heap csp_free) 0)
                                          (deref (heap csp_free) 1))) ∧
        ∀ i' j', (i', j') ≠ ("a", "b") →
                 constraint_of c' i' j' = constraint_of (self csp_free) i' j'.
Proof.
  assert (H1 : dget "a" (constraints (self csp_free)) = Some [])
    by (vm_compute; reflexivity).
  assert (H2 : dget "b" ([] : dict string (list (Z * Z))) = None)
    by reflexivity.
  assert (H3 : dget "a" (domains (self csp_free)) = Some 0)
    by (vm_compute; reflexivity).
  assert (H4 : dget "b" (domains (self csp_free)) = Some 1)
    by (vm_compute; reflexivity).
  split; [exact H1|]. split; [exact H2|]. split; [exact H3|].
  split; [exact H4|].
  exact (add_constraint_one_way_new_arc csp_free "a" "b" Z.ltb [] 0 1
           H1 H2 H3 H4).
Defined.

Lemma add_constraint_one_way_narrows_witness :
  constraint_of (self csp_one_way) "a" "b" = Some [(1, 2); (2, 1)]%Z ∧
  ∃ c', add_constraint_one_way "a" "b" Z.ltb csp_one_way
        = (set_self c' csp_one_way, Ok tt) ∧
        variables c' = variables (self csp_one_way) ∧
        domains c' = domains (self csp_one_way) ∧
        dkeys (constraints c') = dkeys (constraints (self csp_one_way)) ∧
        constraint_of c' "a" "b"
        = Some (filter (λ p, Z.ltb p.1 p.2) [(1, 2); (2, 1)]%Z) ∧
        ∀ i' j', (i', j') ≠ ("a", "b") →
                 constraint_of c' i' j'
                 = constraint_of (self csp_one_way) i' j'.
Proof.
  assert (H : constraint_of (self csp_one_way) "a" "b"
              = Some [(1, 2); (2, 1)]%Z) by (vm_compute; reflexivity).
  split; [exact H|].
  exact (add_constraint_one_way_narrows csp_one_way "a" "b" Z.ltb _ H).
Defined.

Lemma add_all_different_constraint_spec_witness :
  Forall (declared csp_free) ["a"; "b"] ∧
  ∃ c', add_all_different_constraint ["a"; "b"] csp_free
        = (set_self c' csp_free, Ok tt) ∧
        variables c' = variables (self csp_free) ∧
        domains c' = domains (self csp_free) ∧
        (∀ i j, i ∈ ["a"; "b"] → j ∈ ["a"; "b"] → i ≠ j →
           ∃ cij, constraint_of c' i j = Some cij ∧
                  ∀ x y, (x, y) ∈ cij ↔
                         x ≠ y ∧
                         match constraint_of (self csp_free) i j with
                         | Some old => (x, y) ∈ old
                         | None => x ∈ domain_of csp_free i ∧
                                   y ∈ domain_of csp_free j
                         end) ∧
        (∀ i j, ¬ (i ∈ ["a"; "b"] ∧ j ∈ ["a"; "b"] ∧ i ≠ j) →
           constraint_of c' i j = constraint_of (self csp_free) i j).
Proof.
  assert (H : Forall (declared csp_free) ["a"; "b"])
    by (apply (bool_decide_eq_true_1 _); vm_compute; reflexivity).
  split; [exact H|].
  exact (add_all_different_constraint_spec csp_free ["a"; "b"] H).
Defined.

Lemma add_all_different_constraint_undeclared_witness :
  "a" ∈ ["a"; "zz"] ∧ "zz" ∈ ["a"; "zz"] ∧ "a" ≠ "zz" ∧
  dget "zz" (constraints (self csp_free)) = None ∧
  (add_all_different_constraint ["a"; "zz"] csp_free).2 = Raise KeyError.
Proof.
  assert (H1 : "a" ∈ ["a"; "zz"])
    by (apply (bool_decide_eq_true_1 _); vm_compute; reflexivity).
  assert (H2 : "zz" ∈ ["a"; "zz"])
    by (apply (bool_decide_eq_true_1 _); vm_compute; reflexivity).
  assert (H3 : "a" ≠ "zz")
    by (apply (bool_decide_eq_true_1 _); vm_compute; reflexivity).
  assert (H4 : dget "zz" (constraints (self csp_free)) = None)
    by (vm_compute; reflexivity).
  split; [exact H1|]. split; [exact H2|]. split; [exact H3|].
  split; [exact H4|].
  exact (add_all_different_constraint_undeclared csp_free ["a"; "zz"]
           "a" "zz" H1 H2 H3 H4).
Defined.

Lemma add_variable_fresh_witness :
  dget "c" (domains (self csp_free)) = None ∧
  dget "c" (constraints (self csp_free)) = None ∧
  in_range (heap csp_free) (domains (self csp_free)) ∧
  ∃ w', add_variable "c" [7]%Z csp_free = (w', Ok tt) ∧
        variables (self w') = variables (self csp_free) ++ ["c"] ∧
        snapshot (heap w') (domains (self w'))
        = snapshot (heap csp_free) (domains (self csp_free))
          ++ [("c", [7]%Z)] ∧
        constraints (self w') = constraints (self csp_free) ++ [("c", [])] ∧
        heap csp_free `prefix_of` heap w'.
Proof.
  assert (H1 : dget "c" (domains (self csp_free)) = None)
    by (vm_compute; reflexivity).
  assert (H2 : dget "c" (constraints (self csp_free)) = None)
    by (vm_compute; reflexivity).
  assert (H3 : in_range (heap csp_free) (domains (self csp_free)))
    by (apply (bool_decide_eq_true_1 _); vm_compute; reflexivity).
  split; [exact H1|]. split; [exact H2|]. split; [exact H3|].
  exact (add_variable_fresh csp_free "c" [7]%Z H1 H2 H3).
Defined.

Lemma revise_keeps_supported_values_witness :
  dget "a" [("a", 2); ("b", 3)] = Some 2 ∧
  dget "b" [("a", 2); ("b", 3)] = Some 3 ∧ 2 ≠ 3 ∧
  constraint_of (self (copied csp_a123_b3)) "a" "b" = Some [(3, 3)]%Z ∧
  ∃ w' revised,
    revise [("a", 2); ("b", 3)] "a" "b" (copied csp_a123_b3)
    = (w', Ok revised) ∧
    shrink_at 2 (copied csp_a123_b3) w' ∧
    (revised = true ↔
       length (deref (heap w') 2)
       < length (deref (heap (copied csp_a123_b3)) 2)) ∧
    ∀ x, x ∈ deref (heap (copied csp_a123_b3)) 2 →
         Exists (λ y, (x, y) ∈ [(3, 3)]%Z)
                (deref (heap (copied csp_a123_b3)) 3) →
         x ∈ deref (heap w') 2.
Proof.
  assert (H1 : dget "a" [("a", 2); ("b", 3)] = Some 2) by reflexivity.
  assert (H2 : dget "b" [("a", 2); ("b", 3)] = Some 3) by reflexivity.
  assert (H3 : 2 ≠ 3) by lia.
  assert (H4 : constraint_of (self (copied csp_a123_b3)) "a" "b"
               = Some [(3, 3)]%Z) by (vm_compute; reflexivity).
  split; [exact H1|]. split; [exact H2|]. split; [exact H3|].
  split; [exact H4|].
  exact (revise_keeps_supported_values (copied csp_a123_b3)
           [("a", 2); ("b", 3)] "a" "b" 2 3 _ H1 H2 H3 H4).
Defined.

Lemma inference_keeps_solutions_witness :
  NoDup ([("a", 2); ("b", 3)] : dict string loc).*2 ∧
  solves (λ _, 3%Z) (self (copied csp_a123_b3)) ∧
  within (λ _, 3%Z) (copied csp_a123_b3) [("a", 2); ("b", 3)] ∧
  (inference [("a", 2); ("b", 3)] [("a", "b"); ("b", "a")]
     (copied csp_a123_b3)).2 ≠ Ok false ∧
  within (λ _, 3%Z)
    (inference [("a", 2); ("b", 3)] [("a", "b"); ("b", "a")]
       (copied csp_a123_b3)).1
    [("a", 2); ("b", 3)].
Proof.
  assert (H1 : NoDup ([("a", 2); ("b", 3)] : dict string loc).*2)
    by (apply (bool_decide_eq_true_1 _); vm_compute; reflexivity).
  assert (H2 : solves (λ _ : string, 3%Z) (self (copied csp_a123_b3)))
    by (apply (bool_decide_eq_true_1 _); vm_compute; reflexivity).
  assert (H3 : within (λ _ : string, 3%Z) (copied csp_a123_b3)
                 [("a", 2); ("b", 3)])
    by (apply (bool_decide_eq_true_1 _); vm_compute; reflexivity).
  split; [exact H1|]. split; [exact H2|]. split; [exact H3|].
  exact (inference_keeps_solutions (λ _, 3%Z) (copied csp_a123_b3)
           [("a", 2); ("b", 3)] [("a", "b"); ("b", "a")] H1 H2 H3).
Defined.

Lemma inference_returns_witness :
  symmetric_arcs (self (copied csp_a123_b3)) [("a", 2); ("b", 3)] ∧
  Forall (λ arc, arc ∈ all_arcs (self (copied csp_a123_b3)))
         [("a", "b"); ("b", "a")] ∧
  ∃ w' inferences,
    inference [("a", 2); ("b", 3)] [("a", "b"); ("b", "a")]
      (copied csp_a123_b3) = (w', Ok inferences).
Proof.
  assert (H1 : symmetric_arcs (self (copied csp_a123_b3))
                 [("a", 2); ("b", 3)])
    by (apply (bool_decide_eq_true_1 _); vm_compute; reflexivity).
  assert (H2 : Forall (λ arc, arc ∈ all_arcs (self (copied csp_a123_b3)))
                      [("a", "b"); ("b", "a")])
    by (apply (bool_decide_eq_true_1 _); vm_compute; reflexivity).
  split; [exact H1|]. split; [exact H2|].
  exact (inference_returns (copied csp_a123_b3) [("a", 2); ("b", 3)]
           [("a", "b"); ("b", "a")] H1 H2).
Defined.

Lemma inference_False_wipeout_witness :
  inference [("a", 2); ("b", 3)] [("a", "b"); ("b", "a")] (copied csp_a1_b1)
  = ((inference [("a", 2); ("b", 3)] [("a", "b"); ("b", "a")]
        (copied csp_a1_b1)).1, Ok false) ∧
  ∃ i li,
    dget i [("a", 2); ("b", 3)] = Some li ∧
    deref (heap (inference [("a", 2); ("b", 3)] [("a", "b"); ("b", "a")]
                   (copied csp_a1_b1)).1) li = [].
Proof.
  assert (H : inference [("a", 2); ("b", 3)] [("a", "b"); ("b", "a")]
                (copied csp_a1_b1)
              = ((inference [("a", 2); ("b", 3)] [("a", "b"); ("b", "a")]
                    (copied csp_a1_b1)).1, Ok false))
    by (vm_compute; reflexivity).
  split; [exact H|].
  exact (inference_False_wipeout (copied csp_a1_b1) _ [("a", 2); ("b", 3)]
           [("a", "b"); ("b", "a")] H).
Defined.

Lemma backtrack_no_undecided_witness :
  Forall (λ e : string * loc,
            length (deref (heap (root_inference csp_a1_b1).1) e.2) ≤ 1)
         [("a", 2); ("b", 3)] ∧
  backtrack 1 [("a", 2); ("b", 3)] (root_inference csp_a1_b1).1 =
  (set_counters (count_backtrack (root_inference csp_a1_b1).1 + 1)
     (count_failures (root_inference csp_a1_b1).1)
     (root_inference csp_a1_b1).1,
   if decide (Forall (λ e : string * loc,
                 length (deref (heap (root_inference csp_a1_b1).1) e.2) = 1)
               [("a", 2); ("b", 3)])
   then Ok (Solution [("a", 2); ("b", 3)]) else Raise KeyError).
Proof.
  assert (H : Forall (λ e : string * loc,
                length (deref (heap (root_inference csp_a1_b1).1) e.2) ≤ 1)
              [("a", 2); ("b", 3)])
    by (apply (bool_decide_eq_true_1 _); vm_compute; reflexivity).
  split; [exact H|].
  exact (backtrack_no_undecided 0 [("a", 2); ("b", 3)]
           (root_inference csp_a1_b1).1 H).
Defined.

Lemma backtracking_search_solution_witness :
  in_range (heap csp_free) (domains (self csp_free)) ∧
  backtracking_search csp_free
  = ((backtracking_search csp_free).1, Ok (Solution [("a", 8); ("b", 9)])) ∧
  dkeys ([("a", 8); ("b", 9)] : dict string loc)
  = dkeys (domains (self csp_free)) ∧
  ∀ v l, dget v [("a", 8); ("b", 9)] = Some l →
         ∃ x, deref (heap (backtracking_search csp_free).1) l = [x] ∧
              x ∈ domain_of csp_free v.
Proof.
  assert (H1 : in_range (heap csp_free) (domains (self csp_free)))
    by (apply (bool_decide_eq_true_1 _); vm_compute; reflexivity).
  assert (H2 : backtracking_search csp_free
               = ((backtracking_search csp_free).1,
                  Ok (Solution [("a", 8); ("b", 9)])))
    by (vm_compute; reflexivity).
  split; [exact H1|]. split; [exact H2|].
  exact (backtracking_search_solution csp_free _ _ H1 H2).
Defined.

Lemma consistent_loop_spec_witness :
  dget "a" (constraints (self (root_inference csp_a123_b3).1))
  = Some [("b", [(3, 3)]%Z)] ∧
  ∃ consistent,
    consistent_loop [("a", 2); ("b", 3)] "a" 2%Z
      (dkeys ([("a", 2); ("b", 3)] : dict string loc))
      (root_inference csp_a123_b3).1
    = ((root_inference csp_a123_b3).1, Ok consistent) ∧
    (consistent = true ↔
       ∀ other pairs lo,
         other ≠ "a" → dget other [("b", [(3, 3)]%Z)] = Some pairs →
         dget other [("a", 2); ("b", 3)] = Some lo →
         ∃ y, y ∈ deref (heap (root_inference csp_a123_b3).1) lo ∧
              (2%Z, y) ∈ pairs).
Proof.
  assert (H : dget "a" (constraints (self (root_inference csp_a123_b3).1))
              = Some [("b", [(3, 3)]%Z)]) by (vm_compute; reflexivity).
  split; [exact H|].
  exact (consistent_loop_spec [("a", 2); ("b", 3)] "a" 2%Z
           (root_inference csp_a123_b3).1 _ H).
Defined.

Lemma board_example_cells row col :
  row < 9 → col < 9 → is_Some (board_at board_example row col).
Proof.
  intros Hr Hc.
  do 9 (destruct row as [|row];
        [do 9 (destruct col as [|col]; [vm_compute; eauto|]); lia|]).
  lia.
Defined.

Lemma create_sudoku_csp_spec_witness :
  (∀ row col, row < 9 → col < 9 →
     is_Some (board_at board_example row col)) ∧
  ∃ w, create_sudoku_csp board_example = Some (w, Ok tt) ∧
       variables (self w) = cell_names ∧
       (∀ row col, row < 9 → col < 9 →
          ∃ character,
            board_at board_example row col = Some character ∧
            domain_of w (cell_name row col) = cell_domain character) ∧
       (∀ r1 c1 r2 c2, r1 < 9 → c1 < 9 → r2 < 9 → c2 < 9 →
          constraint_of (self w) (cell_name r1 c1) (cell_name r2 c2) =
          if decide (sudoku_peers r1 c1 r2 c2)
          then Some (filter (λ p, bool_decide (p.1 ≠ p.2))
                       (get_all_possible_pairs
                          (domain_of w (cell_name r1 c1))
                          (domain_of w (cell_name r2 c2))))
          else None).
Proof.
  split; [exact board_example_cells|].
  exact (create_sudoku_csp_spec board_example board_example_cells).
Defined.

Lemma create_sudoku_csp_IndexError_witness :
  1 < 9 ∧ 0 < 9 ∧ board_at ["530070000"] 1 0 = None ∧
  create_sudoku_csp ["530070000"] = None.
Proof.
  assert (H1 : 1 < 9) by lia. assert (H2 : 0 < 9) by lia.
  assert (H3 : board_at ["530070000"] 1 0 = None) by reflexivity.
  split; [exact H1|]. split; [exact H2|]. split; [exact H3|].
  exact (create_sudoku_csp_IndexError ["530070000"] 1 0 H1 H2 H3).
Defined.

Lemma get_all_neighboring_arcs_symmetric_witness :
  Forall (λ arc : string * string,
            is_Some (constraint_of (self csp_map) arc.2 arc.1))
         (all_arcs (self csp_map)) ∧
  is_Some (dget "SA" (constraints (self csp_map))) ∧
  ∃ arcs, get_all_neighboring_arcs "SA" csp_map = (csp_map, Ok arcs) ∧
          ∀ k j, (k, j) ∈ arcs
                 ↔ j = "SA" ∧ is_Some (constraint_of (self csp_map) k "SA").
Proof.
  assert (H1 : Forall (λ arc : string * string,
                  is_Some (constraint_of (self csp_map) arc.2 arc.1))
                (all_arcs (self csp_map)))
    by (apply (bool_decide_eq_true_1 _); vm_compute; reflexivity).
  assert (H2 : is_Some (dget "SA" (constraints (self csp_map))))
    by (apply (bool_decide_eq_true_1 _); vm_compute; reflexivity).
  split; [exact H1|]. split; [exact H2|].
  exact (get_all_neighboring_arcs_symmetric csp_map "SA" H1 H2).
Defined.

Lemma root_inference_keeps_solutions_witness :
  well_formed csp_a123_b3 ∧ solves (λ _, 3%Z) (self csp_a123_b3) ∧
  within (λ _, 3%Z) csp_a123_b3 (domains (self csp_a123_b3)) ∧
  (root_inference csp_a123_b3).2 = Ok (true, [("a", 2); ("b", 3)]) ∧
  true = true ∧
  within (λ _, 3%Z) (root_inference csp_a123_b3).1 [("a", 2); ("b", 3)] ∧
  dkeys ([("a", 2); ("b", 3)] : dict string loc)
  = dkeys (domains (self csp_a123_b3)).
Proof.
  assert (H1 : well_formed csp_a123_b3)
    by (apply (bool_decide_eq_true_1 _); vm_compute; reflexivity).
  assert (H2 : solves (λ _ : string, 3%Z) (self csp_a123_b3))
    by (apply (bool_decide_eq_true_1 _); vm_compute; reflexivity).
  assert (H3 : within (λ _ : string, 3%Z) csp_a123_b3
                 (domains (self csp_a123_b3)))
    by (apply (bool_decide_eq_true_1 _); vm_compute; reflexivity).
  assert (H4 : (root_inference csp_a123_b3).2
               = Ok (true, [("a", 2); ("b", 3)]))
    by (vm_compute; reflexivity).
  split; [exact H1|]. split; [exact H2|]. split; [exact H3|].
  split; [exact H4|].
  exact (root_inference_keeps_solutions (λ _, 3%Z) csp_a123_b3 true
           [("a", 2); ("b", 3)] H1 H2 H3 H4).
Defined.

Lemma backtracking_search_decided_witness :
  in_range (heap csp_a1_b2) (domains (self csp_a1_b2)) ∧
  Forall (λ e : string * loc, length (deref (heap csp_a1_b2) e.2) = 1)
         (domains (self csp_a1_b2)) ∧
  Forall (arc_consistent csp_a1_b2 (domains (self csp_a1_b2)))
         (all_arcs (self csp_a1_b2)) ∧
  ∃ w' assignment,
    backtracking_search csp_a1_b2 = (w', Ok (Solution assignment)) ∧
    snapshot (heap w') assignment
    = snapshot (heap csp_a1_b2) (domains (self csp_a1_b2)) ∧
    count_backtrack w' = 1 ∧ count_failures w' = 0.
Proof.
  assert (H1 : in_range (heap csp_a1_b2) (domains (self csp_a1_b2)))
    by (apply (bool_decide_eq_true_1 _); vm_compute; reflexivity).
  assert (H2 : Forall (λ e : string * loc,
                       length (deref (heap csp_a1_b2) e.2) = 1)
                      (domains (self csp_a1_b2)))
    by (apply (bool_decide_eq_true_1 _); vm_compute; reflexivity).
  assert (H3 : Forall (arc_consistent csp_a1_b2 (domains (self csp_a1_b2)))
                      (all_arcs (self csp_a1_b2)))
    by (apply (bool_decide_eq_true_1 _); vm_compute; reflexivity).
  split; [exact H1|]. split; [exact H2|]. split; [exact H3|].
  exact (backtracking_search_decided csp_a1_b2 H1 H2 H3).
Defined.
